(** * HumanLogica: the Mary kernel and the Helena world layer

    A shallow embedding of [src/mary.py], of the world operations of
    [src/helena.py] and of the loop handler of [src/logica/runtime.py],
    with the properties of the kernel proved over it.

    Conventions.
    - A Python [str] is modelled by its UTF-8 encoding (a Rocq [string] is a
      list of bytes), so [data.encode()] is the identity and string equality
      is unchanged.
    - A Python [int] is a [Z].
    - A Python [float], the wall clock [time.time()] and the builtin [repr]
      are supplied by the host: they are the fields of the class [Host].
    - A dict whose iteration order is observable is an association list in
      insertion order; the other dicts are [gmap]s. *)

From Stdlib Require Import ZArith List Ascii String DecimalString DecimalPos DecimalZ.
From stdpp Require Import gmap strings list fin_maps.
Import ListNotations.
Local Open Scope string_scope.
Local Open Scope Z_scope.
Local Open Scope list_scope.
Set Warnings "-register-all".

(** ** hashlib.sha256 (FIPS 180-4) *)

Module Sha256.

Definition mask32 (x : Z) : Z := Z.land x 4294967295.
Definition add32 (x y : Z) : Z := mask32 (x + y).
Definition rotr (n x : Z) : Z :=
  mask32 (Z.lor (Z.shiftr x n) (Z.shiftl x (32 - n))).
Definition shr (n x : Z) : Z := Z.shiftr x n.
Definition not32 (x : Z) : Z := Z.lxor x 4294967295.

Definition Ch (x y z : Z) : Z := Z.lxor (Z.land x y) (Z.land (not32 x) z).
Definition Maj (x y z : Z) : Z :=
  Z.lxor (Z.lxor (Z.land x y) (Z.land x z)) (Z.land y z).
Definition Sigma0 (x : Z) : Z := Z.lxor (Z.lxor (rotr 2 x) (rotr 13 x)) (rotr 22 x).
Definition Sigma1 (x : Z) : Z := Z.lxor (Z.lxor (rotr 6 x) (rotr 11 x)) (rotr 25 x).
Definition sigma0 (x : Z) : Z := Z.lxor (Z.lxor (rotr 7 x) (rotr 18 x)) (shr 3 x).
Definition sigma1 (x : Z) : Z := Z.lxor (Z.lxor (rotr 17 x) (rotr 19 x)) (shr 10 x).

(** The constants: the first 32 bits of the fractional parts of the cube
    roots (for [K]) and of the square roots (for [H0]) of the first primes. *)
Definition is_prime (n : Z) : bool :=
  forallb (fun d => negb (n mod d =? 0)) (map Z.of_nat (seq 2 (Z.to_nat n - 2))).

Definition primes (count : nat) : list Z :=
  firstn count (List.filter is_prime (map Z.of_nat (seq 2 400))).

(** The largest [r] below [2 ^ bits] with [r ^ k <= n], one bit at a time. *)
Fixpoint iroot (k n : Z) (bits : nat) (r : Z) : Z :=
  match bits with
  | O => r
  | S bits' =>
      let r' := r + 2 ^ Z.of_nat bits' in
      iroot k n bits' (if r' ^ k <=? n then r' else r)
  end.

Definition frac_root (k p : Z) : Z := mask32 (iroot k (p * 2 ^ (32 * k)) 40 0).

Definition K : list Z := Eval vm_compute in map (frac_root 3) (primes 64).

Definition H0 : list Z := Eval vm_compute in map (frac_root 2) (primes 8).

(** The message as bytes, then the padding: a 1 bit, zeros up to 56 modulo
    64, and the bit length on eight bytes, big-endian. *)
Definition bytes_of_string (s : string) : list Z :=
  map (fun c => Z.of_N (N_of_ascii c)) (list_ascii_of_string s).

Fixpoint be_bytes (n : nat) (x : Z) : list Z :=
  match n with
  | O => []
  | S n' => Z.land (Z.shiftr x (8 * Z.of_nat n')) 255 :: be_bytes n' x
  end.

Definition pad (msg : list Z) : list Z :=
  let len := Z.of_nat (length msg) in
  let zeros := Z.to_nat ((55 - len) mod 64) in
  msg ++ [128] ++ repeat 0 zeros ++ be_bytes 8 (8 * len).

Fixpoint words_of_bytes (bs : list Z) : list Z :=
  match bs with
  | b0 :: b1 :: b2 :: b3 :: rest =>
      (Z.shiftl b0 24 + Z.shiftl b1 16 + Z.shiftl b2 8 + b3)
        :: words_of_bytes rest
  | _ => []
  end.

Definition word (ws : list Z) (i : nat) : Z := nth i ws 0.

(** The message schedule: [ws] holds W[0..t-1]; each step adds W[t]. *)
Fixpoint schedule (n : nat) (ws : list Z) : list Z :=
  match n with
  | O => ws
  | S n' =>
      let t := length ws in
      let w := add32 (add32 (sigma1 (word ws (t - 2))) (word ws (t - 7)))
                     (add32 (sigma0 (word ws (t - 15))) (word ws (t - 16))) in
      schedule n' (ws ++ [w])
  end.

Record regs := Regs { ra : Z; rb : Z; rc : Z; rd : Z; re : Z; rf : Z; rg : Z; rh : Z }.

Definition round (r : regs) (kw : Z * Z) : regs :=
  let '(k, w) := kw in
  let t1 := add32 (add32 (add32 (rh r) (Sigma1 (re r))) (Ch (re r) (rf r) (rg r)))
                  (add32 k w) in
  let t2 := add32 (Sigma0 (ra r)) (Maj (ra r) (rb r) (rc r)) in
  Regs (add32 t1 t2) (ra r) (rb r) (rc r) (add32 (rd r) t1) (re r) (rf r) (rg r).

Definition regs_of (h : list Z) : regs :=
  Regs (word h 0) (word h 1) (word h 2) (word h 3)
       (word h 4) (word h 5) (word h 6) (word h 7).

Definition compress (h : list Z) (block : list Z) : list Z :=
  let ws := schedule 48 block in
  let r := fold_left round (combine K ws) (regs_of h) in
  [ add32 (word h 0) (ra r); add32 (word h 1) (rb r);
    add32 (word h 2) (rc r); add32 (word h 3) (rd r);
    add32 (word h 4) (re r); add32 (word h 5) (rf r);
    add32 (word h 6) (rg r); add32 (word h 7) (rh r) ].

Fixpoint blocks (n : nat) (h : list Z) (ws : list Z) : list Z :=
  match n with
  | O => h
  | S n' =>
      match ws with
      | [] => h
      | _ => blocks n' (compress h (firstn 16 ws)) (skipn 16 ws)
      end
  end.

Definition digest (msg : list Z) : list Z :=
  let ws := words_of_bytes (pad msg) in
  blocks (length ws) H0 ws.

Definition hex_digit (d : Z) : ascii :=
  if d <? 10 then ascii_of_N (Z.to_N (48 + d)) else ascii_of_N (Z.to_N (87 + d)).

Fixpoint hex_of (n : nat) (x : Z) : string :=
  match n with
  | O => EmptyString
  | S n' => String (hex_digit (Z.land (Z.shiftr x (4 * Z.of_nat n')) 15)) (hex_of n' x)
  end.

Definition hexdigest (s : string) : string :=
  fold_right (fun w acc => String.append (hex_of 8 w) acc) EmptyString
             (digest (bytes_of_string s)).

End Sha256.

(** ** Python values and the host *)

Module Status.
Inductive t := ACTIVE | INACTIVE | BROKEN.
Definition eqb (a b : t) : bool :=
  match a, b with
  | ACTIVE, ACTIVE | INACTIVE, INACTIVE | BROKEN, BROKEN => true
  | _, _ => false
  end.
End Status.

Module SpeakerStatus.
Inductive t := ALIVE | SUSPENDED.
End SpeakerStatus.

Module Version.
Inductive t := CURRENT | SUPERSEDED | EXPIRED.
Definition eqb (a b : t) : bool :=
  match a, b with
  | CURRENT, CURRENT | SUPERSEDED, SUPERSEDED | EXPIRED, EXPIRED => true
  | _, _ => false
  end.
End Version.

Module RequestStatus.
Inductive t := PENDING | ACCEPTED | REFUSED | EXPIRED.
Definition eqb (a b : t) : bool :=
  match a, b with
  | PENDING, PENDING | ACCEPTED, ACCEPTED | REFUSED, REFUSED
  | EXPIRED, EXPIRED => true
  | _, _ => false
  end.
End RequestStatus.

(** The dynamic values that cross the kernel boundary ([Any] in the source),
    over the host's floats [F]. *)
Inductive Value (F : Type) : Type :=
| VNone
| VBool (b : bool)
| VInt (n : Z)
| VFloat (x : F)
| VStr (s : string)
| VStatus (s : Status.t)
| VTuple (l : list (Value F)).
Arguments VNone {F}.
Arguments VBool {F} b.
Arguments VInt {F} n.
Arguments VFloat {F} x.
Arguments VStr {F} s.
Arguments VStatus {F} s.
Arguments VTuple {F} l.

(** What the kernel takes from Python and from the machine: floats with
    their [str], comparison, truth value and sum, the successive readings of
    [time.time()], and [repr]. *)
Class Host : Type := {
  float : Type;
  float_str : float -> string;
  float_gtb : float -> float -> bool;
  float_bool : float -> bool;
  float_add : float -> float -> float;
  time_time : nat -> float;
  py_repr : Value float -> string
}.

(** The comparisons [>=] and [<=] of floats, for the time filters of
    [Ledger.search]. *)
Class FloatOrder `{Host} : Type := {
  float_geb : float -> float -> bool;
  float_leb : float -> float -> bool
}.

(** [str(n)] for an [int]. *)
Definition int_str (n : Z) : string := NilZero.string_of_int (Z.to_int n).

(** [data[:n]] for a string. *)
Definition str_prefix (n : nat) (s : string) : string := substring 0 n s.

(** A dict with string keys as the kernel builds them for [state_before] and
    [state_after]: the items, in insertion order. *)
Definition PyDict `{Host} : Type := list (string * Value float).

(** A dict with [int] keys whose order of iteration is observed. *)
Fixpoint dict_get {V : Type} (k : Z) (d : list (Z * V)) : option V :=
  match d with
  | [] => None
  | (k', v) :: d' => if k' =? k then Some v else dict_get k d'
  end.

Fixpoint dict_set {V : Type} (k : Z) (v : V) (d : list (Z * V)) : list (Z * V) :=
  match d with
  | [] => [(k, v)]
  | (k', v') :: d' => if k' =? k then (k, v) :: d' else (k', v') :: dict_set k v d'
  end.

Fixpoint dict_alter {V : Type} (f : V -> V) (k : Z) (d : list (Z * V)) : list (Z * V) :=
  match d with
  | [] => []
  | (k', v) :: d' => if k' =? k then (k', f v) :: d' else (k', v) :: dict_alter f k d'
  end.

(** [l[start:stop]] for a list: a negative index counts from the end, and
    both indices are clipped to the list. *)
Definition slice_index (n i : Z) : Z :=
  if i <? 0 then (if i + n <? 0 then 0 else i + n)
  else (if n <? i then n else i).

Definition py_slice {A : Type} (start stop : Z) (l : list A) : list A :=
  let n := Z.of_nat (length l) in
  let start := slice_index n start in
  let stop := slice_index n stop in
  take (Z.to_nat (stop - start)) (drop (Z.to_nat start) l).

(** ** Part II of mary.py: the records *)

Module Speaker.
Record t `{Host} := mk {
  id : Z;
  name : string;
  created_at : float;
  status : SpeakerStatus.t
}.
Definition is_alive `{Host} (self : t) : bool :=
  match status self with SpeakerStatus.ALIVE => true | _ => false end.
Definition with_status `{Host} (s : SpeakerStatus.t) (self : t) : t :=
  mk _ (id self) (name self) (created_at self) s.
End Speaker.

Module LedgerEntry.
Record t `{Host} := mk {
  entry_id : Z;
  speaker_id : Z;
  operation : string;
  condition : option string;
  condition_result : option bool;
  action : string;
  status : option Status.t;
  state_before : option PyDict;
  state_after : option PyDict;
  timestamp : float;
  prev_hash : string;
  entry_hash : string;
  break_reason : option string
}.

(** The f-string of [compute_hash]. *)
Definition hash_input `{Host} (self : t) : string :=
  int_str (entry_id self) +:+ ":" +:+ int_str (speaker_id self) +:+ ":" +:+
  operation self +:+ ":" +:+ action self +:+ ":" +:+
  float_str (timestamp self) +:+ ":" +:+ prev_hash self.

Definition compute_hash `{Host} (self : t) : string :=
  str_prefix 16 (Sha256.hexdigest (hash_input self)).

Definition with_entry_hash `{Host} (h : string) (self : t) : t :=
  mk _ (entry_id self) (speaker_id self) (operation self) (condition self)
     (condition_result self) (action self) (status self) (state_before self)
     (state_after self) (timestamp self) (prev_hash self) h (break_reason self).
End LedgerEntry.

Module Request.
Record t `{Host} := mk {
  request_id : Z;
  from_speaker : Z;
  to_speaker : Z;
  action : string;
  data : Value float;
  status : RequestStatus.t;
  created_at : float;
  expires_at : option float;
  response_data : Value float
}.
Definition resolve `{Host} (s : RequestStatus.t) (resp : Value float) (self : t) : t :=
  mk _ (request_id self) (from_speaker self) (to_speaker self) (action self)
     (data self) s (created_at self) (expires_at self) resp.
Definition with_status `{Host} (s : RequestStatus.t) (self : t) : t :=
  resolve s (response_data self) self.
End Request.

(** The calls of the kernel façade that a callback can make.  A callback of
    the source is a Python closure over the kernel; it is modelled by the
    program [P] of façade calls that it performs. *)
Inductive Call `{Host} (P : Type) : Type :=
| Call_create_speaker (caller_id : Z) (name : string)
| Call_suspend_speaker (caller_id target_id : Z)
| Call_read (caller_id owner_id : Z) (var_name : string)
| Call_write (caller_id : Z) (var_name : string) (value : Value float)
| Call_write_to (caller_id target_id : Z) (var_name : string) (value : Value float)
| Call_submit (speaker_id : Z) (condition : option P) (condition_label : string)
    (action : string) (action_fn : option P) (is_refusal : bool)
    (scope_until : option float)
| Call_submit_loop (speaker_id : Z) (condition : option P) (condition_label : string)
    (action : string) (action_fn : option P) (loop_condition : option P)
    (loop_max : option Z)
| Call_expression_status (caller_id expr_id : Z)
| Call_request (caller_id target_id : Z) (action : string) (data : Value float)
    (timeout : option float)
| Call_respond (caller_id request_id : Z) (accept : bool) (response_data : Value float)
| Call_ledger_count (caller_id : Z)
| Call_ledger_verify.
Arguments Call_create_speaker {_ P}.
Arguments Call_suspend_speaker {_ P}.
Arguments Call_read {_ P}.
Arguments Call_write {_ P}.
Arguments Call_write_to {_ P}.
Arguments Call_submit {_ P}.
Arguments Call_submit_loop {_ P}.
Arguments Call_expression_status {_ P}.
Arguments Call_request {_ P}.
Arguments Call_respond {_ P}.
Arguments Call_ledger_count {_ P}.
Arguments Call_ledger_verify {_ P}.

(** A callable: it returns a value, raises an exception (modelled by its
    message, [str(e)]), or calls the kernel and goes on with the result. *)
Inductive Prog `{Host} : Type :=
| Ret (v : Value float)
| Raise (msg : string)
| Bind (c : Call Prog) (k : Value float -> Prog).

Module Expression.
Record t `{Host} := mk {
  expression_id : Z;
  speaker_id : Z;
  condition : option Prog;
  condition_label : string;
  action : string;
  action_fn : option Prog;
  created_at : float;
  version : Version.t;
  status : option Status.t;
  scope_until : option float;
  is_refusal : bool;
  loop_condition : option Prog;
  loop_max : option Z
}.
Definition with_version `{Host} (v : Version.t) (self : t) : t :=
  mk _ (expression_id self) (speaker_id self) (condition self)
     (condition_label self) (action self) (action_fn self) (created_at self)
     v (status self) (scope_until self) (is_refusal self)
     (loop_condition self) (loop_max self).
Definition with_status `{Host} (s : option Status.t) (self : t) : t :=
  mk _ (expression_id self) (speaker_id self) (condition self)
     (condition_label self) (action self) (action_fn self) (created_at self)
     (version self) s (scope_until self) (is_refusal self)
     (loop_condition self) (loop_max self).
End Expression.

(** ** Part III: the ledger *)

Module Ledger.
Record t `{Host} := mk {
  _entries : list LedgerEntry.t;
  _last_hash : string
}.

Definition init `{Host} : t := mk _ [] "genesis".

(** [append]; [now] is the reading of [time.time()] taken for the entry. *)
Definition append `{Host} (now : float) (speaker_id : Z) (operation action : string)
    (condition : option string) (condition_result : option bool)
    (status : option Status.t) (state_before state_after : option PyDict)
    (break_reason : option string) (self : t) : LedgerEntry.t * t :=
  let entry :=
    LedgerEntry.mk _ (Z.of_nat (length (_entries self))) speaker_id operation
      condition condition_result action status state_before state_after
      now (_last_hash self) "" break_reason in
  let entry := LedgerEntry.with_entry_hash (LedgerEntry.compute_hash entry) entry in
  (entry, mk _ (_entries self ++ [entry]) (LedgerEntry.entry_hash entry)).

Fixpoint verify_from `{Host} (expected_prev : string) (entries : list LedgerEntry.t)
    : bool :=
  match entries with
  | [] => true
  | entry :: rest =>
      if negb (String.eqb (LedgerEntry.prev_hash entry) expected_prev) then false
      else if negb (String.eqb (LedgerEntry.entry_hash entry)
                               (LedgerEntry.compute_hash entry)) then false
      else verify_from (LedgerEntry.entry_hash entry) rest
  end.

Definition verify_integrity `{Host} (self : t) : bool :=
  match _entries self with
  | [] => true
  | _ => verify_from "genesis" (_entries self)
  end.

Definition count `{Host} (self : t) : Z := Z.of_nat (length (_entries self)).

Definition last `{Host} (self : t) : option LedgerEntry.t :=
  List.last (map Some (_entries self)) None.

(** [read]: the slice [self._entries[from_id:to_id]]. *)
Definition read `{Host} (from_id : Z) (to_id : option Z) (self : t) : list LedgerEntry.t :=
  let to_id := match to_id with
               | None => Z.of_nat (length (_entries self))
               | Some to_id => to_id
               end in
  py_slice from_id to_id (_entries self).

Definition search `{Host} `{!FloatOrder} (speaker_id : option Z)
    (operation action : option string) (from_time to_time : option float) (self : t)
    : list LedgerEntry.t :=
  let results := _entries self in
  let results :=
    match speaker_id with
    | Some speaker_id =>
        List.filter (fun e => LedgerEntry.speaker_id e =? speaker_id) results
    | None => results
    end in
  let results :=
    match operation with
    | Some operation =>
        List.filter (fun e => String.eqb (LedgerEntry.operation e) operation) results
    | None => results
    end in
  let results :=
    match action with
    | Some action => List.filter (fun e => String.eqb (LedgerEntry.action e) action) results
    | None => results
    end in
  let results :=
    match from_time with
    | Some from_time =>
        List.filter (fun e => float_geb (LedgerEntry.timestamp e) from_time) results
    | None => results
    end in
  let results :=
    match to_time with
    | Some to_time =>
        List.filter (fun e => float_leb (LedgerEntry.timestamp e) to_time) results
    | None => results
    end in
  results.
End Ledger.

(** ** Part IV: the memory *)

Module Memory.
Record t `{Host} := mk {
  _partitions : gmap Z (gmap string (Value float))
}.

Definition init `{Host} : t := mk _ ∅.

Definition create_partition `{Host} (speaker_id : Z) (self : t) : t :=
  match _partitions self !! speaker_id with
  | Some _ => self
  | None => mk _ (<[speaker_id := ∅]> (_partitions self))
  end.

Definition read `{Host} (owner_id : Z) (var_name : string) (self : t) : Value float :=
  let partition := default ∅ (_partitions self !! owner_id) in
  default VNone (partition !! var_name).

Definition write `{Host} (caller_id : Z) (var_name : string) (value : Value float)
    (self : t) : (bool * Value float) * t :=
  match _partitions self !! caller_id with
  | None => ((false, VNone), self)
  | Some partition =>
      let old_value := default VNone (partition !! var_name) in
      ((true, old_value),
       mk _ (<[caller_id := <[var_name := value]> partition]> (_partitions self)))
  end.

Definition write_check (caller_id target_id : Z) : bool := caller_id =? target_id.

Definition get_partition `{Host} (speaker_id : Z) (self : t) : gmap string (Value float) :=
  default ∅ (_partitions self !! speaker_id).
End Memory.

(** ** Part V: the speaker registry *)

Module SpeakerRegistry.
Record t `{Host} := mk {
  _speakers : gmap Z Speaker.t;
  _next_id : Z
}.

Definition init `{Host} : t := mk _ ∅ 0.

Definition create `{Host} (now : float) (name : string) (self : t) : Speaker.t * t :=
  let speaker := Speaker.mk _ (_next_id self) name now SpeakerStatus.ALIVE in
  (speaker, mk _ (<[Speaker.id speaker := speaker]> (_speakers self)) (_next_id self + 1)).

Definition get `{Host} (speaker_id : Z) (self : t) : option Speaker.t :=
  _speakers self !! speaker_id.

Definition authenticate `{Host} (speaker_id : Z) (self : t) : bool :=
  match _speakers self !! speaker_id with
  | Some speaker => Speaker.is_alive speaker
  | None => false
  end.

Definition suspend `{Host} (speaker_id : Z) (self : t) : bool * t :=
  match _speakers self !! speaker_id with
  | Some speaker =>
      (true, mk _ (<[speaker_id := Speaker.with_status SpeakerStatus.SUSPENDED speaker]>
                     (_speakers self)) (_next_id self))
  | None => (false, self)
  end.
End SpeakerRegistry.

(** ** Part VI: the request bus *)

Module RequestBus.
Record t `{Host} := mk {
  _pending : list Request.t;
  _resolved : list Request.t;
  _next_id : Z
}.

Definition init `{Host} : t := mk _ [] [] 0.

Definition create_request `{Host} (now : float) (from_speaker to_speaker : Z)
    (action : string) (data : Value float) (expires_at : option float) (self : t)
    : Request.t * t :=
  let req := Request.mk _ (_next_id self) from_speaker to_speaker action data
               RequestStatus.PENDING now expires_at VNone in
  (req, mk _ (_pending self ++ [req]) (_resolved self) (_next_id self + 1)).

(** The first request of a list with the given id. *)
Fixpoint find `{Host} (request_id : Z) (l : list Request.t) : option Request.t :=
  match l with
  | [] => None
  | r :: l' => if Request.request_id r =? request_id then Some r else find request_id l'
  end.

Definition get_request `{Host} (request_id : Z) (self : t) : option Request.t :=
  find request_id (_pending self ++ _resolved self).

(** [self._pending.remove(req)] for the request found by [find]: the first
    element equal to it is the request itself, the first with its id. *)
Fixpoint remove `{Host} (request_id : Z) (l : list Request.t) : list Request.t :=
  match l with
  | [] => []
  | r :: l' => if Request.request_id r =? request_id then l' else r :: remove request_id l'
  end.

Definition respond `{Host} (request_id responder_id : Z) (accept : bool)
    (response_data : Value float) (self : t) : option Request.t * t :=
  match find request_id (_pending self) with
  | None => (None, self)
  | Some req =>
      if negb (Request.to_speaker req =? responder_id) then (None, self)
      else if negb (RequestStatus.eqb (Request.status req) RequestStatus.PENDING)
      then (None, self)
      else
        let req := Request.resolve
                     (if accept then RequestStatus.ACCEPTED else RequestStatus.REFUSED)
                     response_data req in
        (Some req, mk _ (remove request_id (_pending self)) (_resolved self ++ [req])
                      (_next_id self))
  end.

Definition get_pending_for `{Host} (speaker_id : Z) (self : t) : list Request.t :=
  filter (fun r => Request.to_speaker r = speaker_id) (_pending self).

Definition get_pending_from `{Host} (speaker_id : Z) (self : t) : list Request.t :=
  filter (fun r => Request.from_speaker r = speaker_id) (_pending self).

Definition timed_out `{Host} (now : float) (req : Request.t) : bool :=
  match Request.expires_at req with
  | Some e => float_bool e && float_gtb now e
  | None => false
  end.

Definition check_timeouts `{Host} (now : float) (self : t) : list Request.t * t :=
  let expired :=
    map (Request.with_status RequestStatus.EXPIRED)
        (List.filter (timed_out now) (_pending self)) in
  let still_pending := List.filter (fun r => negb (timed_out now r)) (_pending self) in
  (expired, mk _ still_pending (_resolved self ++ expired) (_next_id self)).
End RequestBus.

(** ** Part VIII: the kernel state, and the monad of its operations *)

Record Mary `{Host} := mkMary {
  registry : SpeakerRegistry.t;
  memory : Memory.t;
  ledger : Ledger.t;
  bus : RequestBus.t;
  _expressions : list (Z * Expression.t);
  _next_expr_id : Z;
  _booted : bool;
  root : option Z;
  (** how many times [time.time()] has been read *)
  clock : nat
}.

Definition set_registry `{Host} (x : SpeakerRegistry.t) (m : Mary) : Mary :=
  mkMary _ x (memory m) (ledger m) (bus m) (_expressions m) (_next_expr_id m)
         (_booted m) (root m) (clock m).
Definition set_memory `{Host} (x : Memory.t) (m : Mary) : Mary :=
  mkMary _ (registry m) x (ledger m) (bus m) (_expressions m) (_next_expr_id m)
         (_booted m) (root m) (clock m).
Definition set_ledger `{Host} (x : Ledger.t) (m : Mary) : Mary :=
  mkMary _ (registry m) (memory m) x (bus m) (_expressions m) (_next_expr_id m)
         (_booted m) (root m) (clock m).
Definition set_bus `{Host} (x : RequestBus.t) (m : Mary) : Mary :=
  mkMary _ (registry m) (memory m) (ledger m) x (_expressions m) (_next_expr_id m)
         (_booted m) (root m) (clock m).
Definition set_expressions `{Host} (x : list (Z * Expression.t)) (m : Mary) : Mary :=
  mkMary _ (registry m) (memory m) (ledger m) (bus m) x (_next_expr_id m)
         (_booted m) (root m) (clock m).
Definition set_next_expr_id `{Host} (x : Z) (m : Mary) : Mary :=
  mkMary _ (registry m) (memory m) (ledger m) (bus m) (_expressions m) x
         (_booted m) (root m) (clock m).
Definition set_booted `{Host} (x : bool) (m : Mary) : Mary :=
  mkMary _ (registry m) (memory m) (ledger m) (bus m) (_expressions m)
         (_next_expr_id m) x (root m) (clock m).
Definition set_root `{Host} (x : option Z) (m : Mary) : Mary :=
  mkMary _ (registry m) (memory m) (ledger m) (bus m) (_expressions m)
         (_next_expr_id m) (_booted m) x (clock m).
Definition set_clock `{Host} (x : nat) (m : Mary) : Mary :=
  mkMary _ (registry m) (memory m) (ledger m) (bus m) (_expressions m)
         (_next_expr_id m) (_booted m) (root m) x.

(** The result of a call: a value, or an exception that propagates. *)
Inductive Res (A : Type) : Type :=
| Ok (a : A)
| Exc (msg : string).
Arguments Ok {A} a.
Arguments Exc {A} msg.

Definition M `{Host} (A : Type) : Type := Mary -> Res A * Mary.

Definition ret `{Host} {A : Type} (a : A) : M A := fun m => (Ok a, m).

Definition bind `{Host} {A B : Type} (c : M A) (f : A -> M B) : M B :=
  fun m =>
    match c m with
    | (Ok a, m') => f a m'
    | (Exc e, m') => (Exc e, m')
    end.

Notation "'let!' x ':=' c 'in' k" := (bind c (fun x => k))
  (at level 10, x name, c at level 100, k at level 200, only parsing).
Notation "'let!' ' p ':=' c 'in' k" := (bind c (fun x => match x with p => k end))
  (at level 10, p pattern, c at level 100, k at level 200, only parsing).
Notation "'do!' c 'in' k" := (bind c (fun _ => k))
  (at level 10, c at level 100, k at level 200, only parsing).

Definition raise `{Host} {A : Type} (msg : string) : M A := fun m => (Exc msg, m).

(** [try: ... except Exception] *)
Definition try `{Host} {A : Type} (c : M A) : M (Res A) :=
  fun m => let '(r, m') := c m in (Ok r, m').

Definition gets `{Host} {A : Type} (f : Mary -> A) : M A := fun m => (Ok (f m), m).
Definition modify `{Host} (f : Mary -> Mary) : M unit := fun m => (Ok tt, f m).

(** [time.time()] *)
Definition now `{Host} : M float :=
  fun m => (Ok (time_time (clock m)), set_clock (S (clock m)) m).

(** [self.ledger.append(...)] *)
Definition ledger_append `{Host} (speaker_id : Z) (operation action : string)
    (condition : option string) (condition_result : option bool)
    (status : option Status.t) (state_before state_after : option PyDict)
    (break_reason : option string) : M LedgerEntry.t :=
  let! t := now in
  fun m =>
    let '(entry, l) :=
      Ledger.append t speaker_id operation action condition condition_result
                    status state_before state_after break_reason (ledger m) in
    (Ok entry, set_ledger l m).

Definition authenticate `{Host} (speaker_id : Z) : M bool :=
  gets (fun m => SpeakerRegistry.authenticate speaker_id (registry m)).

(** The truth value of a Python object. *)
Definition truthy `{Host} (v : Value float) : bool :=
  match v with
  | VNone => false
  | VBool b => b
  | VInt n => negb (n =? 0)
  | VFloat x => float_bool x
  | VStr s => negb (String.eqb s "")
  | VStatus _ => true
  | VTuple l => match l with [] => false | _ => true end
  end.

(** [result is not False] *)
Definition is_not_False `{Host} (v : Value float) : bool :=
  match v with
  | VBool false => false
  | _ => true
  end.

Section Kernel.
Context `{Host}.

(** How a callable is called; [run], below, closes the knot. *)
Variable call : Prog -> M (Value float).

(** *** The shared expression objects

    An [Expression] object is registered in [_expressions] under its
    [expression_id] before it is evaluated and is never removed, so the
    mutable fields of the object are those of the table entry. *)
Definition is_current (expression_id : Z) : M bool :=
  gets (fun m =>
          match dict_get expression_id (_expressions m) with
          | Some e => Version.eqb (Expression.version e) Version.CURRENT
          | None => false
          end).

Definition set_version (expression_id : Z) (v : Version.t) : M unit :=
  modify (fun m =>
            set_expressions
              (dict_alter (Expression.with_version v) expression_id (_expressions m)) m).

Definition set_status (expression_id : Z) (s : Status.t) : M unit :=
  modify (fun m =>
            set_expressions
              (dict_alter (Expression.with_status (Some s)) expression_id
                          (_expressions m)) m).

(** ** Part VII: the evaluator *)

(** [expr.scope_until and time.time() > expr.scope_until] *)
Definition scope_passed (expr : Expression.t) : M bool :=
  match Expression.scope_until expr with
  | None => ret false
  | Some scope_until =>
      if float_bool scope_until then
        let! t := now in ret (float_gtb t scope_until)
      else ret false
  end.

Definition evaluate (expr : Expression.t) : M (option Status.t) :=
  let eid := Expression.expression_id expr in
  let speaker_id := Expression.speaker_id expr in
  let action := Expression.action expr in
  let label := Some (Expression.condition_label expr) in
  (* Step 1: Authenticate *)
  let! auth := authenticate speaker_id in
  if negb auth then
    do! ledger_append speaker_id "evaluate" action label None (Some Status.BROKEN)
          None None (Some "speaker_not_found_or_suspended") in
    ret (Some Status.BROKEN)
  else
  (* Check version and scope *)
  let! current := is_current eid in
  if negb current then ret None
  else
  let! passed := scope_passed expr in
  if passed then
    do! set_version eid Version.EXPIRED in
    do! ledger_append speaker_id "expire" action label None None None None None in
    ret None
  else
  (* Step 2: Check condition *)
  let! condition_met :=
    match Expression.condition expr with
    | None => ret true
    | Some condition =>
        let! r := try (call condition) in
        ret (match r with Ok v => truthy v | Exc _ => false end)
    end in
  if negb condition_met then
    do! set_status eid Status.INACTIVE in
    do! ledger_append speaker_id "evaluate" action label (Some false)
          (Some Status.INACTIVE) None None None in
    ret (Some Status.INACTIVE)
  else
  (* Step 3: Execute action *)
  let! result :=
    match Expression.action_fn expr with
    | None => ret (Ok true)
    | Some action_fn =>
        let! r := try (call action_fn) in
        ret (match r with Ok v => Ok (is_not_False v) | Exc e => Exc e end)
    end in
  match result with
  | Exc e =>
      do! set_status eid Status.BROKEN in
      do! ledger_append speaker_id "evaluate" action label (Some true)
            (Some Status.BROKEN) None None (Some e) in
      ret (Some Status.BROKEN)
  | Ok action_fulfilled =>
      (* Handle refusals (inverted check) *)
      let action_fulfilled :=
        if Expression.is_refusal expr then negb action_fulfilled
        else action_fulfilled in
      (* Step 4: Assign status and log *)
      if action_fulfilled then
        do! set_status eid Status.ACTIVE in
        do! ledger_append speaker_id "evaluate" action label (Some true)
              (Some Status.ACTIVE) None None None in
        ret (Some Status.ACTIVE)
      else
        do! set_status eid Status.BROKEN in
        do! ledger_append speaker_id "evaluate" action label (Some true)
              (Some Status.BROKEN) None None (Some "action_not_fulfilled") in
        ret (Some Status.BROKEN)
  end.

(** [expr.loop_max or 10000] *)
Definition max_iter_of (loop_max : option Z) : Z :=
  match loop_max with
  | None => 10000
  | Some n => if n =? 0 then 10000 else n
  end.

(** The [while count < max_iter] of [evaluate_loop]; [remaining] is
    [max_iter - count], which the loop test compares with zero. *)
Section Loop.
Variable expr : Expression.t.
Variable max_iter : Z.

Fixpoint evaluate_loop_from (remaining : nat) (count : Z) : M (Status.t * Z) :=
  let speaker_id := Expression.speaker_id expr in
  let action := Expression.action expr in
  match remaining with
  | O =>
      (* Bound exceeded *)
      do! ledger_append speaker_id "loop_bound_exceeded" action None None
            (Some Status.BROKEN) None (Some [("iterations", VInt count)])
            (Some ("max_iterations_" +:+ int_str max_iter +:+ "_exceeded")) in
      ret (Status.BROKEN, count)
  | S remaining' =>
      (* Check loop condition *)
      let! stop :=
        match Expression.loop_condition expr with
        | None => ret false
        | Some loop_condition =>
            let! v := call loop_condition in ret (negb (truthy v))
        end in
      if stop then
        do! ledger_append speaker_id "loop_end" action None None
              (Some Status.INACTIVE) None (Some [("iterations", VInt count)]) None in
        ret (Status.INACTIVE, count)
      else
      (* Execute one iteration *)
      let! status := evaluate expr in
      let count := count + 1 in
      match status with
      | Some Status.BROKEN => ret (Status.BROKEN, count)
      | Some Status.INACTIVE => ret (Status.INACTIVE, count)
      | _ => evaluate_loop_from remaining' count
      end
  end.
End Loop.

Definition evaluate_loop (expr : Expression.t) : M (Status.t * Z) :=
  let max_iter := max_iter_of (Expression.loop_max expr) in
  evaluate_loop_from expr max_iter (Z.to_nat max_iter) 0.

(** ** Part VIII: Mary, the façade *)

Definition boot : M unit :=
  let! booted := gets _booted in
  if booted then ret tt
  else
  let! t := now in
  let! root := (fun m => let '(sp, r) := SpeakerRegistry.create t "root" (registry m) in
                         (Ok sp, set_registry r m)) in
  do! modify (set_root (Some (Speaker.id root))) in
  do! modify (fun m => set_memory (Memory.create_partition (Speaker.id root) (memory m)) m) in
  do! ledger_append (Speaker.id root) "boot" "mary_initialized" None None
        (Some Status.ACTIVE) None None None in
  modify (set_booted true).

Definition create_speaker (caller_id : Z) (name : string) : M (option Speaker.t) :=
  let! auth := authenticate caller_id in
  if negb auth then
    do! ledger_append caller_id "create_speaker" ("create:" +:+ name) None None
          (Some Status.BROKEN) None None (Some "caller_not_authenticated") in
    ret None
  else
  let! t := now in
  let! speaker := (fun m => let '(sp, r) := SpeakerRegistry.create t name (registry m) in
                            (Ok sp, set_registry r m)) in
  do! modify (fun m => set_memory (Memory.create_partition (Speaker.id speaker) (memory m)) m) in
  do! ledger_append caller_id "create_speaker" ("create:" +:+ name) None None
        (Some Status.ACTIVE) None
        (Some [("new_speaker_id", VInt (Speaker.id speaker)); ("name", VStr name)])
        None in
  ret (Some speaker).

Definition suspend_speaker (caller_id target_id : Z) : M bool :=
  if negb (caller_id =? 0) then
    do! ledger_append caller_id "suspend_speaker" ("suspend:" +:+ int_str target_id)
          None None (Some Status.BROKEN) None None (Some "not_root") in
    ret false
  else
  let! success := (fun m => let '(ok, r) := SpeakerRegistry.suspend target_id (registry m) in
                            (Ok ok, set_registry r m)) in
  do! ledger_append caller_id "suspend_speaker" ("suspend:" +:+ int_str target_id)
        None None (Some (if success then Status.ACTIVE else Status.BROKEN)) None None
        (if success then None else Some "speaker_not_found") in
  ret success.

Definition read (caller_id owner_id : Z) (var_name : string) : M (Value float) :=
  let action := "read:" +:+ int_str owner_id +:+ "." +:+ var_name in
  let! auth := authenticate caller_id in
  if negb auth then
    do! ledger_append caller_id "read" action None None (Some Status.BROKEN)
          None None (Some "caller_not_authenticated") in
    ret VNone
  else
  let! value := gets (fun m => Memory.read owner_id var_name (memory m)) in
  do! ledger_append caller_id "read" action None None (Some Status.ACTIVE) None
        (Some [("value", VStr (py_repr value))]) None in
  ret value.

Definition write (caller_id : Z) (var_name : string) (value : Value float) : M bool :=
  let! auth := authenticate caller_id in
  if negb auth then
    do! ledger_append caller_id "write" ("write:" +:+ var_name) None None
          (Some Status.BROKEN) None None (Some "caller_not_authenticated") in
    ret false
  else
  let! '(success, old_value) :=
    (fun m => let '(r, mem) := Memory.write caller_id var_name value (memory m) in
              (Ok r, set_memory mem m)) in
  do! ledger_append caller_id "write" ("write:" +:+ var_name) None None
        (Some (if success then Status.ACTIVE else Status.BROKEN))
        (Some [("var", VStr var_name); ("old_value", VStr (py_repr old_value))])
        (Some [("var", VStr var_name); ("new_value", VStr (py_repr value))])
        (if success then None else Some "write_failed") in
  ret success.

Definition write_to (caller_id target_id : Z) (var_name : string)
    (value : Value float) : M bool :=
  if negb (caller_id =? target_id) then
    do! ledger_append caller_id "write_violation"
          ("write:" +:+ int_str target_id +:+ "." +:+ var_name) None None
          (Some Status.BROKEN) None None (Some "write_ownership_violation") in
    ret false
  else write caller_id var_name value.

(** The supersession scan of [submit], over the items of [_expressions] in
    their order; it gives the items back with the versions it has set. *)
Fixpoint supersede (new_id speaker_id : Z) (action condition_label : string)
    (items : list (Z * Expression.t)) : M (list (Z * Expression.t)) :=
  match items with
  | [] => ret []
  | (eid, existing) :: rest =>
      if (Expression.speaker_id existing =? speaker_id)
         && String.eqb (Expression.action existing) action
         && String.eqb (Expression.condition_label existing) condition_label
         && Version.eqb (Expression.version existing) Version.CURRENT
      then
        do! ledger_append speaker_id "supersede"
              ("supersede:expr_" +:+ int_str (Expression.expression_id existing))
              None None (Some Status.ACTIVE)
              (Some [("old_expr_id", VInt (Expression.expression_id existing))])
              (Some [("new_expr_id", VInt new_id)]) None in
        let! rest' := supersede new_id speaker_id action condition_label rest in
        ret ((eid, Expression.with_version Version.SUPERSEDED existing) :: rest')
      else
        let! rest' := supersede new_id speaker_id action condition_label rest in
        ret ((eid, existing) :: rest')
  end.

Definition submit (speaker_id : Z) (condition : option Prog) (condition_label : string)
    (action : string) (action_fn : option Prog) (is_refusal : bool)
    (scope_until : option float) : M (option Expression.t) :=
  let! auth := authenticate speaker_id in
  if negb auth then
    do! ledger_append speaker_id "submit" action None None (Some Status.BROKEN)
          None None (Some "speaker_not_authenticated") in
    ret None
  else
  let! next := gets _next_expr_id in
  let! t := now in
  let expr := Expression.mk _ next speaker_id condition condition_label action
                action_fn t Version.CURRENT None scope_until is_refusal None None in
  do! modify (set_next_expr_id (next + 1)) in
  (* Check for supersession *)
  let! items := gets _expressions in
  let! items := supersede (Expression.expression_id expr) speaker_id action
                          condition_label items in
  do! modify (set_expressions (dict_set (Expression.expression_id expr) expr items)) in
  (* Evaluate immediately *)
  let! status := evaluate expr in
  (* return expr: the object, with the fields the evaluation has set *)
  gets (fun m => dict_get (Expression.expression_id expr) (_expressions m)).

Definition submit_loop (speaker_id : Z) (condition : option Prog)
    (condition_label : string) (action : string) (action_fn : option Prog)
    (loop_condition : option Prog) (loop_max : option Z)
    : M (option (Expression.t * Z)) :=
  let! auth := authenticate speaker_id in
  if negb auth then ret None
  else
  let! next := gets _next_expr_id in
  let! t := now in
  let expr := Expression.mk _ next speaker_id condition condition_label action
                action_fn t Version.CURRENT None None false loop_condition loop_max in
  do! modify (set_next_expr_id (next + 1)) in
  do! modify (fun m => set_expressions
                         (dict_set (Expression.expression_id expr) expr (_expressions m)) m) in
  let! '(status, count) := evaluate_loop expr in
  (* return expr, count: the object, with the fields the evaluation has set *)
  let! expr := gets (fun m => dict_get (Expression.expression_id expr) (_expressions m)) in
  ret (match expr with Some expr => Some (expr, count) | None => None end).

Definition expression_status (caller_id expr_id : Z) : M (option Status.t) :=
  let! auth := authenticate caller_id in
  if negb auth then ret None
  else
  let! expr := gets (fun m => dict_get expr_id (_expressions m)) in
  match expr with
  | None => ret None
  | Some expr => ret (Expression.status expr)
  end.

Definition request (caller_id target_id : Z) (action : string) (data : Value float)
    (timeout : option float) : M (option Request.t) :=
  let label := "request:" +:+ int_str target_id +:+ ":" +:+ action in
  let! auth := authenticate caller_id in
  if negb auth then
    do! ledger_append caller_id "request" label None None (Some Status.BROKEN)
          None None (Some "caller_not_authenticated") in
    ret None
  else
  let! auth := authenticate target_id in
  if negb auth then
    do! ledger_append caller_id "request" label None None (Some Status.BROKEN)
          None None (Some "target_not_found") in
    ret None
  else
  let! expires_at :=
    match timeout with
    | None => ret None
    | Some timeout =>
        if float_bool timeout then
          let! t := now in ret (Some (float_add t timeout))
        else ret None
    end in
  let! t := now in
  let! req := (fun m => let '(req, b) :=
                          RequestBus.create_request t caller_id target_id action data
                                                    expires_at (bus m) in
                        (Ok req, set_bus b m)) in
  do! ledger_append caller_id "request" label None None (Some Status.ACTIVE) None
        (Some [("request_id", VInt (Request.request_id req))]) None in
  ret (Some req).

Definition respond (caller_id request_id : Z) (accept : bool)
    (response_data : Value float) : M bool :=
  let! req := gets (fun m => RequestBus.get_request request_id (bus m)) in
  match req with
  | None =>
      do! ledger_append caller_id "respond" ("respond:" +:+ int_str request_id)
            None None (Some Status.BROKEN) None None (Some "request_not_found") in
      ret false
  | Some req =>
      if negb (Request.to_speaker req =? caller_id) then
        do! ledger_append caller_id "respond" ("respond:" +:+ int_str request_id)
              None None (Some Status.BROKEN) None None (Some "not_target_speaker") in
        ret false
      else
      let! result :=
        (fun m => let '(r, b) := RequestBus.respond request_id caller_id accept
                                                    response_data (bus m) in
                  (Ok r, set_bus b m)) in
      do! ledger_append caller_id "respond"
            ("respond:" +:+ int_str request_id +:+ ":" +:+
             (if accept then "accept" else "refuse"))
            None None (Some Status.ACTIVE) None
            (Some [("request_id", VInt request_id); ("accepted", VBool accept)]) None in
      ret (match result with Some _ => true | None => false end)
  end.

Definition pending_requests (caller_id : Z) : M (list Request.t) :=
  let! auth := authenticate caller_id in
  if negb auth then ret []
  else gets (fun m => RequestBus.get_pending_for caller_id (bus m)).

Definition ledger_count (caller_id : Z) : M Z :=
  let! auth := authenticate caller_id in
  if negb auth then ret 0
  else gets (fun m => Ledger.count (ledger m)).

Definition ledger_verify : M bool :=
  gets (fun m => Ledger.verify_integrity (ledger m)).

(** A façade call made by a callable, and the Python value it gets back
    (an object is handed back as its id). *)
Definition exec (c : Call Prog) : M (Value float) :=
  match c with
  | Call_create_speaker caller_id name =>
      let! r := create_speaker caller_id name in
      ret (match r with Some sp => VInt (Speaker.id sp) | None => VNone end)
  | Call_suspend_speaker caller_id target_id =>
      let! r := suspend_speaker caller_id target_id in ret (VBool r)
  | Call_read caller_id owner_id var_name => read caller_id owner_id var_name
  | Call_write caller_id var_name value =>
      let! r := write caller_id var_name value in ret (VBool r)
  | Call_write_to caller_id target_id var_name value =>
      let! r := write_to caller_id target_id var_name value in ret (VBool r)
  | Call_submit speaker_id condition condition_label action action_fn is_refusal
                scope_until =>
      let! r := submit speaker_id condition condition_label action action_fn
                       is_refusal scope_until in
      ret (match r with
           | Some e => VInt (Expression.expression_id e)
           | None => VNone
           end)
  | Call_submit_loop speaker_id condition condition_label action action_fn
                     loop_condition loop_max =>
      let! r := submit_loop speaker_id condition condition_label action action_fn
                            loop_condition loop_max in
      ret (match r with
           | Some (e, count) => VTuple [VInt (Expression.expression_id e); VInt count]
           | None => VNone
           end)
  | Call_expression_status caller_id expr_id =>
      let! r := expression_status caller_id expr_id in
      ret (match r with Some s => VStatus s | None => VNone end)
  | Call_request caller_id target_id action data timeout =>
      let! r := request caller_id target_id action data timeout in
      ret (match r with Some q => VInt (Request.request_id q) | None => VNone end)
  | Call_respond caller_id request_id accept response_data =>
      let! r := respond caller_id request_id accept response_data in ret (VBool r)
  | Call_ledger_count caller_id =>
      let! r := ledger_count caller_id in ret (VInt r)
  | Call_ledger_verify =>
      let! r := ledger_verify in ret (VBool r)
  end.

End Kernel.

(** Calling a callable: its kernel calls are executed in order, their own
    callables being called in turn. *)
Fixpoint run `{Host} (p : Prog) {struct p} : M (Value float) :=
  match p with
  | Ret v => ret v
  | Raise msg => raise msg
  | Bind c k => bind (exec run c) (fun v => run (k v))
  end.

(** [Mary()]: the fresh components, then [boot]. *)
Definition Mary_blank `{Host} : Mary :=
  mkMary _ SpeakerRegistry.init Memory.init Ledger.init RequestBus.init [] 0 false None 0.

Definition Mary_new `{Host} : Mary := snd (boot Mary_blank).

(** ** Part VIII, continued: the queries of the façade

    They read the state and log nothing. *)

Definition get_expression `{Host} (expr_id : Z) : M (option Expression.t) :=
  gets (fun m => dict_get expr_id (_expressions m)).

Definition ledger_read `{Host} (caller_id from_id : Z) (to_id : option Z)
    : M (list LedgerEntry.t) :=
  let! auth := authenticate caller_id in
  if negb auth then ret []
  else gets (fun m => Ledger.read from_id to_id (ledger m)).

Definition ledger_search `{Host} `{!FloatOrder} (caller_id : Z) (speaker_id : option Z)
    (operation action : option string) (from_time to_time : option float)
    : M (list LedgerEntry.t) :=
  let! auth := authenticate caller_id in
  if negb auth then ret []
  else gets (fun m => Ledger.search speaker_id operation action from_time to_time (ledger m)).

(** The dict that [inspect_variable] returns, and the dicts of its
    ["history"]. *)
Module HistoryItem.
Record t `{Host} := mk {
  entry_id : Z;
  before : option PyDict;
  after : option PyDict;
  timestamp : float
}.
End HistoryItem.

Module VariableReport.
Record t `{Host} := mk {
  owner : Z;
  variable : string;
  current_value : Value float;
  history : list HistoryItem.t
}.
End VariableReport.

Definition inspect_variable `{Host} `{!FloatOrder} (caller_id owner_id : Z)
    (var_name : string) : M (option VariableReport.t) :=
  let! auth := authenticate caller_id in
  if negb auth then ret None
  else
  let! current := gets (fun m => Memory.read owner_id var_name (memory m)) in
  let! history :=
    gets (fun m => Ledger.search (Some owner_id) None (Some ("write:" +:+ var_name))
                                 None None (ledger m)) in
  ret (Some (VariableReport.mk _ owner_id var_name current
               (map (fun e => HistoryItem.mk _ (LedgerEntry.entry_id e)
                                (LedgerEntry.state_before e) (LedgerEntry.state_after e)
                                (LedgerEntry.timestamp e))
                    history))).

(** [state]: the snapshot, a dict. *)
Definition state `{Host} : M PyDict :=
  gets (fun m =>
          [ ("speakers", VInt (Z.of_nat (size (SpeakerRegistry._speakers (registry m)))));
            ("ledger_entries", VInt (Ledger.count (ledger m)));
            ("ledger_integrity", VBool (Ledger.verify_integrity (ledger m)));
            ("expressions", VInt (Z.of_nat (length (_expressions m))));
            ("pending_requests", VInt (Z.of_nat (length (RequestBus._pending (bus m))))) ]).

(** ** A host for running the kernel on examples

    Floats with an integral value, written as their integer: [str] and
    [repr] of such a float are the integer followed by [.0].  The clock
    advances by one second at each reading.  [repr] is exact on [None],
    booleans, integers, these floats, statuses, and on strings of printable
    ASCII characters without quote or backslash. *)
Module WholeSeconds.
Definition str_float (x : Z) : string := int_str x +:+ ".0".

Definition status_repr (s : Status.t) : string :=
  match s with
  | Status.ACTIVE => "<Status.ACTIVE: 'active'>"
  | Status.INACTIVE => "<Status.INACTIVE: 'inactive'>"
  | Status.BROKEN => "<Status.BROKEN: 'broken'>"
  end.

Fixpoint repr (v : Value Z) : string :=
  match v with
  | VNone => "None"
  | VBool b => if b then "True" else "False"
  | VInt n => int_str n
  | VFloat x => str_float x
  | VStr s => "'" +:+ s +:+ "'"
  | VStatus s => status_repr s
  | VTuple l =>
      match l with
      | [] => "()"
      | [x] => "(" +:+ repr x +:+ ",)"
      | x :: rest =>
          "(" +:+ repr x +:+
          fold_right (fun y acc => ", " +:+ repr y +:+ acc) ")" rest
      end
  end.

Definition host : Host :=
  {| float := Z;
     float_str := str_float;
     float_gtb := Z.gtb;
     float_bool := fun x => negb (x =? 0);
     float_add := Z.add;
     time_time := fun n => Z.of_nat n + 1771500000;
     py_repr := repr |}.

Definition order : @FloatOrder host :=
  @Build_FloatOrder host (fun x y : Z => y <=? x) (fun x y : Z => x <=? y).
End WholeSeconds.

(** ** Ledgers built by the kernel, and ledgers tampered with *)

(** The ledgers that [Ledger()] and [append] produce. *)
Inductive ledger_reachable `{Host} : Ledger.t -> Prop :=
| reachable_init : ledger_reachable Ledger.init
| reachable_append (self : Ledger.t) (t : float) (speaker_id : Z)
    (operation action : string) (condition : option string)
    (condition_result : option bool) (status : option Status.t)
    (state_before state_after : option PyDict) (break_reason : option string) :
    ledger_reachable self ->
    ledger_reachable
      (snd (Ledger.append t speaker_id operation action condition condition_result
                          status state_before state_after break_reason self)).

(** An assignment to one field of a ledger entry. *)
Inductive FieldEdit `{Host} : Type :=
| Set_entry_id (v : Z)
| Set_speaker_id (v : Z)
| Set_operation (v : string)
| Set_condition (v : option string)
| Set_condition_result (v : option bool)
| Set_action (v : string)
| Set_status (v : option Status.t)
| Set_state_before (v : option PyDict)
| Set_state_after (v : option PyDict)
| Set_timestamp (v : float)
| Set_prev_hash (v : string)
| Set_entry_hash (v : string)
| Set_break_reason (v : option string).

Definition assign `{Host} (ed : FieldEdit) (e : LedgerEntry.t) : LedgerEntry.t :=
  let '(LedgerEntry.mk _ i sp op c cr a st sb sa t ph eh br) := e in
  match ed with
  | Set_entry_id v => LedgerEntry.mk _ v sp op c cr a st sb sa t ph eh br
  | Set_speaker_id v => LedgerEntry.mk _ i v op c cr a st sb sa t ph eh br
  | Set_operation v => LedgerEntry.mk _ i sp v c cr a st sb sa t ph eh br
  | Set_condition v => LedgerEntry.mk _ i sp op v cr a st sb sa t ph eh br
  | Set_condition_result v => LedgerEntry.mk _ i sp op c v a st sb sa t ph eh br
  | Set_action v => LedgerEntry.mk _ i sp op c cr v st sb sa t ph eh br
  | Set_status v => LedgerEntry.mk _ i sp op c cr a v sb sa t ph eh br
  | Set_state_before v => LedgerEntry.mk _ i sp op c cr a st v sa t ph eh br
  | Set_state_after v => LedgerEntry.mk _ i sp op c cr a st sb v t ph eh br
  | Set_timestamp v => LedgerEntry.mk _ i sp op c cr a st sb sa v ph eh br
  | Set_prev_hash v => LedgerEntry.mk _ i sp op c cr a st sb sa t v eh br
  | Set_entry_hash v => LedgerEntry.mk _ i sp op c cr a st sb sa t ph v br
  | Set_break_reason v => LedgerEntry.mk _ i sp op c cr a st sb sa t ph eh v
  end.

(** The ledger after the field of its [i]-th entry has been assigned. *)
Definition tamper `{Host} (i : nat) (ed : FieldEdit) (self : Ledger.t) : Ledger.t :=
  Ledger.mk _ (alter (assign ed) i (Ledger._entries self)) (Ledger._last_hash self).

(** How [verify_integrity] sees a field: not at all, through the chain
    ([prev_hash], [entry_hash]), or through the digest. *)
Inductive Coverage := Unhashed | Chained | Hashed.

Definition coverage `{Host} (ed : FieldEdit) : Coverage :=
  match ed with
  | Set_condition _ | Set_condition_result _ | Set_status _ | Set_state_before _
  | Set_state_after _ | Set_break_reason _ => Unhashed
  | Set_prev_hash _ | Set_entry_hash _ => Chained
  | Set_entry_id _ | Set_speaker_id _ | Set_operation _ | Set_action _
  | Set_timestamp _ => Hashed
  end.

(** ** helena.py: worlds

    The world operations of Helena over the kernel.  Her block list and her
    subscriptions, which no world operation reads, are left out. *)

Module WorldPermissions.
Record t := mk {
  read : bool;
  write : bool;
  submit : bool;
  request : bool;
  invite : bool;
  configure : bool
}.
(** [WorldPermissions()] *)
Definition default : t := mk true true true true false false.
(** [getattr(perms, permission, False)] *)
Definition get (permission : string) (perms : t) : bool :=
  if String.eqb permission "read" then read perms
  else if String.eqb permission "write" then write perms
  else if String.eqb permission "submit" then submit perms
  else if String.eqb permission "request" then request perms
  else if String.eqb permission "invite" then invite perms
  else if String.eqb permission "configure" then configure perms
  else false.
End WorldPermissions.

Module WorldStatus.
Definition OPEN : string := "open".
Definition CLOSED : string := "closed".
Definition ARCHIVED : string := "archived".
End WorldStatus.

Module WorldMember.
Record t `{Host} := mk {
  speaker_id : Z;
  permissions : WorldPermissions.t;
  joined_at : float;
  role : string
}.
End WorldMember.

Module World.
Record t `{Host} := mk {
  world_id : string;
  name : string;
  creator_id : Z;
  created_at : float;
  status : string;
  members : gmap Z WorldMember.t;
  namespace : string
}.
Definition with_members `{Host} (x : gmap Z WorldMember.t) (self : t) : t :=
  mk _ (world_id self) (name self) (creator_id self) (created_at self) (status self) x
     (namespace self).
Definition with_status `{Host} (x : string) (self : t) : t :=
  mk _ (world_id self) (name self) (creator_id self) (created_at self) x (members self)
     (namespace self).
Definition is_member `{Host} (speaker_id : Z) (self : t) : bool :=
  match members self !! speaker_id with Some _ => true | None => false end.
Definition get_permissions `{Host} (speaker_id : Z) (self : t) : option WorldPermissions.t :=
  match members self !! speaker_id with
  | Some member => Some (WorldMember.permissions member)
  | None => None
  end.
Definition can `{Host} (speaker_id : Z) (permission : string) (self : t) : bool :=
  match get_permissions speaker_id self with
  | None => false
  | Some perms => WorldPermissions.get permission perms
  end.
End World.

Module Helena.
Record t `{Host} := mk {
  mary : Mary;
  (** Helena's own speaker *)
  speaker : Speaker.t;
  _worlds : gmap string World.t;
  _next_world_id : Z
}.

Definition set_mary `{Host} (x : Mary) (self : t) : t :=
  mk _ x (speaker self) (_worlds self) (_next_world_id self).
Definition set_worlds `{Host} (x : gmap string World.t) (self : t) : t :=
  mk _ (mary self) (speaker self) x (_next_world_id self).

(** A call of the kernel, [self.mary....]; the calls made here never raise
    ([failed] stands for a result that cannot occur). *)
Definition on_mary `{Host} {A : Type} (failed : A) (c : M A) (self : t) : A * t :=
  match c (mary self) with
  | (Ok a, m) => (a, set_mary m self)
  | (Exc _, m) => (failed, set_mary m self)
  end.

(** [lambda: True] *)
Definition always_true `{Host} : option Prog := Some (Ret (VBool true)).

(** [self.mary.submit(speaker_id, condition_label, action, action_fn=lambda: True)] *)
Definition log `{Host} (speaker_id : Z) (condition_label action : string) (self : t) : t :=
  snd (on_mary None (submit run speaker_id None condition_label action always_true false None)
               self).

(** [Helena()]: the kernel boots, root creates Helena's speaker, and Helena
    writes her two boot variables. *)
Definition new `{Host} : option t :=
  match create_speaker 0 "helena" Mary_new with
  | (Ok (Some sp), m) =>
      let self := mk _ m sp ∅ 0 in
      let self := snd (on_mary false (write (Speaker.id sp) "system.status" (VStr "booted")) self) in
      let '(t, self) := on_mary (time_time 0) now self in
      Some (snd (on_mary false (write (Speaker.id sp) "system.boot_time" (VFloat t)) self))
  | _ => None
  end.

Definition create_speaker `{Host} (name : string) (self : t) : Z * t :=
  match on_mary None (create_speaker (Speaker.id (speaker self)) name) self with
  | (Some sp, self) =>
      let self := snd (on_mary false (write (Speaker.id sp) "profile.name" (VStr name)) self) in
      let '(t, self) := on_mary (time_time 0) now self in
      let self := snd (on_mary false (write (Speaker.id sp) "profile.created_at" (VFloat t))
                               self) in
      (Speaker.id sp, self)
  | (None, self) => (-1, self)
  end.

Definition create_world `{Host} (creator_id : Z) (name : string) (self : t)
    : option string * t :=
  if negb (SpeakerRegistry.authenticate creator_id (registry (mary self))) then (None, self)
  else
    let world_id := "world_" +:+ int_str (_next_world_id self) in
    let self := mk _ (mary self) (speaker self) (_worlds self) (_next_world_id self + 1) in
    let '(t, self) := on_mary (time_time 0) now self in
    let world := World.mk _ world_id name creator_id t WorldStatus.OPEN ∅ world_id in
    (* Creator gets full permissions *)
    let creator_perms := WorldPermissions.mk true true true true true true in
    let '(t, self) := on_mary (time_time 0) now self in
    let world := World.with_members
                   (<[creator_id := WorldMember.mk _ creator_id creator_perms t "creator"]>
                      (World.members world)) world in
    let self := set_worlds (<[world_id := world]> (_worlds self)) self in
    (* Log in mary *)
    let hid := Speaker.id (speaker self) in
    let self := snd (on_mary false (write hid ("worlds." +:+ world_id +:+ ".name")
                                          (VStr name)) self) in
    let self := snd (on_mary false (write hid ("worlds." +:+ world_id +:+ ".creator")
                                          (VInt creator_id)) self) in
    let self := snd (on_mary false (write hid ("worlds." +:+ world_id +:+ ".status")
                                          (VStr WorldStatus.OPEN)) self) in
    let self := log creator_id "⊤" ("create_world:" +:+ world_id +:+ ":" +:+ name) self in
    (Some world_id, self).

Definition join_world `{Host} (speaker_id : Z) (world_id : string)
    (permissions : option WorldPermissions.t) (self : t) : bool * t :=
  match _worlds self !! world_id with
  | None => (false, self)
  | Some world =>
      if negb (String.eqb (World.status world) WorldStatus.OPEN) then (false, self)
      else if negb (SpeakerRegistry.authenticate speaker_id (registry (mary self)))
      then (false, self)
      else
        let permissions := default WorldPermissions.default permissions in
        let '(t, self) := on_mary (time_time 0) now self in
        let world := World.with_members
                       (<[speaker_id := WorldMember.mk _ speaker_id permissions t "member"]>
                          (World.members world)) world in
        let self := set_worlds (<[world_id := world]> (_worlds self)) self in
        let self := log speaker_id ("invited_to:" +:+ world_id)
                        ("join_world:" +:+ world_id) self in
        (true, self)
  end.

Definition invite_to_world `{Host} (inviter_id target_id : Z) (world_id : string)
    (permissions : option WorldPermissions.t) (self : t) : bool * t :=
  match _worlds self !! world_id with
  | None => (false, self)
  | Some world =>
      if negb (World.can inviter_id "invite" world) then (false, self)
      else if negb (SpeakerRegistry.authenticate target_id (registry (mary self)))
      then (false, self)
      else
        (* Log the invitation *)
        let self := log inviter_id "⊤"
                        ("invite:" +:+ int_str target_id +:+ ":to:" +:+ world_id) self in
        join_world target_id world_id permissions self
  end.

Definition leave_world `{Host} (speaker_id : Z) (world_id : string) (self : t) : bool * t :=
  match _worlds self !! world_id with
  | None => (false, self)
  | Some world =>
      if negb (World.is_member speaker_id world) then (false, self)
      else
        let world := World.with_members (delete speaker_id (World.members world)) world in
        let self := set_worlds (<[world_id := world]> (_worlds self)) self in
        let self := log speaker_id "⊤" ("leave_world:" +:+ world_id) self in
        (true, self)
  end.

Definition archive_world `{Host} (caller_id : Z) (world_id : string) (self : t) : bool * t :=
  match _worlds self !! world_id with
  | None => (false, self)
  | Some world =>
      if negb (World.creator_id world =? caller_id) then (false, self)
      else
        let world := World.with_status WorldStatus.ARCHIVED world in
        let self := set_worlds (<[world_id := world]> (_worlds self)) self in
        let self := snd (on_mary false
                           (write (Speaker.id (speaker self))
                                  ("worlds." +:+ world_id +:+ ".status")
                                  (VStr WorldStatus.ARCHIVED)) self) in
        let self := log caller_id "⊤" ("archive_world:" +:+ world_id) self in
        (true, self)
  end.

Definition world_write `{Host} (speaker_id : Z) (world_id var_name : string)
    (value : Value float) (self : t) : bool * t :=
  match _worlds self !! world_id with
  | None => (false, self)
  | Some world =>
      if negb (World.can speaker_id "write" world) then (false, self)
      else if String.eqb (World.status world) WorldStatus.ARCHIVED then (false, self)
      else
        (* Namespace the variable *)
        let full_var := world_id +:+ "." +:+ int_str speaker_id +:+ "." +:+ var_name in
        on_mary false (write speaker_id full_var value) self
  end.

Definition world_read `{Host} (caller_id : Z) (world_id : string) (owner_id : Z)
    (var_name : string) (self : t) : Value float * t :=
  match _worlds self !! world_id with
  | None => (VNone, self)
  | Some world =>
      if negb (World.can caller_id "read" world) then (VNone, self)
      else
        let full_var := world_id +:+ "." +:+ int_str owner_id +:+ "." +:+ var_name in
        on_mary VNone (read caller_id owner_id full_var) self
  end.

Definition world_request `{Host} (caller_id target_id : Z) (world_id action : string)
    (data : Value float) (self : t) : option Z * t :=
  match _worlds self !! world_id with
  | None => (None, self)
  | Some world =>
      if negb (World.can caller_id "request" world) then (None, self)
      else if negb (World.is_member target_id world) then (None, self)
      else
        let '(req, self) :=
          on_mary None (request caller_id target_id (world_id +:+ ":" +:+ action) data None)
                  self in
        (match req with Some req => Some (Request.request_id req) | None => None end, self)
  end.

Definition get_world `{Host} (world_id : string) (self : t) : option World.t :=
  _worlds self !! world_id.

(** Files are variables of a world, under the prefix [file.]. *)
Definition create_file `{Host} (speaker_id : Z) (world_id filename : string)
    (content : Value float) (self : t) : bool * t :=
  world_write speaker_id world_id ("file." +:+ filename) content self.

Definition read_file `{Host} (caller_id : Z) (world_id : string) (owner_id : Z)
    (filename : string) (self : t) : Value float * t :=
  world_read caller_id world_id owner_id ("file." +:+ filename) self.

Definition update_file `{Host} (speaker_id : Z) (world_id filename : string)
    (content : Value float) (self : t) : bool * t :=
  world_write speaker_id world_id ("file." +:+ filename) content self.
End Helena.

(** ** logica/runtime.py: the loop handler

    The environment of the runtime, and [_op_loop].  The evaluation of an
    expression tree and the execution of a statement of the body are the
    runtime's [_eval_expr] and [_execute_statement]; the handler is modelled
    over them, and over [int]. *)
Module Runtime.
Section Runtime.
Context `{Host}.
Variables Ast Stmt : Type.

Record Environment := mkEnvironment {
  mary : Mary;
  speaker_ids : list (string * Z);
  current_speaker : option string;
  (** the id of the active speaker, set by [as] for a declared speaker *)
  current_speaker_id : Z;
  functions : list (string * (list string * list Stmt));
  local_scopes : list (list (string * Value float));
  sealed : list string;
  output : list string;
  return_value : Value float;
  returning : bool
}.

Definition set_mary (x : Mary) (env : Environment) : Environment :=
  mkEnvironment x (speaker_ids env) (current_speaker env) (current_speaker_id env)
                (functions env) (local_scopes env) (sealed env) (output env)
                (return_value env) (returning env).

Definition RM (A : Type) : Type := Environment -> Res A * Environment.

Definition rret {A : Type} (a : A) : RM A := fun env => (Ok a, env).

Definition rbind {A B : Type} (c : RM A) (f : A -> RM B) : RM B :=
  fun env =>
    match c env with
    | (Ok a, env') => f a env'
    | (Exc e, env') => (Exc e, env')
    end.

Definition rraise {A : Type} (msg : string) : RM A := fun env => (Exc msg, env).

(** A call of the kernel, [self.env.mary....]. *)
Definition on_mary {A : Type} (c : M A) : RM A :=
  fun env => let '(r, m) := c (mary env) in (r, set_mary m env).

Variable _eval_expr : Ast -> RM (Value float).
Variable _execute_statement : Stmt -> RM unit.
Variable py_int : Value float -> Res Z.

(** [RuntimeError_(message, speaker)] as its text. *)
Definition RuntimeError_ (message : string) (speaker : option string) : string :=
  let who := match speaker with
             | None => ""
             | Some s => if String.eqb s "" then "" else " [" +:+ s +:+ "]"
             end in
  "Broken" +:+ who +:+ ": " +:+ message.

(** [for stmt in body: if self.env.returning: return ...]; the result tells
    whether the handler returns. *)
Fixpoint loop_body (body : list Stmt) : RM bool :=
  match body with
  | [] => rret false
  | stmt :: rest =>
      fun env =>
        if returning env then (Ok true, env)
        else rbind (_execute_statement stmt) (fun _ => loop_body rest) env
  end.

(** [while count < max_iter]; [remaining] is [max_iter - count]. *)
Fixpoint loop_from (condition_ast : Ast) (body : list Stmt) (max_iter : Z) (sid : Z)
    (remaining : nat) (count : Z) : RM unit :=
  match remaining with
  | O =>
      (* Bound exceeded: broken *)
      rbind (on_mary (submit run sid (Some (Ret (VBool true))) "loop:bound_exceeded"
                             ("loop:max=" +:+ int_str max_iter)
                             (Some (Ret (VBool false))) false None))
            (fun _ env =>
               rraise (RuntimeError_ ("loop exceeded max " +:+ int_str max_iter
                                      +:+ " iterations") (current_speaker env)) env)
  | S remaining' =>
      rbind (_eval_expr condition_ast) (fun condition_result =>
        if negb (truthy condition_result) then
          (* Condition unmet: loop ends (inactive) *)
          rbind (on_mary (submit run sid (Some (Ret (VBool false))) "loop:terminated"
                                 ("loop:iterations=" +:+ int_str count) None false None))
                (fun _ => rret tt)
        else
          rbind (loop_body body) (fun returned =>
            if returned then rret tt
            else loop_from condition_ast body max_iter sid remaining' (count + 1)))
  end.

Definition _op_loop (condition_ast : Ast) (body : list Stmt) (max_ast : option Ast)
    : RM unit :=
  rbind (match max_ast with
         | None => rret 10000
         | Some max_ast =>
             rbind (_eval_expr max_ast) (fun v env =>
               match py_int v with
               | Ok n => (Ok n, env)
               | Exc e => (Exc e, env)
               end)
         end)
        (fun max_iter env =>
           loop_from condition_ast body max_iter (current_speaker_id env)
                     (Z.to_nat max_iter) 0 env).

End Runtime.
End Runtime.

(** ** Programs of calls, supersession, break reasons *)

(** The callables handed to the kernel by a call. *)
Definition callables `{Host} (c : Call Prog) : list Prog :=
  match c with
  | Call_submit _ condition _ _ action_fn _ _ =>
      option_list condition ++ option_list action_fn
  | Call_submit_loop _ condition _ _ action_fn loop_condition _ =>
      option_list condition ++ option_list action_fn ++ option_list loop_condition
  | _ => []
  end.

(** Programs all of whose kernel calls, those of their callables included,
    satisfy [allowed]. *)
Fixpoint calls_only `{Host} (allowed : Call Prog -> Prop) (p : Prog) : Prop :=
  match p with
  | Ret _ | Raise _ => True
  | Bind c k =>
      allowed c
      /\ match c with
         | Call_submit _ condition _ _ action_fn _ _ =>
             match condition with Some q => calls_only allowed q | None => True end
             /\ match action_fn with Some q => calls_only allowed q | None => True end
         | Call_submit_loop _ condition _ _ action_fn loop_condition _ =>
             match condition with Some q => calls_only allowed q | None => True end
             /\ match action_fn with Some q => calls_only allowed q | None => True end
             /\ match loop_condition with Some q => calls_only allowed q | None => True end
         | _ => True
         end
      /\ forall v, calls_only allowed (k v)
  end.

(** The supersession test of [submit]. *)
Definition supersedes `{Host} (speaker_id : Z) (action condition_label : string)
    (existing : Expression.t) : bool :=
  (Expression.speaker_id existing =? speaker_id)
  && String.eqb (Expression.action existing) action
  && String.eqb (Expression.condition_label existing) condition_label
  && Version.eqb (Expression.version existing) Version.CURRENT.

(** The table after the supersession scan. *)
Definition superseded `{Host} (speaker_id : Z) (action condition_label : string)
    (items : list (Z * Expression.t)) : list (Z * Expression.t) :=
  map (fun kv => if supersedes speaker_id action condition_label (snd kv)
                 then (fst kv, Expression.with_version Version.SUPERSEDED (snd kv))
                 else kv) items.

(** The break reasons that the kernel itself writes. *)
Definition fixed_reasons : list string :=
  [ "speaker_not_found_or_suspended"; "caller_not_authenticated";
    "speaker_not_authenticated"; "target_not_found"; "request_not_found";
    "not_target_speaker"; "not_root"; "speaker_not_found";
    "write_ownership_violation"; "write_failed"; "action_not_fulfilled" ].

Definition kernel_reason (r : string) : Prop :=
  In r fixed_reasons
  \/ exists n : Z, r = "max_iterations_" +:+ int_str n +:+ "_exceeded".

(** What holds of the arguments at every [ledger.append] of the kernel: a
    broken entry carries a reason of the kernel, or it is the [evaluate]
    entry of an action that raised and carries the text of the exception. *)
Definition site_ok (operation : string) (condition_result : option bool)
    (status : option Status.t) (break_reason : option string) : Prop :=
  status = Some Status.BROKEN ->
  exists r, break_reason = Some r
            /\ (kernel_reason r
                \/ (operation = "evaluate" /\ condition_result = Some true)).

#[global] Instance Version_eq_dec : EqDecision Version.t.
Proof. solve_decision. Defined.

(** ** Versions within a class

    What supersession and expiry see of the table: for each entry its key,
    its class and its version. *)
Section VersionItems.
Context {C : Type} `{EqDecision C}.
Local Abbreviation item := (Z * (C * Version.t))%type.
Implicit Types (l : list item) (x y : item) (cls : C) (n : Z).

Definition is_current_of cls x : Prop := x.2 = (cls, Version.CURRENT).

#[global] Instance is_current_of_dec cls x : Decision (is_current_of cls x).
Proof. unfold is_current_of. apply _. Defined.

Definition cur cls l : nat := length (filter (is_current_of cls) l).

Definition v_expire (eid : Z) : list item -> list item :=
  fix go l :=
    match l with
    | [] => []
    | x :: r => if x.1 =? eid then (x.1, (x.2.1, Version.EXPIRED)) :: r else x :: go r
    end.

Definition v_supersede cls l : list item :=
  map (fun x => if decide (is_current_of cls x) then (x.1, (cls, Version.SUPERSEDED)) else x) l.

Definition InvV l n : Prop :=
  (forall x, x ∈ l -> x.1 < n)
  /\ (forall cls, (cur cls l <= 1)%nat)
  /\ (forall x, x ∈ l -> x.2.2 = Version.SUPERSEDED ->
                cur x.2.1 l = 1%nat \/ exists y, y ∈ l /\ y.2 = (x.2.1, Version.EXPIRED)).

End VersionItems.

(** ** Predicates used in the statements *)

(** What a refused call leaves behind: one more ledger entry, broken, with
    the given reason, and nothing else changed but the clock. *)
Definition logs_broken `{Host} (m m' : Mary) (caller : Z) (operation reason : string) : Prop :=
  exists e,
    Ledger._entries (ledger m') = Ledger._entries (ledger m) ++ [e]
    /\ LedgerEntry.speaker_id e = caller
    /\ LedgerEntry.operation e = operation
    /\ LedgerEntry.status e = Some Status.BROKEN
    /\ LedgerEntry.break_reason e = Some reason
    /\ registry m' = registry m /\ memory m' = memory m /\ bus m' = bus m
    /\ _expressions m' = _expressions m /\ _next_expr_id m' = _next_expr_id m.


(** The registered keys only grow. *)
Definition keeps_keys `{Host} (x y : list (Z * Expression.t) * Z) : Prop :=
  forall k, is_Some (dict_get k (fst x)) -> is_Some (dict_get k (fst y)).

(** The break reasons of the specification's closed set. *)
Definition claimed_reasons : list string :=
  [ "speaker_not_found_or_suspended"; "caller_not_authenticated"; "target_not_found";
    "request_not_found"; "not_target_speaker"; "not_root";
    "write_ownership_violation"; "write_failed"; "action_not_fulfilled" ].

Definition claimed_reason (r : string) : Prop :=
  In r claimed_reasons
  \/ exists n : Z, r = "max_iterations_" +:+ int_str n +:+ "_exceeded".

(** An entry whose break reason, if it is broken, is accounted for. *)
Definition well_reasoned `{Host} (e : LedgerEntry.t) : Prop :=
  site_ok (LedgerEntry.operation e) (LedgerEntry.condition_result e)
          (LedgerEntry.status e) (LedgerEntry.break_reason e).

Definition ledger_extends `{Host} (L L' : Ledger.t) : Prop :=
  exists l, Ledger._entries L' = Ledger._entries L ++ l /\ Forall well_reasoned l.

(** The states of the kernel: a fresh kernel, then any programs of façade
    calls drawn from [allowed]. *)
Inductive reachable `{Host} (allowed : Call Prog -> Prop) : Mary -> Prop :=
| reachable_new : reachable allowed Mary_new
| reachable_run (m : Mary) (p : Prog) :
    reachable allowed m -> calls_only allowed p -> reachable allowed (snd (run p m)).

(** The supersession class of an expression. *)
Definition class_of `{Host} (e : Expression.t) : Z * string * string :=
  (Expression.speaker_id e, Expression.condition_label e, Expression.action e).

(** The current expressions of a class. *)
Definition currents `{Host} (cls : Z * string * string) (d : list (Z * Expression.t))
    : list (Z * Expression.t) :=
  filter (fun kv => class_of kv.2 = cls /\ Expression.version kv.2 = Version.CURRENT) d.

Definition view `{Host} (d : list (Z * Expression.t))
    : list (Z * ((Z * string * string) * Version.t)) :=
  map (fun kv => (kv.1, (class_of kv.2, Expression.version kv.2))) d.

Definition versions_consistent `{Host} (x : list (Z * Expression.t) * Z) : Prop :=
  InvV (view x.1) x.2.

Definition no_submit_loop `{Host} (c : Call Prog) : Prop :=
  match c with
  | Call_submit_loop _ _ _ _ _ _ _ => False
  | _ => True
  end.

(** A lower-case hexadecimal digit, and the strings made of characters that
    meet a test. *)
Definition hex_char (c : ascii) : bool :=
  existsb (Ascii.eqb c) (list_ascii_of_string "0123456789abcdef").

Fixpoint string_forallb (f : ascii -> bool) (s : string) : bool :=
  match s with
  | EmptyString => true
  | String c s' => f c && string_forallb f s'
  end.

(** ** Predicates used in the proofs *)

(** The hash that ends a chain of entries starting after [g]. *)
Fixpoint chain_end `{Host} (g : string) (entries : list LedgerEntry.t) : string :=
  match entries with
  | [] => g
  | e :: rest => chain_end (LedgerEntry.entry_hash e) rest
  end.

(** Two states related through their ledgers and through their expression
    tables (with the next identifier), and the calls whose final state is
    so related to their initial state, whatever that is. *)
Definition related `{Host} (RL : Ledger.t -> Ledger.t -> Prop)
    (RE : list (Z * Expression.t) * Z -> list (Z * Expression.t) * Z -> Prop)
    (m m' : Mary) : Prop :=
  RL (ledger m) (ledger m')
  /\ RE (_expressions m, _next_expr_id m) (_expressions m', _next_expr_id m').

Definition preserves `{Host} (RL : Ledger.t -> Ledger.t -> Prop)
    (RE : list (Z * Expression.t) * Z -> list (Z * Expression.t) * Z -> Prop)
    {A : Type} (c : M A) : Prop :=
  forall m, related RL RE m (snd (c m)).

(** The kernel calls that never raise. *)
Definition total `{Host} {A : Type} (c : M A) : Prop :=
  forall m, exists a m', c m = (Ok a, m').

(** The entries that the supersession scan of [submit] logs. *)
Definition is_supersede `{Host} (e : LedgerEntry.t) : Prop :=
  LedgerEntry.operation e = "supersede" /\ LedgerEntry.status e = Some Status.ACTIVE.

(** ** Well-formed kernel states

    Every speaker is registered under its own id, below the next id; the
    partitions are those of the speakers; the pending requests are pending
    and the resolved ones are not, and no two requests share an id. *)
Definition wf_registry `{Host} (r : SpeakerRegistry.t) : Prop :=
  (forall k sp, SpeakerRegistry._speakers r !! k = Some sp ->
                Speaker.id sp = k /\ 0 <= k < SpeakerRegistry._next_id r)
  /\ Z.of_nat (size (SpeakerRegistry._speakers r)) = SpeakerRegistry._next_id r.

Definition wf_memory `{Host} (r : SpeakerRegistry.t) (mem : Memory.t) : Prop :=
  forall k, is_Some (Memory._partitions mem !! k)
            <-> is_Some (SpeakerRegistry._speakers r !! k).

Definition wf_bus `{Host} (b : RequestBus.t) : Prop :=
  Forall (fun r => Request.status r = RequestStatus.PENDING) (RequestBus._pending b)
  /\ Forall (fun r => Request.status r <> RequestStatus.PENDING) (RequestBus._resolved b)
  /\ NoDup (map Request.request_id (RequestBus._pending b ++ RequestBus._resolved b))
  /\ Forall (fun r => 0 <= Request.request_id r < RequestBus._next_id b)
            (RequestBus._pending b ++ RequestBus._resolved b)
  /\ 0 <= RequestBus._next_id b.

Definition well_formed `{Host} (m : Mary) : Prop :=
  wf_registry (registry m) /\ wf_memory (registry m) (memory m) /\ wf_bus (bus m).

(** The calls whose final state is related by [T] to their initial state. *)
Definition stable `{Host} (T : Mary -> Mary -> Prop) {A : Type} (c : M A) : Prop :=
  forall m, T m (snd (c m)).

(** What becomes of the speakers: they stay registered, with their name and
    date of creation, and a speaker that is not alive stays so. *)
Definition speakers_persist `{Host} (r r' : SpeakerRegistry.t) : Prop :=
  SpeakerRegistry._next_id r <= SpeakerRegistry._next_id r'
  /\ forall k sp,
       SpeakerRegistry._speakers r !! k = Some sp ->
       exists sp',
         SpeakerRegistry._speakers r' !! k = Some sp'
         /\ Speaker.name sp' = Speaker.name sp
         /\ Speaker.created_at sp' = Speaker.created_at sp
         /\ (Speaker.is_alive sp = false -> Speaker.is_alive sp' = false).

(** From a well-formed state: the state stays well formed, the speakers
    persist, and the resolved requests stay as they are. *)
Definition evolves `{Host} (m m' : Mary) : Prop :=
  well_formed m ->
  well_formed m'
  /\ speakers_persist (registry m) (registry m')
  /\ (forall req, In req (RequestBus._resolved (bus m)) ->
                  In req (RequestBus._resolved (bus m'))).

(** The expression table and the next expression id: every expression is
    registered under its own id, below the next id, and the table holds as
    many expressions as ids have been given. *)
Definition wf_expressions `{Host} (x : list (Z * Expression.t) * Z) : Prop :=
  (forall k e, dict_get k x.1 = Some e ->
               Expression.expression_id e = k /\ 0 <= k < x.2)
  /\ Z.of_nat (length x.1) = x.2.

(** What becomes of the registered expressions: they stay registered, with
    their speaker, label and action, and one that is no longer current never
    is again. *)
Definition expressions_persist `{Host} (x y : list (Z * Expression.t) * Z) : Prop :=
  forall k e,
    dict_get k x.1 = Some e ->
    exists e',
      dict_get k y.1 = Some e'
      /\ Expression.speaker_id e' = Expression.speaker_id e
      /\ Expression.condition_label e' = Expression.condition_label e
      /\ Expression.action e' = Expression.action e
      /\ Expression.created_at e' = Expression.created_at e
      /\ (Expression.version e <> Version.CURRENT ->
          Expression.version e' <> Version.CURRENT).

Definition expressions_evolve `{Host} (x y : list (Z * Expression.t) * Z) : Prop :=
  wf_expressions x -> wf_expressions y /\ x.2 <= y.2 /\ expressions_persist x y.

(** From a well-formed state: the state stays well formed and the
    registered speakers stay as they are. *)
Definition speakers_kept `{Host} (m m' : Mary) : Prop :=
  well_formed m ->
  well_formed m'
  /\ forall k sp,
       SpeakerRegistry._speakers (registry m) !! k = Some sp ->
       SpeakerRegistry._speakers (registry m') !! k = Some sp.

(** ** The states of Helena

    One operation of Helena, and the states that [Helena()] and her
    operations produce. *)
Inductive helena_step `{Host} : Helena.t -> Helena.t -> Prop :=
| step_create_speaker name h : helena_step h (snd (Helena.create_speaker name h))
| step_create_world creator_id name h :
    helena_step h (snd (Helena.create_world creator_id name h))
| step_join_world speaker_id world_id permissions h :
    helena_step h (snd (Helena.join_world speaker_id world_id permissions h))
| step_invite_to_world inviter_id target_id world_id permissions h :
    helena_step h (snd (Helena.invite_to_world inviter_id target_id world_id permissions h))
| step_leave_world speaker_id world_id h :
    helena_step h (snd (Helena.leave_world speaker_id world_id h))
| step_archive_world caller_id world_id h :
    helena_step h (snd (Helena.archive_world caller_id world_id h))
| step_world_write speaker_id world_id var_name value h :
    helena_step h (snd (Helena.world_write speaker_id world_id var_name value h))
| step_world_read caller_id world_id owner_id var_name h :
    helena_step h (snd (Helena.world_read caller_id world_id owner_id var_name h))
| step_world_request caller_id target_id world_id action data h :
    helena_step h (snd (Helena.world_request caller_id target_id world_id action data h)).

Inductive helena_reachable `{Host} : Helena.t -> Prop :=
| helena_new h : Helena.new = Some h -> helena_reachable h
| helena_next h h' : helena_reachable h -> helena_step h h' -> helena_reachable h'.

(** The worlds are registered under their own ids, which are [world_n] for
    the [n] below the next world id. *)
Definition wf_worlds `{Host} (h : Helena.t) : Prop :=
  0 <= Helena._next_world_id h
  /\ forall k w,
       Helena._worlds h !! k = Some w ->
       World.world_id w = k
       /\ exists n, 0 <= n < Helena._next_world_id h /\ k = "world_" +:+ int_str n.

(** What one operation of Helena does to the worlds: nothing, or it
    replaces a world by one with the same identity, or it registers a world
    under the next id. *)
Definition worlds_step `{Host} (h h' : Helena.t) : Prop :=
  (Helena._worlds h' = Helena._worlds h
   /\ Helena._next_world_id h' = Helena._next_world_id h)
  \/ (exists wid w w',
        Helena._worlds h !! wid = Some w
        /\ Helena._worlds h' = <[wid := w']> (Helena._worlds h)
        /\ Helena._next_world_id h' = Helena._next_world_id h
        /\ World.world_id w' = World.world_id w
        /\ World.name w' = World.name w
        /\ World.creator_id w' = World.creator_id w
        /\ World.created_at w' = World.created_at w
        /\ (World.status w = WorldStatus.ARCHIVED -> World.status w' = WorldStatus.ARCHIVED))
  \/ (exists w',
        Helena._worlds h' = <["world_" +:+ int_str (Helena._next_world_id h) := w']>
                              (Helena._worlds h)
        /\ Helena._next_world_id h' = Helena._next_world_id h + 1
        /\ World.world_id w' = "world_" +:+ int_str (Helena._next_world_id h)).

(** What becomes of the worlds: they stay registered, with their name,
    creator and date of creation, and an archived world stays archived. *)
Definition worlds_persist `{Host} (h h' : Helena.t) : Prop :=
  Helena._next_world_id h <= Helena._next_world_id h'
  /\ forall k w,
       Helena._worlds h !! k = Some w ->
       exists w',
         Helena._worlds h' !! k = Some w'
         /\ World.name w' = World.name w
         /\ World.creator_id w' = World.creator_id w
         /\ World.created_at w' = World.created_at w
         /\ (World.status w = WorldStatus.ARCHIVED ->
             World.status w' = WorldStatus.ARCHIVED).

(** ** Scenarios

    Closed states of the kernel, of the runtime and of Helena, on the host
    whose clock reads whole seconds. *)

Section Scenarios.
#[local] Existing Instance WholeSeconds.host.

(** Root creates A (id 1) and B (id 2). *)
Definition two_speakers : Mary :=
  snd (create_speaker 0 "B" (snd (create_speaker 0 "A" Mary_new))).

(** A asks B for a review; root then suspends B. *)
Definition asked : Mary := snd (request 1 2 "review" VNone None two_speakers).
Definition asked_then_suspended : Mary := snd (suspend_speaker 0 2 asked).

(** Root suspends itself. *)
Definition root_suspended : Mary := snd (suspend_speaker 0 0 two_speakers).

(** B accepts the request of A. *)
Definition answered : Mary := snd (respond 2 0 true VNone asked).

(** The operation, status and break reason of the entries of a ledger. *)
Definition receipts (m : Mary) : list (string * option Status.t * option string) :=
  map (fun e => (LedgerEntry.operation e, LedgerEntry.status e, LedgerEntry.break_reason e))
      (Ledger._entries (ledger m)).

(** The versions of the registered expressions, in order. *)
Definition versions (m : Mary) : list Version.t :=
  map (fun kv => Expression.version kv.2) (_expressions m).

(** A kernel in which A has registered an expression whose condition raises. *)
Definition raising : Expression.t :=
  Expression.mk _ 0 1 (Some (Raise "boom")) "c" "a" None 1771500006 Version.CURRENT None
                None false None None.
Definition with_raising : Mary := set_expressions [(0, raising)] two_speakers.

(** A runtime whose expression trees are integer literals and whose
    statements do nothing. *)
Definition literal (n : Z) : Runtime.RM unit (Value float) := Runtime.rret unit (VInt n).
Definition skip (_ : unit) : Runtime.RM unit unit := Runtime.rret unit tt.
Definition int_of (v : Value float) : Res Z :=
  match v with
  | VInt n => Ok n
  | VBool b => Ok (if b then 1 else 0)
  | _ => Exc "TypeError"
  end.
Definition as_A : Runtime.Environment unit :=
  Runtime.mkEnvironment unit two_speakers [("A", 1); ("B", 2)] (Some "A") 1 [] [] [] []
                        VNone false.

(** A submits an expression; then submits it again with a scope that has
    passed; or submits it again and then as a loop. *)
Definition submitted : Mary := snd (submit run 1 None "c" "a" None false None two_speakers).
Definition then_expired : Mary := snd (submit run 1 None "c" "a" None false (Some 1) submitted).
Definition then_looped : Mary :=
  snd (submit_loop run 1 None "c" "a" None None (Some 1)
                   (snd (submit run 1 None "c" "a" None false None submitted))).

(** Root creates A and B, then A submits the same expression twice. *)
Definition submit_twice : Prog :=
  Bind (Call_create_speaker 0 "A") (fun _ =>
  Bind (Call_create_speaker 0 "B") (fun _ =>
  Bind (Call_submit 1 None "c" "a" None false None) (fun _ =>
  Bind (Call_submit 1 None "c" "a" None false None) (fun _ => Ret VNone)))).

(** An unknown speaker submits to a fresh kernel. *)
Definition unknown_submits : Prog :=
  Bind (Call_submit 7 None "c" "a" None false None) (fun _ => Ret VNone).

(** Helena, alice (id 2) and bob (id 3); alice creates a world, bob joins
    it, and alice archives it. *)
Definition helena : Helena.t :=
  match Helena.new with
  | Some h => h
  | None => Helena.mk _ Mary_new (Speaker.mk _ 0 "" 0 SpeakerStatus.ALIVE) ∅ 0
  end.
Definition with_alice_and_bob : Helena.t :=
  snd (Helena.create_speaker "bob" (snd (Helena.create_speaker "alice" helena))).
Definition with_lab : Helena.t :=
  snd (Helena.join_world 3 "world_0" None
         (snd (Helena.create_world 2 "lab" with_alice_and_bob))).
Definition archived : Helena.t := snd (Helena.archive_world 2 "world_0" with_lab).

(** The members of a world, by id. *)
Definition member_ids (world_id : string) (h : Helena.t) : option (list Z) :=
  (fun w => map fst (map_to_list (World.members w))) <$> (Helena._worlds h !! world_id).

(** The kernel after the run of [submit_twice]. *)
Definition at_work : Mary := snd (run submit_twice Mary_new).

(** Root creates A and B, then A asks B for a review. *)
Definition asking : Prog :=
  Bind (Call_create_speaker 0 "A") (fun _ =>
  Bind (Call_create_speaker 0 "B") (fun _ =>
  Bind (Call_request 1 2 "review" VNone None) (fun _ => Ret VNone))).
Definition with_request : Mary := snd (run asking Mary_new).

(** A kernel in which A has registered an expression whose action returns
    [False]. *)
Definition failing : Expression.t :=
  Expression.mk _ 0 1 None "c" "a" (Some (Ret (VBool false))) 1771500006 Version.CURRENT None
                None false None None.
Definition with_failing : Mary := set_expressions [(0, failing)] two_speakers.

(** Helena, alice and bob, after alice has created a world. *)
Definition with_world : Helena.t := snd (Helena.create_world 2 "lab" with_alice_and_bob).

End Scenarios.

(** * Properties *)

Example sha256_abc :
  Sha256.hexdigest "abc"
  = "ba7816bf8f01cfea414140de5dae2223b00361a396177a9cb410ff61f20015ad".
Proof. vm_compute. reflexivity. Qed.

Example sha256_empty :
  Sha256.hexdigest ""
  = "e3b0c44298fc1c149afbf4c8996fb92427ae41e4649b934ca495991b7852b855".
Proof. vm_compute. reflexivity. Qed.

Example sha256_two_blocks :
  Sha256.hexdigest "abcdbcdecdefdefgefghfghighijhijkijkljklmklmnlmnomnopnopq"
  = "248d6a61d20638b8e5c026930c3e6039a33ce45964ff2167f6ecedd419db06c1".
Proof. vm_compute. reflexivity. Qed.

(** ** The ledger *)

Section LedgerFacts.
Context `{Host}.

Lemma chain_end_snoc g l e : chain_end g (l ++ [e]) = LedgerEntry.entry_hash e.
Proof. revert g. induction l as [|x l IH]; intros g; simpl; [reflexivity|apply IH]. Qed.

Lemma last_snoc (l : list LedgerEntry.t) e :
  List.last (map Some (l ++ [e])) None = Some e.
Proof. rewrite map_app. simpl. apply last_last. Qed.

Lemma chain_end_last g l :
  chain_end g l = match List.last (map Some l) None with
                  | Some p => LedgerEntry.entry_hash p
                  | None => g
                  end.
Proof.
  destruct l as [|x l] using rev_ind; [reflexivity|].
  rewrite chain_end_snoc, last_snoc. reflexivity.
Qed.

Lemma reachable_last_hash L :
  ledger_reachable L -> Ledger._last_hash L = chain_end "genesis" (Ledger._entries L).
Proof.
  induction 1 as [|L t sp op a c cr st sb sa br HL IH]; [reflexivity|].
  simpl. rewrite chain_end_snoc. reflexivity.
Qed.

Lemma verify_from_snoc g l e :
  Ledger.verify_from g (l ++ [e])
  = Ledger.verify_from g l
    && String.eqb (LedgerEntry.prev_hash e) (chain_end g l)
    && String.eqb (LedgerEntry.entry_hash e) (LedgerEntry.compute_hash e).
Proof.
  revert g. induction l as [|x l IH]; intros g; simpl.
  - destruct (String.eqb _ g); simpl; [|reflexivity].
    destruct (String.eqb _ _); reflexivity.
  - destruct (String.eqb (LedgerEntry.prev_hash x) g); simpl; [|reflexivity].
    destruct (String.eqb (LedgerEntry.entry_hash x) _); simpl; [|reflexivity].
    apply IH.
Qed.

Lemma verify_integrity_from L :
  Ledger.verify_integrity L = Ledger.verify_from "genesis" (Ledger._entries L).
Proof. unfold Ledger.verify_integrity. destruct (Ledger._entries L); reflexivity. Qed.

Lemma reachable_verifies L :
  ledger_reachable L -> Ledger.verify_integrity L = true.
Proof.
  intros HL. rewrite verify_integrity_from.
  induction HL as [|L t sp op a c cr st sb sa br HL IH]; [reflexivity|].
  simpl. rewrite verify_from_snoc, IH. simpl.
  rewrite (reachable_last_hash _ HL), !String.eqb_refl. reflexivity.
Qed.

(** C3: the entry that [append] adds has the ledger length as its id, the
    previous entry's hash (or ["genesis"]) as [prev_hash], and as hash the
    first 16 hex characters of the SHA-256 digest of
    [entry_id:speaker_id:operation:action:timestamp:prev_hash]. *)
Theorem append_hash_chain L t sp op a c cr st sb sa br :
  ledger_reachable L ->
  let e := fst (Ledger.append t sp op a c cr st sb sa br L) in
  let L' := snd (Ledger.append t sp op a c cr st sb sa br L) in
  LedgerEntry.entry_hash e
    = str_prefix 16
        (Sha256.hexdigest
           (int_str (LedgerEntry.entry_id e) +:+ ":" +:+
            int_str (LedgerEntry.speaker_id e) +:+ ":" +:+
            LedgerEntry.operation e +:+ ":" +:+ LedgerEntry.action e +:+ ":" +:+
            float_str (LedgerEntry.timestamp e) +:+ ":" +:+
            LedgerEntry.prev_hash e))
  /\ LedgerEntry.entry_id e = Z.of_nat (length (Ledger._entries L))
  /\ LedgerEntry.prev_hash e
     = match Ledger.last L with
       | Some p => LedgerEntry.entry_hash p
       | None => "genesis"
       end
  /\ Ledger._entries L' = Ledger._entries L ++ [e]
  /\ Ledger.last L' = Some e.
Proof.
  intros HL e L'. repeat split.
  - simpl. rewrite (reachable_last_hash _ HL). apply chain_end_last.
  - unfold L', Ledger.last. simpl. apply last_snoc.
Qed.
End LedgerFacts.

Section Tamper.
Context `{Host}.

(** Replacing the [i]-th entry of a chain that verifies. *)
Lemma verify_from_alter_prev g (l : list LedgerEntry.t) i e f :
  Ledger.verify_from g l = true -> l !! i = Some e ->
  LedgerEntry.prev_hash (f e) <> LedgerEntry.prev_hash e ->
  Ledger.verify_from g (alter f i l) = false.
Proof.
  revert g i. induction l as [|x l IH]; intros g i Hv Hi Hne; [discriminate|].
  simpl in Hv.
  destruct (String.eqb_spec (LedgerEntry.prev_hash x) g) as [Hp|]; [|discriminate].
  destruct (String.eqb_spec (LedgerEntry.entry_hash x) (LedgerEntry.compute_hash x))
    as [Hh|]; [|discriminate].
  simpl in Hv. destruct i as [|i]; simpl in *.
  - injection Hi as ->. 
    destruct (String.eqb_spec (LedgerEntry.prev_hash (f e)) g); [congruence|reflexivity].
  - rewrite (proj2 (String.eqb_eq _ _) Hp), (proj2 (String.eqb_eq _ _) Hh). simpl.
    eapply IH; eauto.
Qed.

Lemma verify_from_alter_hash g (l : list LedgerEntry.t) i e f :
  Ledger.verify_from g l = true -> l !! i = Some e ->
  LedgerEntry.entry_hash (f e) <> LedgerEntry.compute_hash (f e) ->
  Ledger.verify_from g (alter f i l) = false.
Proof.
  revert g i. induction l as [|x l IH]; intros g i Hv Hi Hne; [discriminate|].
  simpl in Hv.
  destruct (String.eqb_spec (LedgerEntry.prev_hash x) g) as [Hp|]; [|discriminate].
  destruct (String.eqb_spec (LedgerEntry.entry_hash x) (LedgerEntry.compute_hash x))
    as [Hh|]; [|discriminate].
  simpl in Hv. destruct i as [|i]; simpl in *.
  - injection Hi as ->.
    destruct (String.eqb (LedgerEntry.prev_hash (f e)) g); [|reflexivity]. simpl.
    destruct (String.eqb_spec (LedgerEntry.entry_hash (f e))
                              (LedgerEntry.compute_hash (f e))); [congruence|reflexivity].
  - rewrite (proj2 (String.eqb_eq _ _) Hp), (proj2 (String.eqb_eq _ _) Hh). simpl.
    eapply IH; eauto.
Qed.

Lemma verify_from_alter_same g (l : list LedgerEntry.t) i e f :
  Ledger.verify_from g l = true -> l !! i = Some e ->
  LedgerEntry.prev_hash (f e) = LedgerEntry.prev_hash e ->
  LedgerEntry.entry_hash (f e) = LedgerEntry.entry_hash e ->
  LedgerEntry.compute_hash (f e) = LedgerEntry.compute_hash e ->
  Ledger.verify_from g (alter f i l) = true.
Proof.
  revert g i. induction l as [|x l IH]; intros g i Hv Hi H1 H2 H3; [discriminate|].
  simpl in Hv.
  destruct (String.eqb_spec (LedgerEntry.prev_hash x) g) as [Hp|]; [|discriminate].
  destruct (String.eqb_spec (LedgerEntry.entry_hash x) (LedgerEntry.compute_hash x))
    as [Hh|]; [|discriminate].
  simpl in Hv. destruct i as [|i]; simpl in *.
  - injection Hi as ->. rewrite H1, H2, H3.
    rewrite (proj2 (String.eqb_eq _ _) Hp), (proj2 (String.eqb_eq _ _) Hh). exact Hv.
  - rewrite (proj2 (String.eqb_eq _ _) Hp), (proj2 (String.eqb_eq _ _) Hh). simpl.
    eapply IH; eauto.
Qed.

Lemma verify_from_lookup g (l : list LedgerEntry.t) i e :
  Ledger.verify_from g l = true -> l !! i = Some e ->
  LedgerEntry.entry_hash e = LedgerEntry.compute_hash e.
Proof.
  revert g i. induction l as [|x l IH]; intros g i Hv Hi; [discriminate|].
  simpl in Hv.
  destruct (String.eqb_spec (LedgerEntry.prev_hash x) g) as [Hp|]; [|discriminate].
  destruct (String.eqb_spec (LedgerEntry.entry_hash x) (LedgerEntry.compute_hash x))
    as [Hh|]; [|discriminate].
  simpl in Hv. destruct i as [|i]; simpl in *.
  - congruence.
  - eapply IH; eauto.
Qed.

End Tamper.

(** ** The façade: ownership, authentication, requests *)

Section Facade.
Context `{Host}.

Lemma ledger_append_eq sid op a c cr st sb sa br (m : Mary) :
  ledger_append sid op a c cr st sb sa br m
  = (Ok (fst (Ledger.append (time_time (clock m)) sid op a c cr st sb sa br (ledger m))),
     set_ledger (snd (Ledger.append (time_time (clock m)) sid op a c cr st sb sa br
                                    (ledger m)))
                (set_clock (S (clock m)) m)).
Proof. reflexivity. Qed.

Lemma refusal_logs_broken {A} (x : A) sid op a c cr sb sa reason (m : Mary) :
  let r := (let! _ := ledger_append sid op a c cr (Some Status.BROKEN) sb sa (Some reason) in
            ret x) m in
  fst r = Ok x /\ logs_broken m (snd r) sid op reason.
Proof.
  simpl. split; [reflexivity|]. eexists. simpl. repeat split; reflexivity.
Qed.

(** C1: a [write_to] by [c] on another speaker [t] returns [False], appends
    exactly one entry, a broken [write_violation] with reason
    [write_ownership_violation], and leaves the partition of [t] as it was:
    a read of the variable gives what it gave before, [None] if it does not
    exist. *)
Theorem write_to_violation (m : Mary) (c t : Z) (name : string) (value : Value float) :
  c <> t ->
  let r := write_to c t name value m in
  fst r = Ok false
  /\ (exists e,
        Ledger._entries (ledger (snd r)) = Ledger._entries (ledger m) ++ [e]
        /\ LedgerEntry.operation e = "write_violation"
        /\ LedgerEntry.status e = Some Status.BROKEN
        /\ LedgerEntry.break_reason e = Some "write_ownership_violation")
  /\ Memory.get_partition t (memory (snd r)) = Memory.get_partition t (memory m)
  /\ (forall a, fst (read a t name (snd r)) = fst (read a t name m))
  /\ (forall a, SpeakerRegistry.authenticate a (registry m) = true ->
                fst (read a t name (snd r))
                = Ok (default VNone (Memory.get_partition t (memory m) !! name))).
Proof.
  intros Hne r. subst r. unfold write_to.
  destruct (Z.eqb_spec c t) as [|_]; [contradiction|]. simpl.
  split; [reflexivity|]. split; [eexists; repeat split; reflexivity|].
  split; [reflexivity|]. split.
  - intros a. unfold read, bind, authenticate, gets. simpl.
    destruct (SpeakerRegistry.authenticate a (registry m)); reflexivity.
  - intros a Ha. unfold read, bind, authenticate, gets. simpl. rewrite Ha. reflexivity.
Qed.


Lemma find_app_pending rid (p r : list Request.t) req :
  RequestBus.find rid (p ++ r) = Some req ->
  RequestBus.find rid p = Some req \/ RequestBus.find rid p = None.
Proof.
  induction p as [|x p IH]; simpl; [auto|].
  destruct (Request.request_id x =? rid); auto.
Qed.

(** C10: when the target of a request answers it again after it has been
    resolved, [respond] returns [False] and yet appends an active [respond]
    entry, with no break reason; the bus is unchanged. *)
Theorem respond_resolved (m : Mary) (caller rid : Z) (accept : bool)
    (response_data : Value float) (req : Request.t) :
  RequestBus.get_request rid (bus m) = Some req ->
  Request.to_speaker req = caller ->
  Request.status req <> RequestStatus.PENDING ->
  let r := respond caller rid accept response_data m in
  fst r = Ok false
  /\ (exists e,
        Ledger._entries (ledger (snd r)) = Ledger._entries (ledger m) ++ [e]
        /\ LedgerEntry.operation e = "respond"
        /\ LedgerEntry.status e = Some Status.ACTIVE
        /\ LedgerEntry.break_reason e = None)
  /\ bus (snd r) = bus m.
Proof.
  intros Hget Hto Hst r.
  assert (RequestBus.respond rid caller accept response_data (bus m) = (None, bus m)) as Hr.
  { unfold RequestBus.respond. unfold RequestBus.get_request in Hget.
    destruct (find_app_pending _ _ _ _ Hget) as [-> | ->]; [|reflexivity].
    rewrite Hto, Z.eqb_refl. simpl.
    destruct (Request.status req); try reflexivity. contradiction. }
  assert (r = (let! _ := ledger_append caller "respond"
                 ("respond:" +:+ int_str rid +:+ ":" +:+
                  (if accept then "accept" else "refuse"))
                 None None (Some Status.ACTIVE) None
                 (Some [("request_id", VInt rid); ("accepted", VBool accept)]) None in
               ret false) m) as ->.
  { subst r. unfold respond, bind, gets. rewrite Hget, Hto, Z.eqb_refl. cbn [negb].
    cbv beta iota. rewrite Hr. destruct m; reflexivity. }
  simpl. split; [reflexivity|]. split; [eexists; repeat split; reflexivity|reflexivity].
Qed.
End Facade.

(** ** What every run of a program preserves *)

Lemma Forall_option_list {A : Type} (P : A -> Prop) (o : option A) (l : list A) :
  Forall P (option_list o ++ l) -> (forall q, o = Some q -> P q) /\ Forall P l.
Proof.
  destruct o as [a|]; simpl; intros HF.
  - inversion HF; subst. split; [intros q [= <-]; assumption|assumption].
  - split; [discriminate|assumption].
Qed.

Section ProgInduction.
Context `{Host}.
Variable P : Prog -> Prop.
Hypothesis P_Ret : forall v, P (Ret v).
Hypothesis P_Raise : forall msg, P (Raise msg).
Hypothesis P_Bind :
  forall c k, Forall P (callables c) -> (forall v, P (k v)) -> P (Bind c k).

Lemma Prog_induction : forall p, P p.
Proof.
  fix IH 1. intros [v|msg|c k].
  - apply P_Ret.
  - apply P_Raise.
  - apply P_Bind; [|intros v; apply IH].
    destruct c; simpl; try constructor.
    + destruct condition as [q|], action_fn as [q'|]; simpl; repeat constructor; apply IH.
    + destruct condition as [q|], action_fn as [q'|], loop_condition as [q''|]; simpl;
        repeat constructor; apply IH.
Qed.
End ProgInduction.

Lemma calls_only_callables `{Host} allowed c k :
  calls_only allowed (Bind c k) -> Forall (calls_only allowed) (callables c).
Proof.
  intros (_ & Hc & _). destruct c; simpl in *; try constructor.
  - destruct Hc as [H1 H2].
    destruct condition, action_fn; simpl; repeat constructor; assumption.
  - destruct Hc as (H1 & H2 & H3).
    destruct condition, action_fn, loop_condition; simpl; repeat constructor; assumption.
Qed.


Section Preservation.
Context `{Host}.
Variable allowed : Call Prog -> Prop.
Variable RL : Ledger.t -> Ledger.t -> Prop.
Variable RE : list (Z * Expression.t) * Z -> list (Z * Expression.t) * Z -> Prop.

Hypothesis RL_refl : forall L, RL L L.
Hypothesis RL_trans : forall L1 L2 L3, RL L1 L2 -> RL L2 L3 -> RL L1 L3.
Hypothesis RE_refl : forall x, RE x x.
Hypothesis RE_trans : forall x y z, RE x y -> RE y z -> RE x z.
Hypothesis RL_append :
  forall L t sid op a c cr st sb sa br,
    site_ok op cr st br ->
    RL L (snd (Ledger.append t sid op a c cr st sb sa br L)).
Hypothesis RE_status :
  forall d n eid s, RE (d, n) (dict_alter (Expression.with_status s) eid d, n).
Hypothesis RE_expire :
  forall d n eid,
    RE (d, n) (dict_alter (Expression.with_version Version.EXPIRED) eid d, n).
Hypothesis RE_submit :
  forall d n sid cond label action act t scope is_refusal,
    RE (d, n)
       (dict_set n (Expression.mk _ n sid cond label action act t Version.CURRENT None
                                  scope is_refusal None None)
                 (superseded sid action label d), n + 1).
Hypothesis RE_submit_loop :
  forall d n sid cond label action act t lc lm,
    allowed (Call_submit_loop sid cond label action act lc lm) ->
    RE (d, n)
       (dict_set n (Expression.mk _ n sid cond label action act t Version.CURRENT None
                                  None false lc lm) d, n + 1).

Local Abbreviation R := (related RL RE).
Local Abbreviation ok := (preserves RL RE).

Lemma R_refl m : R m m.
Proof. split; auto. Qed.

Lemma R_trans m1 m2 m3 : R m1 m2 -> R m2 m3 -> R m1 m3.
Proof. intros [? ?] [? ?]. split; eauto. Qed.

Lemma ok_ret {A} (a : A) : ok (ret a).
Proof. intros m. apply R_refl. Qed.

Lemma ok_raise {A} msg : ok (@raise _ A msg).
Proof. intros m. apply R_refl. Qed.

Lemma ok_bind {A B} (c : M A) (f : A -> M B) :
  ok c -> (forall a, ok (f a)) -> ok (bind c f).
Proof.
  intros Hc Hf m. unfold bind. specialize (Hc m).
  destruct (c m) as [[a|e] m']; simpl in *; [|exact Hc].
  eapply R_trans; [exact Hc|apply Hf].
Qed.

Lemma ok_try {A} (c : M A) : ok c -> ok (try c).
Proof. intros Hc m. unfold try. specialize (Hc m). destruct (c m). exact Hc. Qed.

Lemma ok_gets {A} (f : Mary -> A) : ok (gets f).
Proof. intros m. apply R_refl. Qed.

Lemma ok_now : ok now.
Proof. intros m. split; simpl; [apply RL_refl|apply RE_refl]. Qed.

Lemma ok_authenticate sid : ok (authenticate sid).
Proof. apply ok_gets. Qed.

Lemma ok_is_current eid : ok (is_current eid).
Proof. apply ok_gets. Qed.

Lemma ok_ledger_append sid op a c cr st sb sa br :
  site_ok op cr st br -> ok (ledger_append sid op a c cr st sb sa br).
Proof. intros Hs m. split; simpl; [apply RL_append; exact Hs|apply RE_refl]. Qed.

Lemma ok_set_status eid s : ok (set_status eid s).
Proof. intros m. split; simpl; [apply RL_refl|apply RE_status]. Qed.

Lemma ok_set_expired eid : ok (set_version eid Version.EXPIRED).
Proof. intros m. split; simpl; [apply RL_refl|apply RE_expire]. Qed.

Lemma ok_frame {A} (c : M A) :
  (forall m, ledger (snd (c m)) = ledger m
             /\ _expressions (snd (c m)) = _expressions m
             /\ _next_expr_id (snd (c m)) = _next_expr_id m) ->
  ok c.
Proof.
  intros Hc m. destruct (Hc m) as (Hl & He & Hn). split.
  - rewrite Hl. apply RL_refl.
  - rewrite He, Hn. apply RE_refl.
Qed.

Lemma site_ok_kernel op cr r :
  In r fixed_reasons -> site_ok op cr (Some Status.BROKEN) (Some r).
Proof. intros Hr _. exists r. split; [reflexivity|]. left. left. exact Hr. Qed.

Lemma site_ok_other op cr st br :
  st <> Some Status.BROKEN -> site_ok op cr st br.
Proof. intros Hne Hst. contradiction. Qed.

Ltac site :=
  solve [ apply site_ok_kernel; simpl; tauto
        | apply site_ok_other; discriminate ].

Ltac ok_step :=
  first
    [ apply ok_ret | apply ok_raise | apply ok_gets | apply ok_now
    | apply ok_authenticate | apply ok_is_current
    | apply ok_set_status | apply ok_set_expired
    | apply ok_ledger_append; site
    | apply ok_try
    | apply ok_bind; [|intros ?] ].

Section WithCall.
Variable call : Prog -> M (Value float).

Lemma ok_scope_passed expr : ok (scope_passed expr).
Proof.
  unfold scope_passed. destruct (Expression.scope_until expr) as [u|]; [|apply ok_ret].
  destruct (float_bool u); repeat ok_step.
Qed.

Lemma ok_evaluate expr :
  (forall q, Expression.condition expr = Some q -> ok (call q)) ->
  (forall q, Expression.action_fn expr = Some q -> ok (call q)) ->
  ok (evaluate call expr).
Proof.
  intros Hc Ha. unfold evaluate. cbv zeta.
  apply ok_bind; [ok_step|intros auth]. destruct auth; simpl; [|repeat ok_step].
  apply ok_bind; [ok_step|intros cur]. destruct cur; simpl; [|repeat ok_step].
  apply ok_bind; [apply ok_scope_passed|intros passed].
  destruct passed; [repeat ok_step|].
  apply ok_bind.
  { destruct (Expression.condition expr) as [q|]; [|ok_step].
    apply ok_bind; [apply ok_try, Hc; reflexivity|intros r; ok_step]. }
  intros met. destruct met; simpl; [|repeat ok_step].
  apply ok_bind.
  { destruct (Expression.action_fn expr) as [q|]; [|ok_step].
    apply ok_bind; [apply ok_try, Ha; reflexivity|intros r; ok_step]. }
  intros [fulfilled|e].
  - destruct (Expression.is_refusal expr), fulfilled; simpl; repeat ok_step.
  - apply ok_bind; [ok_step|intros _].
    apply ok_bind; [|intros _; ok_step].
    apply ok_ledger_append. intros _. eexists. split; [reflexivity|]. right. split; reflexivity.
Qed.

Lemma ok_evaluate_loop_from expr max_iter remaining count :
  (forall q, Expression.condition expr = Some q -> ok (call q)) ->
  (forall q, Expression.action_fn expr = Some q -> ok (call q)) ->
  (forall q, Expression.loop_condition expr = Some q -> ok (call q)) ->
  ok (evaluate_loop_from call expr max_iter remaining count).
Proof.
  intros Hc Ha Hl. revert count. induction remaining as [|remaining IH]; intros count; simpl.
  - apply ok_bind; [|intros _; ok_step].
    apply ok_ledger_append. intros _. eexists. split; [reflexivity|]. left. right.
    eexists. reflexivity.
  - apply ok_bind.
    { destruct (Expression.loop_condition expr) as [q|]; [|ok_step].
      apply ok_bind; [apply Hl; reflexivity|intros v; ok_step]. }
    intros stop. destruct stop; [repeat ok_step|].
    apply ok_bind; [apply ok_evaluate; assumption|].
    intros [[| |]|]; try ok_step; apply IH.
Qed.

Ltac ok_raw :=
  apply ok_frame; intros ?m; simpl;
  repeat match goal with
         | |- context [let '(_, _) := ?x in _] => destruct x
         end;
  simpl; auto.

Lemma ok_create_speaker caller name : ok (create_speaker caller name).
Proof.
  unfold create_speaker.
  apply ok_bind; [ok_step|intros auth]. destruct auth; simpl; [|repeat ok_step].
  apply ok_bind; [ok_step|intros t].
  apply ok_bind; [ok_raw|intros sp].
  apply ok_bind; [ok_raw|intros _].
  repeat ok_step.
Qed.

Lemma ok_suspend_speaker caller target : ok (suspend_speaker caller target).
Proof.
  unfold suspend_speaker. destruct (caller =? 0); simpl; [|repeat ok_step].
  apply ok_bind; [ok_raw|intros success].
  destruct success; repeat ok_step.
Qed.

Lemma ok_read caller owner var : ok (read caller owner var).
Proof.
  unfold read. cbv zeta.
  apply ok_bind; [ok_step|intros auth]. destruct auth; simpl; repeat ok_step.
Qed.

Lemma ok_write caller var value : ok (write caller var value).
Proof.
  unfold write.
  apply ok_bind; [ok_step|intros auth]. destruct auth; simpl; [|repeat ok_step].
  apply ok_bind; [ok_raw|intros [success old]].
  destruct success; repeat ok_step.
Qed.

Lemma ok_write_to caller target var value : ok (write_to caller target var value).
Proof.
  unfold write_to. destruct (caller =? target); simpl; [apply ok_write|repeat ok_step].
Qed.

Lemma ok_expression_status caller eid : ok (expression_status caller eid).
Proof.
  unfold expression_status.
  apply ok_bind; [ok_step|intros auth]. destruct auth; simpl; [|repeat ok_step].
  apply ok_bind; [ok_step|intros [e|]]; ok_step.
Qed.

Lemma ok_request caller target action data timeout :
  ok (request caller target action data timeout).
Proof.
  unfold request. cbv zeta.
  apply ok_bind; [ok_step|intros auth]. destruct auth; simpl; [|repeat ok_step].
  apply ok_bind; [ok_step|intros auth]. destruct auth; simpl; [|repeat ok_step].
  apply ok_bind.
  { destruct timeout as [t|]; [|ok_step]. destruct (float_bool t); repeat ok_step. }
  intros expires. apply ok_bind; [ok_step|intros t].
  apply ok_bind; [ok_raw|intros req]. repeat ok_step.
Qed.

Lemma ok_respond caller rid accept data : ok (respond caller rid accept data).
Proof.
  unfold respond.
  apply ok_bind; [ok_step|intros [req|]]; [|repeat ok_step].
  destruct (Request.to_speaker req =? caller); simpl; [|repeat ok_step].
  apply ok_bind; [ok_raw|intros r]. repeat ok_step.
Qed.

Lemma ok_ledger_count caller : ok (ledger_count caller).
Proof.
  unfold ledger_count.
  apply ok_bind; [ok_step|intros auth]. destruct auth; simpl; repeat ok_step.
Qed.

Lemma supersede_spec new sid action label items m :
  exists L c,
    supersede new sid action label items m
    = (Ok (superseded sid action label items), set_ledger L (set_clock c m))
    /\ RL (ledger m) L.
Proof.
  revert m. induction items as [|[eid existing] items IH]; intros m; simpl.
  - exists (ledger m), (clock m). split; [destruct m; reflexivity|apply RL_refl].
  - fold (supersedes sid action label existing).
    destruct (supersedes sid action label existing).
    + unfold bind at 1. rewrite ledger_append_eq.
      match goal with
      | |- context [bind _ _ ?m1] => destruct (IH m1) as (L & c & Heq & HL)
      end.
      unfold bind. rewrite Heq. exists L, c. split; [destruct m; reflexivity|].
      eapply RL_trans; [|exact HL]. simpl. apply RL_append.
      apply site_ok_other. discriminate.
    + destruct (IH m) as (L & c & Heq & HL).
      unfold bind. rewrite Heq. exists L, c. split; [reflexivity|exact HL].
Qed.

Lemma ok_submit sid cond label action act is_refusal scope :
  (forall q, cond = Some q -> ok (call q)) ->
  (forall q, act = Some q -> ok (call q)) ->
  ok (submit call sid cond label action act is_refusal scope).
Proof.
  intros Hc Ha. unfold submit.
  apply ok_bind; [ok_step|intros auth]. destruct auth; simpl; [|repeat ok_step].
  intros m. unfold bind at 1 2 3 4 5 6, gets at 1 2, now, modify. cbv beta iota.
  match goal with
  | |- context [supersede ?n ?s ?a ?l ?i ?m1] =>
      destruct (supersede_spec n s a l i m1) as (L & c & Heq & HL); rewrite Heq
  end.
  cbv beta iota.
  match goal with
  | |- R _ (snd (bind (evaluate _ ?e) _ ?m1)) =>
      apply R_trans with m1;
        [|apply (ok_bind (evaluate call e));
          [apply ok_evaluate; simpl; assumption|intros; apply ok_gets]]
  end.
  split; simpl; [exact HL|apply RE_submit].
Qed.

Lemma ok_submit_loop sid cond label action act lc lm :
  allowed (Call_submit_loop sid cond label action act lc lm) ->
  (forall q, cond = Some q -> ok (call q)) ->
  (forall q, act = Some q -> ok (call q)) ->
  (forall q, lc = Some q -> ok (call q)) ->
  ok (submit_loop call sid cond label action act lc lm).
Proof.
  intros Hallowed Hc Ha Hl. unfold submit_loop.
  apply ok_bind; [ok_step|intros auth]. destruct auth; simpl; [|repeat ok_step].
  intros m. unfold bind at 1 2 3 4, gets at 1, now, modify. cbv beta iota.
  match goal with
  | |- R _ (snd (bind (evaluate_loop _ ?e) _ ?m1)) =>
      apply R_trans with m1;
        [|apply (ok_bind (evaluate_loop call e));
          [unfold evaluate_loop; apply ok_evaluate_loop_from; simpl; assumption
          |intros [st count]; repeat ok_step]]
  end.
  split; simpl; [apply RL_refl|apply RE_submit_loop; exact Hallowed].
Qed.

Lemma ok_exec c :
  allowed c -> Forall (fun q => ok (call q)) (callables c) -> ok (exec call c).
Proof.
  intros Hallowed Hq. destruct c; simpl in *.
  - apply ok_bind; [apply ok_create_speaker|intros; ok_step].
  - apply ok_bind; [apply ok_suspend_speaker|intros; ok_step].
  - apply ok_read.
  - apply ok_bind; [apply ok_write|intros; ok_step].
  - apply ok_bind; [apply ok_write_to|intros; ok_step].
  - apply ok_bind; [|intros; ok_step].
    apply Forall_option_list in Hq as [Hc Hq].
    rewrite <- (app_nil_r (option_list action_fn)) in Hq.
    apply Forall_option_list in Hq as [Ha _].
    apply ok_submit; assumption.
  - apply ok_bind; [|intros; ok_step].
    apply Forall_option_list in Hq as [Hc Hq].
    apply Forall_option_list in Hq as [Ha Hq].
    rewrite <- (app_nil_r (option_list loop_condition)) in Hq.
    apply Forall_option_list in Hq as [Hl _].
    apply ok_submit_loop; assumption.
  - apply ok_bind; [apply ok_expression_status|intros; ok_step].
  - apply ok_bind; [apply ok_request|intros; ok_step].
  - apply ok_bind; [apply ok_respond|intros; ok_step].
  - apply ok_bind; [apply ok_ledger_count|intros; ok_step].
  - apply ok_bind; [apply ok_gets|intros; ok_step].
Qed.
End WithCall.

Theorem run_preserves p : calls_only allowed p -> ok (run p).
Proof.
  induction p as [v|msg|c k IHc IHk] using Prog_induction; intros Hp.
  - apply ok_ret.
  - apply ok_raise.
  - simpl. apply ok_bind.
    + apply ok_exec; [apply Hp|].
      pose proof (calls_only_callables _ _ _ Hp) as Hq.
      rewrite Forall_forall in *. intros q Hin. apply IHc; [exact Hin|apply Hq, Hin].
    + intros v. apply IHk. apply Hp.
Qed.
End Preservation.



(** ** The expression table *)

Section Dict.
Context {V : Type}.
Implicit Types (d : list (Z * V)) (k n : Z).

Lemma dict_get_alter (f : V -> V) k n d :
  dict_get k (dict_alter f n d)
  = if n =? k then f <$> dict_get k d else dict_get k d.
Proof.
  induction d as [|[k' v] d IH]; simpl.
  - destruct (n =? k); reflexivity.
  - destruct (Z.eqb_spec k' n) as [->|Hne]; simpl.
    + destruct (n =? k); reflexivity.
    + rewrite IH. destruct (Z.eqb_spec n k) as [->|]; [|reflexivity].
      destruct (Z.eqb_spec k' k); [contradiction|reflexivity].
Qed.

Lemma dict_get_set k n (v : V) d :
  dict_get k (dict_set n v d) = if n =? k then Some v else dict_get k d.
Proof.
  induction d as [|[k' v'] d IH]; simpl.
  - reflexivity.
  - destruct (Z.eqb_spec k' n) as [->|Hne]; simpl.
    + destruct (n =? k); reflexivity.
    + rewrite IH. destruct (Z.eqb_spec n k) as [->|]; [|reflexivity].
      destruct (Z.eqb_spec k' k); [contradiction|reflexivity].
Qed.

Lemma dict_get_map (f : V -> V) k d :
  dict_get k (map (fun kv => (fst kv, f (snd kv))) d) = f <$> dict_get k d.
Proof.
  induction d as [|[k' v] d IH]; simpl; [reflexivity|].
  destruct (k' =? k); [reflexivity|exact IH].
Qed.
End Dict.

Section Registered.
Context `{Host}.

Lemma dict_get_superseded sid action label (d : list (Z * Expression.t)) k :
  dict_get k (superseded sid action label d)
  = (fun e => if supersedes sid action label e
              then Expression.with_version Version.SUPERSEDED e else e)
      <$> dict_get k d.
Proof.
  induction d as [|[k' e] d IH]; simpl; [reflexivity|].
  destruct (supersedes sid action label e) eqn:Hs; simpl;
    (destruct (k' =? k); [simpl; rewrite Hs; reflexivity|exact IH]).
Qed.

Lemma calls_only_any (p : Prog) : calls_only (fun _ => True) p.
Proof.
  induction p as [| |c k IHc IHk] using Prog_induction; simpl; auto.
  split; [exact I|]. split; [|exact IHk].
  destruct c; simpl in *; auto.
  - apply Forall_option_list in IHc as [Hc Hq].
    rewrite <- (app_nil_r (option_list action_fn)) in Hq.
    apply Forall_option_list in Hq as [Ha _].
    destruct condition, action_fn; auto.
  - apply Forall_option_list in IHc as [Hc Hq].
    apply Forall_option_list in Hq as [Ha Hq].
    rewrite <- (app_nil_r (option_list loop_condition)) in Hq.
    apply Forall_option_list in Hq as [Hl _].
    destruct condition, action_fn, loop_condition; auto.
Qed.

Lemma run_keeps_expressions (p : Prog) (m : Mary) (k : Z) :
  is_Some (dict_get k (_expressions m)) ->
  is_Some (dict_get k (_expressions (snd (run p m)))).
Proof.
  revert k.
  refine (proj2 (run_preserves (fun _ => True) (fun _ _ => True) keeps_keys
                               _ _ _ _ _ _ _ _ _ p _ m)); try solve [unfold keeps_keys; auto].
  - intros d n eid s k. simpl. rewrite dict_get_alter.
    destruct (eid =? k); [|auto]. intros [e ->]. eexists. reflexivity.
  - intros d n eid k. simpl. rewrite dict_get_alter.
    destruct (eid =? k); [|auto]. intros [e ->]. eexists. reflexivity.
  - intros d n sid cond label action act t scope is_refusal k. simpl.
    rewrite dict_get_set, dict_get_superseded.
    destruct (n =? k); [eexists; reflexivity|]. intros [e ->]. eexists. reflexivity.
  - intros d n sid cond label action act t lc lm _ k. simpl. rewrite dict_get_set.
    destruct (n =? k); [eexists; reflexivity|auto].
  - apply calls_only_any.
Qed.

(** C5, as the code has it: when the condition of a current expression of an
    authenticated speaker raises, the evaluation returns inactive, the
    expression is left inactive, and the entry logged is an inactive
    [evaluate] with [condition_result = False]. *)
Theorem evaluate_condition_raises (m m1 m2 : Mary) (expr e0 : Expression.t)
    (c : Prog) (msg : string) :
  SpeakerRegistry.authenticate (Expression.speaker_id expr) (registry m) = true ->
  dict_get (Expression.expression_id expr) (_expressions m) = Some e0 ->
  Expression.version e0 = Version.CURRENT ->
  scope_passed expr m = (Ok false, m1) ->
  Expression.condition expr = Some c ->
  run c m1 = (Exc msg, m2) ->
  let r := evaluate run expr m in
  fst r = Ok (Some Status.INACTIVE)
  /\ (exists e, dict_get (Expression.expression_id expr) (_expressions (snd r)) = Some e
                /\ Expression.status e = Some Status.INACTIVE)
  /\ (exists entry,
        Ledger._entries (ledger (snd r)) = Ledger._entries (ledger m2) ++ [entry]
        /\ LedgerEntry.operation entry = "evaluate"
        /\ LedgerEntry.condition_result entry = Some false
        /\ LedgerEntry.status entry = Some Status.INACTIVE
        /\ LedgerEntry.break_reason entry = None).
Proof.
  intros Hauth Hget Hver Hscope Hcond Hrun r.
  assert (is_Some (dict_get (Expression.expression_id expr) (_expressions m2))) as [e2 He2].
  { replace m2 with (snd (run c m1)) by (rewrite Hrun; reflexivity).
    apply run_keeps_expressions.
    assert (_expressions m1 = _expressions m) as ->.
    { unfold scope_passed in Hscope.
      destruct (Expression.scope_until expr) as [u|]; [|injection Hscope as <-; reflexivity].
      destruct (float_bool u); [|injection Hscope as <-; reflexivity].
      unfold bind, now, ret in Hscope. simpl in Hscope. injection Hscope as _ <-. reflexivity. }
    rewrite Hget. eexists. reflexivity. }
  assert (r = (Ok (Some Status.INACTIVE),
               snd ((let! _ := set_status (Expression.expression_id expr) Status.INACTIVE in
                     ledger_append (Expression.speaker_id expr) "evaluate"
                       (Expression.action expr) (Some (Expression.condition_label expr))
                       (Some false) (Some Status.INACTIVE) None None None) m2))) as ->.
  { subst r. unfold evaluate. cbv zeta.
    unfold bind at 1, authenticate, gets at 1. rewrite Hauth. cbn [negb].
    unfold bind at 1, is_current, gets at 1. rewrite Hget, Hver. cbn [negb Version.eqb].
    unfold bind at 1. rewrite Hscope. rewrite Hcond.
    unfold bind at 1 2, try. rewrite Hrun. reflexivity. }
  split; [reflexivity|]. split.
  - simpl. rewrite dict_get_alter, Z.eqb_refl, He2. eexists. split; reflexivity.
  - eexists. simpl. repeat split; reflexivity.
Qed.
End Registered.

(** ** Break reasons *)

Section BreakReasons.
Context `{Host}.

Lemma run_extends_ledger (p : Prog) (m : Mary) :
  ledger_extends (ledger m) (ledger (snd (run p m))).
Proof.
  refine (proj1 (run_preserves (fun _ => True) ledger_extends (fun _ _ => True)
                               _ _ _ _ _ _ _ _ _ p _ m)); auto.
  - intros L. exists []. rewrite app_nil_r. split; [reflexivity|constructor].
  - intros L1 L2 L3 (l1 & E1 & H1) (l2 & E2 & H2). exists (l1 ++ l2).
    rewrite E2, E1, app_assoc. split; [reflexivity|]. apply Forall_app. split; assumption.
  - intros L t sid op a c cr st sb sa br Hs. eexists. simpl. split; [reflexivity|].
    constructor; [exact Hs|constructor].
  - apply calls_only_any.
Qed.

(** C8, as the code has it: in every state of the kernel, a broken ledger
    entry carries one of the reasons that the kernel writes (the ten of the
    closed set, [speaker_not_authenticated] and [speaker_not_found]), unless
    it is the [evaluate] entry of an action that raised, which carries the
    text of the exception. *)
Theorem broken_entries_reasons (m : Mary) (e : LedgerEntry.t) :
  reachable (fun _ => True) m ->
  In e (Ledger._entries (ledger m)) ->
  LedgerEntry.status e = Some Status.BROKEN ->
  exists r,
    LedgerEntry.break_reason e = Some r
    /\ (kernel_reason r
        \/ (LedgerEntry.operation e = "evaluate"
            /\ LedgerEntry.condition_result e = Some true)).
Proof.
  intros Hm. revert e.
  assert (Forall well_reasoned (Ledger._entries (ledger m))) as HF.
  { induction Hm as [|m p Hm IH Hp].
    - repeat constructor. discriminate.
    - destruct (run_extends_ledger p m) as (l & -> & Hl).
      apply Forall_app. split; assumption. }
  intros e Hin. rewrite Forall_forall in HF. apply HF. apply list_elem_of_In. exact Hin.
Qed.
End BreakReasons.

(** ** Supersession: at most one current expression in a class *)

Section Versions.
Context {C : Type} `{EqDecision C}.
Local Abbreviation item := (Z * (C * Version.t))%type.
Implicit Types (l : list item) (x y : item) (cls : C) (n : Z).

Lemma cur_app cls l1 l2 : cur cls (l1 ++ l2) = (cur cls l1 + cur cls l2)%nat.
Proof. unfold cur. rewrite filter_app, length_app. reflexivity. Qed.

Lemma cur_cons cls x l :
  cur cls (x :: l) = ((if decide (is_current_of cls x) then 1 else 0) + cur cls l)%nat.
Proof. unfold cur. rewrite filter_cons. destruct (decide _); reflexivity. Qed.

Lemma cur_nil cls : cur cls [] = 0%nat.
Proof. reflexivity. Qed.

Lemma v_expire_split eid l :
  v_expire eid l = l
  \/ exists l1 x l2, l = l1 ++ x :: l2
                     /\ v_expire eid l = l1 ++ (x.1, (x.2.1, Version.EXPIRED)) :: l2.
Proof.
  induction l as [|x r IH]; simpl; [left; reflexivity|].
  destruct (x.1 =? eid).
  - right. exists [], x, r. split; reflexivity.
  - destruct IH as [->|(l1 & y & l2 & -> & ->)]; [left; reflexivity|].
    right. exists (x :: l1), y, l2. split; reflexivity.
Qed.

Lemma InvV_expire eid l n : InvV l n -> InvV (v_expire eid l) n.
Proof.
  intros (Ha & Hc & Hd).
  destruct (v_expire_split eid l) as [->|(l1 & x & l2 & -> & ->)]; [repeat split; assumption|].
  assert (forall cls, cur cls (l1 ++ (x.1, (x.2.1, Version.EXPIRED)) :: l2)
                      = (cur cls l1 + cur cls l2)%nat) as Hnew.
  { intros cls. rewrite cur_app, cur_cons. destruct (decide _) as [Hx|]; [|reflexivity].
    unfold is_current_of in Hx. simpl in Hx. discriminate. }
  assert (forall cls, cur cls (l1 ++ x :: l2)
                      = (cur cls l1 + ((if decide (is_current_of cls x) then 1 else 0)
                                       + cur cls l2))%nat) as Hold.
  { intros cls. rewrite cur_app, cur_cons. reflexivity. }
  repeat split.
  - intros y Hy. rewrite elem_of_app, elem_of_cons in Hy.
    destruct Hy as [Hy|[->|Hy]].
    + apply Ha. rewrite elem_of_app. auto.
    + simpl. apply (Ha x). rewrite elem_of_app, elem_of_cons. auto.
    + apply Ha. rewrite elem_of_app, elem_of_cons. auto.
  - intros cls. specialize (Hc cls). rewrite Hold in Hc. rewrite Hnew. lia.
  - intros y Hy Hsup.
    assert (y ∈ l1 ++ x :: l2) as Hy'.
    { rewrite elem_of_app, elem_of_cons in Hy. rewrite elem_of_app, elem_of_cons.
      destruct Hy as [Hy|[->|Hy]]; auto. simpl in Hsup. discriminate. }
    destruct (Hd y Hy' Hsup) as [Hone|(z & Hz & Hze)].
    + rewrite Hold in Hone. rewrite Hnew.
      destruct (decide (is_current_of y.2.1 x)) as [Hx|]; [|left; lia].
      right. exists (x.1, (x.2.1, Version.EXPIRED)). split.
      * rewrite elem_of_app, elem_of_cons. auto.
      * simpl. unfold is_current_of in Hx. rewrite Hx. reflexivity.
    + right. rewrite elem_of_app, elem_of_cons in Hz.
      destruct Hz as [Hz|[->|Hz]].
      * exists z. split; [rewrite elem_of_app; auto|exact Hze].
      * exists (x.1, (x.2.1, Version.EXPIRED)). split.
        -- rewrite elem_of_app, elem_of_cons. auto.
        -- simpl. rewrite Hze. reflexivity.
      * exists z. split; [rewrite elem_of_app, elem_of_cons; auto|exact Hze].
Qed.

Lemma cur_supersede_same cls l : cur cls (v_supersede cls l) = 0%nat.
Proof.
  induction l as [|x l IH]; [reflexivity|]. unfold v_supersede in *. simpl.
  rewrite cur_cons, IH.
  destruct (decide (is_current_of cls x)) as [Hx|Hx].
  - destruct (decide _) as [Hy|]; [|reflexivity]. unfold is_current_of in Hy. discriminate.
  - destruct (decide _); [contradiction|reflexivity].
Qed.

Lemma cur_supersede_other cls c l : c <> cls -> cur c (v_supersede cls l) = cur c l.
Proof.
  intros Hne. induction l as [|x l IH]; [reflexivity|]. unfold v_supersede in *. simpl.
  rewrite !cur_cons, IH. f_equal.
  destruct (decide (is_current_of cls x)) as [Hx|Hx]; [|reflexivity].
  unfold is_current_of in *.
  destruct (decide _) as [Hy|], (decide _) as [Hz|]; try reflexivity.
  - simpl in Hy. congruence.
  - rewrite Hx in Hz. congruence.
Qed.

Lemma elem_of_supersede cls l y :
  y ∈ v_supersede cls l ->
  exists x, x ∈ l /\ y.1 = x.1
            /\ (y = x \/ (x.2 = (cls, Version.CURRENT) /\ y.2 = (cls, Version.SUPERSEDED))).
Proof.
  unfold v_supersede. rewrite list_elem_of_fmap. intros (x & -> & Hx). exists x.
  split; [exact Hx|]. destruct (decide (is_current_of cls x)) as [Hc|]; simpl; auto.
Qed.

Lemma elem_of_supersede_keep cls l x :
  x ∈ l -> x.2.2 <> Version.CURRENT -> x ∈ v_supersede cls l.
Proof.
  intros Hx Hne. unfold v_supersede. rewrite list_elem_of_fmap. exists x. split; [|exact Hx].
  destruct (decide (is_current_of cls x)) as [Hc|]; [|reflexivity].
  unfold is_current_of in Hc. rewrite Hc in Hne. contradiction.
Qed.

Lemma InvV_submit cls l n :
  InvV l n -> InvV (v_supersede cls l ++ [(n, (cls, Version.CURRENT))]) (n + 1).
Proof.
  intros (Ha & Hc & Hd).
  assert (forall c, cur c (v_supersede cls l ++ [(n, (cls, Version.CURRENT))])
                    = if decide (c = cls) then 1%nat else cur c l) as Hcur.
  { intros c. rewrite cur_app, cur_cons, cur_nil.
    destruct (decide (c = cls)) as [->|Hne].
    - rewrite cur_supersede_same. destruct (decide _) as [|Hn]; [reflexivity|].
      exfalso. apply Hn. reflexivity.
    - rewrite cur_supersede_other by exact Hne.
      destruct (decide _) as [Hx|]; [|lia]. unfold is_current_of in Hx. simpl in Hx. congruence. }
  repeat split.
  - intros y Hy. rewrite elem_of_app, list_elem_of_singleton in Hy.
    destruct Hy as [Hy| ->]; [|simpl; lia].
    apply elem_of_supersede in Hy as (x & Hx & -> & _). specialize (Ha x Hx). lia.
  - intros c. rewrite Hcur. destruct (decide _); [lia|apply Hc].
  - intros y Hy Hsup. rewrite Hcur. rewrite elem_of_app, list_elem_of_singleton in Hy.
    destruct Hy as [Hy| ->]; [|simpl in Hsup; discriminate].
    destruct (decide (y.2.1 = cls)) as [|Hne]; [left; reflexivity|].
    apply elem_of_supersede in Hy as (x & Hx & _ & [->|[_ Hy]]);
      [|rewrite Hy in Hne; simpl in Hne; contradiction].
    destruct (Hd x Hx Hsup) as [Hone|(z & Hz & Hze)]; [left; exact Hone|].
    right. exists z. split; [|exact Hze]. rewrite elem_of_app. left.
    apply elem_of_supersede_keep; [exact Hz|]. rewrite Hze. discriminate.
Qed.
End Versions.

Section Supersession.
Context `{Host}.
Implicit Types (d : list (Z * Expression.t)).

Lemma view_alter_status s eid d :
  view (dict_alter (Expression.with_status s) eid d) = view d.
Proof.
  induction d as [|[k e] d IH]; simpl; [reflexivity|].
  destruct (k =? eid); simpl; [reflexivity|]. rewrite IH. reflexivity.
Qed.

Lemma view_alter_expire eid d :
  view (dict_alter (Expression.with_version Version.EXPIRED) eid d) = v_expire eid (view d).
Proof.
  induction d as [|[k e] d IH]; simpl; [reflexivity|].
  destruct (k =? eid); simpl; [reflexivity|]. rewrite IH. reflexivity.
Qed.

Lemma supersedes_spec sid action label e :
  supersedes sid action label e = true
  <-> (class_of e, Expression.version e) = ((sid, label, action), Version.CURRENT).
Proof.
  unfold supersedes, class_of. rewrite !andb_true_iff, Z.eqb_eq, !String.eqb_eq.
  split.
  - intros (((-> & ->) & ->) & Hv). destruct (Expression.version e); try discriminate.
    reflexivity.
  - intros [= -> -> -> ->]. repeat split; reflexivity.
Qed.

Lemma view_superseded sid action label d :
  view (superseded sid action label d) = v_supersede (sid, label, action) (view d).
Proof.
  induction d as [|[k e] d IH]; simpl; [reflexivity|]. rewrite IH. f_equal.
  unfold is_current_of. simpl.
  destruct (supersedes sid action label e) eqn:Hs.
  - apply supersedes_spec in Hs. destruct (decide _) as [|Hn]; [|contradiction].
    simpl. injection Hs as <- <- <- _. reflexivity.
  - destruct (decide _) as [Hd|]; [|reflexivity].
    apply supersedes_spec in Hd. congruence.
Qed.

Lemma view_set_fresh n e d :
  (forall x, x ∈ view d -> x.1 < n) ->
  view (dict_set n e d) = view d ++ [(n, (class_of e, Expression.version e))].
Proof.
  induction d as [|[k e'] d IH]; simpl; intros Hlt; [reflexivity|].
  destruct (Z.eqb_spec k n) as [->|Hne].
  - specialize (Hlt (n, (class_of e', Expression.version e')) ltac:(left)). simpl in Hlt. lia.
  - simpl. rewrite IH; [reflexivity|]. intros x Hx. apply Hlt. right. exact Hx.
Qed.

Lemma currents_view cls d : length (currents cls d) = cur cls (view d).
Proof.
  unfold currents, cur, view. induction d as [|[k e] d IH]; [reflexivity|].
  rewrite fmap_cons, !filter_cons. simpl. unfold is_current_of. simpl.
  destruct (decide (class_of e = cls /\ _)) as [[<- Hv]|Hn].
  - rewrite Hv. destruct (decide _) as [|Hn]; [|contradiction]. simpl. rewrite IH. reflexivity.
  - destruct (decide _) as [Hd|]; [|exact IH]. exfalso. apply Hn.
    injection Hd as -> ->. split; reflexivity.
Qed.

Lemma run_versions_consistent (p : Prog) (m : Mary) :
  calls_only no_submit_loop p ->
  versions_consistent (_expressions m, _next_expr_id m) ->
  versions_consistent (_expressions (snd (run p m)), _next_expr_id (snd (run p m))).
Proof.
  intros Hp.
  refine (proj2 (run_preserves no_submit_loop (fun _ _ => True)
                               (fun x y => versions_consistent x -> versions_consistent y)
                               _ _ _ _ _ _ _ _ _ p Hp m)); auto.
  - unfold versions_consistent. intros d n eid s. simpl. rewrite view_alter_status. auto.
  - unfold versions_consistent. intros d n eid. simpl. rewrite view_alter_expire.
    apply InvV_expire.
  - unfold versions_consistent. intros d n sid cond label action act t scope is_refusal Hinv.
    simpl in *. rewrite view_set_fresh, view_superseded.
    + apply InvV_submit. exact Hinv.
    + rewrite view_superseded. intros x Hx.
      apply elem_of_supersede in Hx as (y & Hy & -> & _). apply Hinv. exact Hy.
  - intros d n sid cond label action act t lc lm [].
Qed.

Lemma reachable_versions_consistent (m : Mary) :
  reachable no_submit_loop m ->
  versions_consistent (_expressions m, _next_expr_id m).
Proof.
  induction 1 as [|m p Hm IH Hp].
  - assert (_expressions Mary_new = []) as -> by reflexivity.
    repeat split; simpl.
    + intros x Hx. apply not_elem_of_nil in Hx. contradiction.
    + intros cls. unfold cur. simpl. lia.
    + intros x Hx. apply not_elem_of_nil in Hx. contradiction.
  - apply run_versions_consistent; assumption.
Qed.

End Supersession.

(** ** Loops *)

Section Loops.
Context `{Host}.

Lemma bind_Ok_inv {A B : Type} (c : M A) (f : A -> M B) m b m' :
  bind c f m = (Ok b, m') -> exists a m1, c m = (Ok a, m1) /\ f a m1 = (Ok b, m').
Proof. unfold bind. destruct (c m) as [[a|e] m1]; [eauto|discriminate]. Qed.

Lemma evaluate_loop_from_count expr max_iter remaining count m st count' m' :
  evaluate_loop_from run expr max_iter remaining count m = (Ok (st, count'), m') ->
  count <= count' <= count + Z.of_nat remaining.
Proof.
  revert count m. induction remaining as [|remaining IH]; intros count m; simpl; intros Hr.
  - apply bind_Ok_inv in Hr as (_ & m1 & _ & [= _ <- _]). lia.
  - apply bind_Ok_inv in Hr as (stop & m1 & _ & Hr). destruct stop.
    + apply bind_Ok_inv in Hr as (_ & m2 & _ & [= _ <- _]). lia.
    + apply bind_Ok_inv in Hr as (status & m2 & _ & Hr).
      destruct status as [[| |]|]; try (injection Hr as _ <- _; lia);
        apply IH in Hr; lia.
Qed.

Lemma total_ret {A} (a : A) : total (ret a).
Proof. intros m. eexists _, _. reflexivity. Qed.

Lemma total_bind {A B} (c : M A) (f : A -> M B) :
  total c -> (forall a, total (f a)) -> total (bind c f).
Proof.
  intros Hc Hf m. destruct (Hc m) as (a & m1 & Hc1). unfold bind. rewrite Hc1. apply Hf.
Qed.

Lemma total_try {A} (c : M A) : total (try c).
Proof. intros m. unfold try. destruct (c m). eexists _, _. reflexivity. Qed.

Lemma total_gets {A} (f : Mary -> A) : total (gets f).
Proof. intros m. eexists _, _. reflexivity. Qed.

Lemma total_modify f : total (modify f).
Proof. intros m. eexists _, _. reflexivity. Qed.

Lemma total_now : total now.
Proof. intros m. eexists _, _. reflexivity. Qed.

Lemma total_ledger_append sid op a c cr st sb sa br :
  total (ledger_append sid op a c cr st sb sa br).
Proof. intros m. eexists _, _. reflexivity. Qed.

Ltac total_step :=
  first
    [ apply total_ret | apply total_gets | apply total_now | apply total_modify
    | apply total_ledger_append | apply total_try
    | apply total_bind; [|intros ?] ].

Lemma total_evaluate call expr : total (evaluate call expr).
Proof.
  unfold evaluate, authenticate, is_current, set_status, set_version, scope_passed.
  cbv zeta.
  apply total_bind; [total_step|intros auth]. destruct auth; simpl; [|repeat total_step].
  apply total_bind; [total_step|intros cur]. destruct cur; simpl; [|repeat total_step].
  apply total_bind.
  { destruct (Expression.scope_until expr) as [u|]; [|total_step].
    destruct (float_bool u); repeat total_step. }
  intros passed. destruct passed; [repeat total_step|].
  apply total_bind.
  { destruct (Expression.condition expr); repeat total_step. }
  intros met. destruct met; simpl; [|repeat total_step].
  apply total_bind.
  { destruct (Expression.action_fn expr); repeat total_step. }
  intros [fulfilled|e]; [|repeat total_step].
  destruct (Expression.is_refusal expr), fulfilled; simpl; repeat total_step.
Qed.

Lemma total_supersede new sid action label items :
  total (supersede new sid action label items).
Proof.
  induction items as [|[eid existing] items IH]; simpl; [total_step|].
  destruct (_ && _); repeat total_step; apply IH.
Qed.

(** [submit] never raises: the exceptions of the callables are caught. *)
Lemma total_submit call sid cond label action act is_refusal scope :
  total (submit call sid cond label action act is_refusal scope).
Proof.
  unfold submit, authenticate.
  apply total_bind; [total_step|intros auth]. destruct auth; simpl; [|repeat total_step].
  repeat first [ apply total_supersede | apply total_evaluate | total_step ].
Qed.

(** The entries of the supersession scan. *)
Lemma supersede_entries new sid action label items m :
  exists l c h,
    supersede new sid action label items m
    = (Ok (superseded sid action label items),
       set_ledger (Ledger.mk _ (Ledger._entries (ledger m) ++ l) h) (set_clock c m))
    /\ Forall is_supersede l.
Proof.
  revert m. induction items as [|[eid existing] items IH]; intros m; simpl.
  - exists [], (clock m), (Ledger._last_hash (ledger m)). split; [|constructor].
    rewrite app_nil_r. destruct m as [? ? [? ?] ? ? ? ? ? ?]. reflexivity.
  - fold (supersedes sid action label existing).
    destruct (supersedes sid action label existing).
    + unfold bind at 1. rewrite ledger_append_eq.
      match goal with
      | |- context [bind _ _ ?m1] => destruct (IH m1) as (l & c & h & Heq & Hl)
      end.
      unfold bind. rewrite Heq. eexists (_ :: l), c, h. split.
      * simpl. rewrite <- app_assoc. destruct m. reflexivity.
      * constructor; [split; reflexivity|exact Hl].
    + destruct (IH m) as (l & c & h & Heq & Hl).
      unfold bind. rewrite Heq. exists l, c, h. split; [reflexivity|exact Hl].
Qed.

(** The evaluation of a current expression of an authenticated speaker whose
    condition holds and whose action returns [False] logs one entry, a
    broken [evaluate]. *)
Lemma evaluate_failing_action (expr e0 : Expression.t) (m : Mary) :
  SpeakerRegistry.authenticate (Expression.speaker_id expr) (registry m) = true ->
  dict_get (Expression.expression_id expr) (_expressions m) = Some e0 ->
  Expression.version e0 = Version.CURRENT ->
  Expression.scope_until expr = None ->
  Expression.condition expr = Some (Ret (VBool true)) ->
  Expression.action_fn expr = Some (Ret (VBool false)) ->
  Expression.is_refusal expr = false ->
  exists e,
    Ledger._entries (ledger (snd (evaluate run expr m))) = Ledger._entries (ledger m) ++ [e]
    /\ LedgerEntry.operation e = "evaluate"
    /\ LedgerEntry.status e = Some Status.BROKEN
    /\ LedgerEntry.break_reason e = Some "action_not_fulfilled".
Proof.
  intros Hauth Hget Hver Hscope Hcond Hact Href.
  unfold evaluate. cbv zeta.
  unfold bind at 1, authenticate, gets at 1. rewrite Hauth. cbn [negb].
  unfold bind at 1, is_current, gets at 1. rewrite Hget, Hver. cbn [negb Version.eqb].
  unfold scope_passed. rewrite Hscope, Hcond, Hact, Href.
  eexists. simpl. repeat split; reflexivity.
Qed.

(** What the [submit] of an expression whose condition holds and whose
    action returns [False] writes to the ledger: the [supersede] entries,
    then the broken [evaluate] entry; or, when the speaker is not
    authenticated, one broken [submit] entry. *)
Lemma submit_failing_action_entries sid label action (m : Mary) :
  exists l e,
    Ledger._entries
      (ledger (snd (submit run sid (Some (Ret (VBool true))) label action
                           (Some (Ret (VBool false))) false None m)))
    = Ledger._entries (ledger m) ++ l ++ [e]
    /\ Forall is_supersede l
    /\ LedgerEntry.status e = Some Status.BROKEN
    /\ (LedgerEntry.operation e = "evaluate"
        /\ LedgerEntry.break_reason e = Some "action_not_fulfilled"
        \/ LedgerEntry.operation e = "submit"
           /\ LedgerEntry.break_reason e = Some "speaker_not_authenticated").
Proof.
  unfold submit. unfold bind at 1, authenticate, gets at 1.
  destruct (SpeakerRegistry.authenticate sid (registry m)) eqn:Hauth; cbn [negb].
  - unfold bind at 1 2 3 4 5 6, gets at 1 2, now, modify. cbv beta iota.
    match goal with
    | |- context [supersede ?n ?s ?a ?l ?i ?m1] =>
        destruct (supersede_entries n s a l i m1) as (l1 & c & h & Heq & Hl); rewrite Heq
    end.
    cbv beta iota. exists l1.
    match goal with
    | |- context [bind (evaluate _ ?e) _ ?m1] =>
        destruct (evaluate_failing_action e e m1) as (en & Hen & Hop & Hst & Hbr);
          [exact Hauth|simpl; rewrite dict_get_set, Z.eqb_refl; reflexivity
          |reflexivity|reflexivity|reflexivity|reflexivity|reflexivity|];
          unfold bind; destruct (evaluate run e m1) as [[r|r] m2]
    end; simpl in Hen |- *; exists en; rewrite Hen, <- app_assoc; auto 10.
  - exists []. simpl. eexists. split; [reflexivity|].
    split; [constructor|]. split; [reflexivity|right; split; reflexivity].
Qed.

End Loops.

(** * The kernel state: what every run keeps *)

(** ** Relations between states that every call keeps *)

Section StatePreservation.
Context `{Host}.
Variable T : Mary -> Mary -> Prop.

Hypothesis T_trans : forall m1 m2 m3, T m1 m2 -> T m2 m3 -> T m1 m3.
Hypothesis T_frame :
  forall m m', registry m' = registry m -> memory m' = memory m -> bus m' = bus m -> T m m'.
Hypothesis T_create :
  forall m t name,
    T m (set_memory (Memory.create_partition (SpeakerRegistry._next_id (registry m)) (memory m))
           (set_registry (snd (SpeakerRegistry.create t name (registry m))) m)).
Hypothesis T_suspend :
  forall m target,
    T m (set_registry (snd (SpeakerRegistry.suspend target (registry m))) m).
Hypothesis T_write :
  forall m c var v, T m (set_memory (snd (Memory.write c var v (memory m))) m).
Hypothesis T_request :
  forall m t from to action data expires_at,
    T m (set_bus (snd (RequestBus.create_request t from to action data expires_at (bus m))) m).
Hypothesis T_respond :
  forall m rid c accept data,
    T m (set_bus (snd (RequestBus.respond rid c accept data (bus m))) m).

Local Abbreviation st := (stable T).

Lemma T_refl m : T m m.
Proof. apply T_frame; reflexivity. Qed.

Lemma st_frame {A} (c : M A) :
  (forall m, registry (snd (c m)) = registry m
             /\ memory (snd (c m)) = memory m
             /\ bus (snd (c m)) = bus m) ->
  st c.
Proof. intros Hc m. destruct (Hc m) as (? & ? & ?). apply T_frame; assumption. Qed.

Lemma st_ret {A} (a : A) : st (ret a).
Proof. intros m. apply T_refl. Qed.

Lemma st_raise {A} msg : st (@raise _ A msg).
Proof. intros m. apply T_refl. Qed.

Lemma st_bind {A B} (c : M A) (f : A -> M B) :
  st c -> (forall a, st (f a)) -> st (bind c f).
Proof.
  intros Hc Hf m. unfold bind. specialize (Hc m).
  destruct (c m) as [[a|e] m']; simpl in *; [|exact Hc].
  eapply T_trans; [exact Hc|apply Hf].
Qed.

Lemma st_try {A} (c : M A) : st c -> st (try c).
Proof. intros Hc m. unfold try. specialize (Hc m). destruct (c m). exact Hc. Qed.

Lemma st_gets {A} (f : Mary -> A) : st (gets f).
Proof. intros m. apply T_refl. Qed.

Lemma st_now : st now.
Proof. apply st_frame. intros m. repeat split. Qed.

Lemma st_ledger_append sid op a c cr s sb sa br :
  st (ledger_append sid op a c cr s sb sa br).
Proof. apply st_frame. intros m. repeat split. Qed.

Lemma st_set_status eid s : st (set_status eid s).
Proof. apply st_frame. intros m. repeat split. Qed.

Lemma st_set_version eid v : st (set_version eid v).
Proof. apply st_frame. intros m. repeat split. Qed.

Ltac st_step :=
  first
    [ apply st_ret | apply st_raise | apply st_gets | apply st_now
    | apply st_set_status | apply st_set_version
    | apply st_ledger_append
    | apply st_try
    | apply st_bind; [|intros ?] ].

Ltac st_raw :=
  apply st_frame; intros ?m; simpl;
  repeat match goal with
         | |- context [let '(_, _) := ?x in _] => destruct x
         end;
  simpl; auto.

Section WithCall.
Variable call : Prog -> M (Value float).

Lemma st_scope_passed expr : st (scope_passed expr).
Proof.
  unfold scope_passed. destruct (Expression.scope_until expr) as [u|]; [|apply st_ret].
  destruct (float_bool u); repeat st_step.
Qed.

Lemma st_evaluate expr :
  (forall q, Expression.condition expr = Some q -> st (call q)) ->
  (forall q, Expression.action_fn expr = Some q -> st (call q)) ->
  st (evaluate call expr).
Proof.
  intros Hc Ha. unfold evaluate, authenticate, is_current. cbv zeta.
  apply st_bind; [st_step|intros auth]. destruct auth; simpl; [|repeat st_step].
  apply st_bind; [st_step|intros cur]. destruct cur; simpl; [|repeat st_step].
  apply st_bind; [apply st_scope_passed|intros passed].
  destruct passed; [repeat st_step|].
  apply st_bind.
  { destruct (Expression.condition expr) as [q|]; [|st_step].
    apply st_bind; [apply st_try, Hc; reflexivity|intros r; st_step]. }
  intros met. destruct met; simpl; [|repeat st_step].
  apply st_bind.
  { destruct (Expression.action_fn expr) as [q|]; [|st_step].
    apply st_bind; [apply st_try, Ha; reflexivity|intros r; st_step]. }
  intros [fulfilled|e]; [|repeat st_step].
  destruct (Expression.is_refusal expr), fulfilled; simpl; repeat st_step.
Qed.

Lemma st_evaluate_loop_from expr max_iter remaining count :
  (forall q, Expression.condition expr = Some q -> st (call q)) ->
  (forall q, Expression.action_fn expr = Some q -> st (call q)) ->
  (forall q, Expression.loop_condition expr = Some q -> st (call q)) ->
  st (evaluate_loop_from call expr max_iter remaining count).
Proof.
  intros Hc Ha Hl. revert count. induction remaining as [|remaining IH]; intros count; simpl.
  - repeat st_step.
  - apply st_bind.
    { destruct (Expression.loop_condition expr) as [q|]; [|st_step].
      apply st_bind; [apply Hl; reflexivity|intros v; st_step]. }
    intros stop. destruct stop; [repeat st_step|].
    apply st_bind; [apply st_evaluate; assumption|].
    intros [[| |]|]; try st_step; apply IH.
Qed.

Lemma st_create_speaker caller name : st (create_speaker caller name).
Proof.
  unfold create_speaker, authenticate.
  apply st_bind; [st_step|intros auth]. destruct auth; simpl; [|repeat st_step].
  apply st_bind; [st_step|intros t].
  intros m. unfold bind at 1 2, modify. simpl.
  eapply T_trans; [apply (T_create m t name)|apply T_frame; reflexivity].
Qed.

Lemma st_suspend_speaker caller target : st (suspend_speaker caller target).
Proof.
  unfold suspend_speaker. destruct (caller =? 0); simpl; [|repeat st_step].
  intros m. unfold bind at 1.
  pose proof (T_suspend m target) as HT.
  destruct (SpeakerRegistry.suspend target (registry m)) as [success r].
  eapply T_trans; [exact HT|apply T_frame; reflexivity].
Qed.

Lemma st_read caller owner var : st (read caller owner var).
Proof.
  unfold read, authenticate. cbv zeta.
  apply st_bind; [st_step|intros auth]. destruct auth; simpl; repeat st_step.
Qed.

Lemma st_write caller var value : st (write caller var value).
Proof.
  unfold write, authenticate.
  apply st_bind; [st_step|intros auth]. destruct auth; simpl; [|repeat st_step].
  intros m. unfold bind at 1.
  pose proof (T_write m caller var value) as HT.
  destruct (Memory.write caller var value (memory m)) as [[success old] mem].
  eapply T_trans; [exact HT|apply T_frame; reflexivity].
Qed.

Lemma st_write_to caller target var value : st (write_to caller target var value).
Proof.
  unfold write_to. destruct (caller =? target); simpl; [apply st_write|repeat st_step].
Qed.

Lemma st_expression_status caller eid : st (expression_status caller eid).
Proof.
  unfold expression_status, authenticate.
  apply st_bind; [st_step|intros auth]. destruct auth; simpl; [|repeat st_step].
  apply st_bind; [st_step|intros [e|]]; st_step.
Qed.

Lemma st_request caller target action data timeout :
  st (request caller target action data timeout).
Proof.
  unfold request, authenticate. cbv zeta.
  apply st_bind; [st_step|intros auth]. destruct auth; simpl; [|repeat st_step].
  apply st_bind; [st_step|intros auth]. destruct auth; simpl; [|repeat st_step].
  apply st_bind.
  { destruct timeout as [t|]; [|st_step]. destruct (float_bool t); repeat st_step. }
  intros expires. apply st_bind; [st_step|intros t].
  intros m. unfold bind at 1.
  eapply T_trans; [exact (T_request m t caller target action data expires)
                  |apply T_frame; reflexivity].
Qed.

Lemma st_respond caller rid accept data : st (respond caller rid accept data).
Proof.
  unfold respond.
  apply st_bind; [st_step|intros [req|]]; [|repeat st_step].
  destruct (Request.to_speaker req =? caller); simpl; [|repeat st_step].
  intros m. unfold bind at 1.
  pose proof (T_respond m rid caller accept data) as HT.
  destruct (RequestBus.respond rid caller accept data (bus m)) as [r b].
  eapply T_trans; [exact HT|apply T_frame; reflexivity].
Qed.

Lemma st_ledger_count caller : st (ledger_count caller).
Proof.
  unfold ledger_count, authenticate.
  apply st_bind; [st_step|intros auth]. destruct auth; simpl; repeat st_step.
Qed.

Lemma st_supersede new sid action label items :
  st (supersede new sid action label items).
Proof.
  induction items as [|[eid existing] items IH]; simpl; [st_step|].
  destruct (_ && _); repeat st_step; apply IH.
Qed.

Lemma st_submit sid cond label action act is_refusal scope :
  (forall q, cond = Some q -> st (call q)) ->
  (forall q, act = Some q -> st (call q)) ->
  st (submit call sid cond label action act is_refusal scope).
Proof.
  intros Hc Ha. unfold submit, authenticate.
  apply st_bind; [st_step|intros auth]. destruct auth; simpl; [|repeat st_step].
  apply st_bind; [st_step|intros next].
  apply st_bind; [st_step|intros t].
  apply st_bind; [st_raw|intros _].
  apply st_bind; [st_step|intros items].
  apply st_bind; [apply st_supersede|intros items'].
  apply st_bind; [st_raw|intros _].
  apply st_bind; [apply st_evaluate; simpl; assumption|intros; st_step].
Qed.

Lemma st_submit_loop sid cond label action act lc lm :
  (forall q, cond = Some q -> st (call q)) ->
  (forall q, act = Some q -> st (call q)) ->
  (forall q, lc = Some q -> st (call q)) ->
  st (submit_loop call sid cond label action act lc lm).
Proof.
  intros Hc Ha Hl. unfold submit_loop, authenticate.
  apply st_bind; [st_step|intros auth]. destruct auth; simpl; [|repeat st_step].
  apply st_bind; [st_step|intros next].
  apply st_bind; [st_step|intros t].
  apply st_bind; [st_raw|intros _].
  apply st_bind; [st_raw|intros _].
  apply st_bind.
  { unfold evaluate_loop. apply st_evaluate_loop_from; simpl; assumption. }
  intros [s count]. repeat st_step.
Qed.

Lemma st_exec c :
  Forall (fun q => st (call q)) (callables c) -> st (exec call c).
Proof.
  intros Hq. destruct c; simpl in *.
  - apply st_bind; [apply st_create_speaker|intros; st_step].
  - apply st_bind; [apply st_suspend_speaker|intros; st_step].
  - apply st_read.
  - apply st_bind; [apply st_write|intros; st_step].
  - apply st_bind; [apply st_write_to|intros; st_step].
  - apply st_bind; [|intros; st_step].
    apply Forall_option_list in Hq as [Hc Hq].
    rewrite <- (app_nil_r (option_list action_fn)) in Hq.
    apply Forall_option_list in Hq as [Ha _].
    apply st_submit; assumption.
  - apply st_bind; [|intros; st_step].
    apply Forall_option_list in Hq as [Hc Hq].
    apply Forall_option_list in Hq as [Ha Hq].
    rewrite <- (app_nil_r (option_list loop_condition)) in Hq.
    apply Forall_option_list in Hq as [Hl _].
    apply st_submit_loop; assumption.
  - apply st_bind; [apply st_expression_status|intros; st_step].
  - apply st_bind; [apply st_request|intros; st_step].
  - apply st_bind; [apply st_respond|intros; st_step].
  - apply st_bind; [apply st_ledger_count|intros; st_step].
  - apply st_bind; [apply st_gets|intros; st_step].
Qed.
End WithCall.

Theorem run_stable p : st (run p).
Proof.
  induction p as [v|msg|c k IHc IHk] using Prog_induction.
  - apply st_ret.
  - apply st_raise.
  - simpl. apply st_bind; [apply st_exec; exact IHc|intros v; apply IHk].
Qed.
End StatePreservation.

(** ** Well-formed states *)

Section Evolution.
Context `{Host}.

Lemma speakers_persist_refl r : speakers_persist r r.
Proof. split; [lia|]. intros k sp Hk. exists sp. auto. Qed.

Lemma speakers_persist_trans r1 r2 r3 :
  speakers_persist r1 r2 -> speakers_persist r2 r3 -> speakers_persist r1 r3.
Proof.
  intros [Hn2 Hs2] [Hn3 Hs3]. split; [lia|].
  intros k sp Hk. destruct (Hs2 k sp Hk) as (sp2 & Hk2 & Hname2 & Hc2 & Hst2).
  destruct (Hs3 k sp2 Hk2) as (sp3 & Hk3 & Hname3 & Hc3 & Hst3).
  exists sp3. repeat split; [exact Hk3|congruence|congruence|auto].
Qed.

Lemma evolves_trans m1 m2 m3 : evolves m1 m2 -> evolves m2 m3 -> evolves m1 m3.
Proof.
  intros H12 H23 Hwf. destruct (H12 Hwf) as (Hwf2 & Hs2 & Hr2).
  destruct (H23 Hwf2) as (Hwf3 & Hs3 & Hr3).
  split; [exact Hwf3|]. split; [eapply speakers_persist_trans; eassumption|auto].
Qed.

Lemma evolves_frame m m' :
  registry m' = registry m -> memory m' = memory m -> bus m' = bus m -> evolves m m'.
Proof.
  intros Hr Hm Hb Hwf. unfold well_formed. rewrite Hr, Hm, Hb.
  split; [exact Hwf|]. split; [apply speakers_persist_refl|auto].
Qed.

Lemma registry_fresh r :
  wf_registry r -> SpeakerRegistry._speakers r !! SpeakerRegistry._next_id r = None.
Proof.
  intros [Hids _]. destruct (_ !! _) as [sp|] eqn:Hk; [|reflexivity].
  apply Hids in Hk. lia.
Qed.

Lemma wf_registry_create r t name :
  wf_registry r -> wf_registry (snd (SpeakerRegistry.create t name r)).
Proof.
  intros Hwf. pose proof (registry_fresh r Hwf) as Hfresh. destruct Hwf as [Hids Hsize].
  split; simpl.
  - intros k sp. rewrite lookup_insert. case_decide as Hk.
    + intros [= <-]. simpl. subst k.
      split; [reflexivity|]. lia.
    + intros Hsp. apply Hids in Hsp. lia.
  - rewrite map_size_insert_None by exact Hfresh. lia.
Qed.

Lemma persist_create r t name :
  wf_registry r -> speakers_persist r (snd (SpeakerRegistry.create t name r)).
Proof.
  intros Hwf. pose proof (registry_fresh r Hwf) as Hfresh.
  split; simpl; [lia|]. intros k sp Hk. exists sp.
  rewrite lookup_insert_ne by congruence. auto.
Qed.

Lemma wf_memory_create r mem t name :
  wf_registry r -> wf_memory r mem ->
  wf_memory (snd (SpeakerRegistry.create t name r))
            (Memory.create_partition (SpeakerRegistry._next_id r) mem).
Proof.
  intros Hwf Hmem. pose proof (registry_fresh r Hwf) as Hfresh.
  assert (Memory._partitions mem !! SpeakerRegistry._next_id r = None) as Hnopart.
  { destruct (Memory._partitions mem !! _) as [p|] eqn:Hk; [|reflexivity].
    assert (is_Some (SpeakerRegistry._speakers r !! SpeakerRegistry._next_id r))
      as [sp Hsp] by (apply Hmem; eexists; exact Hk).
    congruence. }
  intros k. unfold Memory.create_partition. rewrite Hnopart. simpl.
  rewrite !lookup_insert. case_decide.
  - split; intros _; eexists; reflexivity.
  - apply Hmem.
Qed.

Lemma evolves_create m t name :
  evolves m
    (set_memory (Memory.create_partition (SpeakerRegistry._next_id (registry m)) (memory m))
       (set_registry (snd (SpeakerRegistry.create t name (registry m))) m)).
Proof.
  intros (Hreg & Hmem & Hbus). split; [|split].
  - split; [|split].
    + apply wf_registry_create. exact Hreg.
    + apply wf_memory_create; assumption.
    + exact Hbus.
  - apply persist_create. exact Hreg.
  - auto.
Qed.

Lemma wf_registry_suspend r target :
  wf_registry r -> wf_registry (snd (SpeakerRegistry.suspend target r)).
Proof.
  intros [Hids Hsize]. unfold SpeakerRegistry.suspend.
  destruct (SpeakerRegistry._speakers r !! target) as [sp0|] eqn:Ht; simpl;
    [|split; assumption].
  split; simpl.
  - intros k sp. rewrite lookup_insert. case_decide as Hk.
    + intros [= <-]. simpl. subst k. apply Hids. exact Ht.
    + apply Hids.
  - rewrite map_size_insert_Some by (eexists; exact Ht). exact Hsize.
Qed.

Lemma suspend_is_Some r target k :
  is_Some (SpeakerRegistry._speakers (snd (SpeakerRegistry.suspend target r)) !! k)
  <-> is_Some (SpeakerRegistry._speakers r !! k).
Proof.
  unfold SpeakerRegistry.suspend.
  destruct (SpeakerRegistry._speakers r !! target) as [sp0|] eqn:Ht; simpl; [|reflexivity].
  rewrite lookup_insert. case_decide as Hk; [|reflexivity].
  subst k. rewrite Ht. split; intros _; eexists; reflexivity.
Qed.

Lemma persist_suspend r target :
  speakers_persist r (snd (SpeakerRegistry.suspend target r)).
Proof.
  unfold SpeakerRegistry.suspend.
  destruct (SpeakerRegistry._speakers r !! target) as [sp0|] eqn:Ht; simpl;
    [|apply speakers_persist_refl].
  split; simpl; [lia|]. intros k sp Hk. rewrite lookup_insert. case_decide as Hkt.
  - subst k. rewrite Ht in Hk. injection Hk as <-. eexists. split; [reflexivity|].
    simpl. auto.
  - exists sp. auto.
Qed.

Lemma evolves_suspend m target :
  evolves m (set_registry (snd (SpeakerRegistry.suspend target (registry m))) m).
Proof.
  intros (Hreg & Hmem & Hbus). split; [|split].
  - split; [|split]; simpl.
    + apply wf_registry_suspend. exact Hreg.
    + intros k. rewrite suspend_is_Some. apply Hmem.
    + exact Hbus.
  - apply persist_suspend.
  - auto.
Qed.

Lemma write_is_Some mem c var v k :
  is_Some (Memory._partitions (snd (Memory.write c var v mem)) !! k)
  <-> is_Some (Memory._partitions mem !! k).
Proof.
  unfold Memory.write.
  destruct (Memory._partitions mem !! c) as [p|] eqn:Hc; simpl; [|reflexivity].
  rewrite lookup_insert. case_decide as Hk; [|reflexivity].
  subst k. rewrite Hc. split; intros _; eexists; reflexivity.
Qed.

Lemma evolves_write m c var v :
  evolves m (set_memory (snd (Memory.write c var v (memory m))) m).
Proof.
  intros (Hreg & Hmem & Hbus). split; [|split].
  - split; [exact Hreg|split; [|exact Hbus]]. simpl.
    intros k. rewrite write_is_Some. apply Hmem.
  - apply speakers_persist_refl.
  - auto.
Qed.

Lemma wf_bus_create_request b t from to action data expires_at :
  wf_bus b -> wf_bus (snd (RequestBus.create_request t from to action data expires_at b)).
Proof.
  intros (Hp & Hr & Hnd & Hb & Hn). unfold wf_bus. simpl.
  rewrite Forall_app in Hb. destruct Hb as [Hb1 Hb2].
  rewrite map_app in Hnd. apply NoDup_app in Hnd as (Hn1 & Hn12 & Hn2).
  split; [|split; [|split; [|split]]].
  - apply Forall_app. split; [exact Hp|]. repeat constructor.
  - exact Hr.
  - rewrite !map_app. simpl. apply NoDup_app. split; [|split].
    + apply NoDup_app. split; [exact Hn1|]. split; [|apply NoDup_singleton].
      intros x Hx Heq%list_elem_of_singleton. subst x.
      apply list_elem_of_fmap in Hx as (r & Heq & Hin).
      rewrite Forall_forall in Hb1. specialize (Hb1 r Hin). lia.
    + intros x [Hx|Hx%list_elem_of_singleton]%elem_of_app Hin.
      * exact (Hn12 x Hx Hin).
      * subst x. apply list_elem_of_fmap in Hin as (r & Heq & Hin).
        rewrite Forall_forall in Hb2. specialize (Hb2 r Hin). lia.
    + exact Hn2.
  - rewrite !Forall_app. split; [split|].
    + eapply Forall_impl; [exact Hb1|]. simpl. intros; lia.
    + repeat constructor; simpl; lia.
    + eapply Forall_impl; [exact Hb2|]. simpl. intros; lia.
  - lia.
Qed.

Lemma evolves_request m t from to action data expires_at :
  evolves m
    (set_bus (snd (RequestBus.create_request t from to action data expires_at (bus m))) m).
Proof.
  intros (Hreg & Hmem & Hbus). split; [|split].
  - split; [exact Hreg|split; [exact Hmem|]].
    apply wf_bus_create_request. exact Hbus.
  - apply speakers_persist_refl.
  - auto.
Qed.

(** A request found in a list, and the list without it. *)
Lemma find_split rid (l : list Request.t) req :
  RequestBus.find rid l = Some req ->
  exists l1 l2,
    l = l1 ++ req :: l2
    /\ RequestBus.remove rid l = l1 ++ l2
    /\ Request.request_id req = rid
    /\ RequestBus.find rid l1 = None.
Proof.
  induction l as [|x l IH]; simpl; [discriminate|].
  destruct (Z.eqb_spec (Request.request_id x) rid) as [Heq|Hne].
  - intros [= <-]. exists [], l. auto.
  - intros Hf. destruct (IH Hf) as (l1 & l2 & -> & Hrem & Hid & Hnone).
    exists (x :: l1), l2. simpl. rewrite Hrem.
    destruct (Z.eqb_spec (Request.request_id x) rid); [contradiction|]. auto.
Qed.

Lemma wf_bus_respond b rid c accept data :
  wf_bus b -> wf_bus (snd (RequestBus.respond rid c accept data b)).
Proof.
  intros Hwf. unfold RequestBus.respond.
  destruct (RequestBus.find rid (RequestBus._pending b)) as [req|] eqn:Hf; [|exact Hwf].
  destruct (Request.to_speaker req =? c); simpl; [|exact Hwf].
  destruct (RequestStatus.eqb (Request.status req) RequestStatus.PENDING); simpl;
    [|exact Hwf].
  destruct Hwf as (Hp & Hr & Hnd & Hb & Hn).
  destruct (find_split _ _ _ Hf) as (l1 & l2 & Hl & Hrem & Hid & _).
  rewrite Hrem. rewrite Hl in *. clear Hl Hrem.
  unfold wf_bus. simpl.
  split; [|split; [|split; [|split]]].
  - rewrite Forall_app in *. destruct Hp as [Hp1 Hp2]. inversion Hp2; subst. auto.
  - apply Forall_app. split; [exact Hr|]. repeat constructor. simpl.
    destruct accept; discriminate.
  - eapply (NoDup_Permutation_proper); [|exact Hnd].
    rewrite !map_app. simpl. rewrite <- !app_assoc. apply Permutation_app_head.
    rewrite app_assoc. symmetry. apply Permutation_cons_append.
  - rewrite !Forall_app in *. destruct Hb as [[Hb1 Hb2] Hb3].
    inversion Hb2; subst. repeat split; try assumption. repeat constructor; simpl; lia.
  - exact Hn.
Qed.

Lemma respond_resolved_grows b rid c accept data req :
  In req (RequestBus._resolved b) ->
  In req (RequestBus._resolved (snd (RequestBus.respond rid c accept data b))).
Proof.
  intros Hin. unfold RequestBus.respond.
  destruct (RequestBus.find rid (RequestBus._pending b)) as [r|]; [|exact Hin].
  destruct (Request.to_speaker r =? c); simpl; [|exact Hin].
  destruct (RequestStatus.eqb (Request.status r) RequestStatus.PENDING); simpl;
    [|exact Hin].
  apply in_or_app. left. exact Hin.
Qed.

Lemma evolves_respond m rid c accept data :
  evolves m (set_bus (snd (RequestBus.respond rid c accept data (bus m))) m).
Proof.
  intros (Hreg & Hmem & Hbus). split; [|split].
  - split; [exact Hreg|split; [exact Hmem|]].
    apply wf_bus_respond. exact Hbus.
  - apply speakers_persist_refl.
  - intros req. apply respond_resolved_grows.
Qed.

Lemma run_evolves p m : evolves m (snd (run p m)).
Proof.
  apply (run_stable evolves evolves_trans evolves_frame evolves_create evolves_suspend
                    evolves_write evolves_request evolves_respond).
Qed.

Lemma well_formed_new : well_formed Mary_new.
Proof.
  split; [|split].
  - split.
    + intros k sp. simpl. rewrite lookup_insert. case_decide as Hk.
      * intros [= <-]. simpl. lia.
      * rewrite lookup_empty. discriminate.
    + simpl. rewrite map_size_insert_None by apply lookup_empty.
      rewrite map_size_empty. reflexivity.
  - intros k. simpl. unfold Memory.create_partition. simpl. rewrite lookup_empty. simpl.
    rewrite !lookup_insert. case_decide; [split; intros _; eexists; reflexivity|].
    rewrite !lookup_empty. split; intros [? [=]].
  - repeat split; simpl; try constructor. lia.
Qed.

Lemma reachable_well_formed allowed m : reachable allowed m -> well_formed m.
Proof.
  induction 1 as [|m p Hm IH Hp]; [apply well_formed_new|].
  apply (run_evolves p m IH).
Qed.
End Evolution.

(** ** The ledger of a kernel state *)

Section LedgerInvariants.
Context `{Host}.

Lemma reachable_entry_ids L i e :
  ledger_reachable L -> Ledger._entries L !! i = Some e ->
  LedgerEntry.entry_id e = Z.of_nat i.
Proof.
  intros HL. revert i e.
  induction HL as [|L t sp op a c cr st sb sa br HL IH]; intros i e; simpl.
  - rewrite lookup_nil. discriminate.
  - intros Hi. apply lookup_app_Some in Hi as [Hi|[Hlen Hi]]; [eauto|].
    apply list_lookup_singleton_Some in Hi as [Hi <-]. simpl. lia.
Qed.

Lemma run_ledger_reachable (p : Prog) (m : Mary) :
  ledger_reachable (ledger m) -> ledger_reachable (ledger (snd (run p m))).
Proof.
  refine (proj1 (run_preserves (fun _ => True)
                   (fun L L' => ledger_reachable L -> ledger_reachable L')
                   (fun _ _ => True) _ _ _ _ _ _ _ _ _ p _ m)); auto.
  - intros L t sid op a c cr st sb sa br _ HL. constructor. exact HL.
  - apply calls_only_any.
Qed.

Lemma reachable_ledger allowed (m : Mary) :
  reachable allowed m -> ledger_reachable (ledger m).
Proof.
  induction 1 as [|m p Hm IH Hp].
  - exact (reachable_append _ _ _ _ _ _ _ _ _ _ _ reachable_init).
  - apply run_ledger_reachable. exact IH.
Qed.

(** X1: in every state of the kernel, [ledger_verify] returns [True] and
    changes nothing, whoever has been suspended and whatever has failed. *)
Theorem reachable_ledger_verifies (m : Mary) :
  reachable (fun _ => True) m ->
  ledger_verify m = (Ok true, m).
Proof.
  intros Hm. unfold ledger_verify, gets.
  rewrite (reachable_verifies _ (reachable_ledger _ _ Hm)). reflexivity.
Qed.

(** X2: a run of a program only appends to the ledger: the entries it
    starts with stay where they are, unchanged, and the count never drops. *)
Theorem run_appends_only (p : Prog) (m : Mary) :
  (exists l, Ledger._entries (ledger (snd (run p m))) = Ledger._entries (ledger m) ++ l)
  /\ (forall i e, Ledger._entries (ledger m) !! i = Some e ->
                  Ledger._entries (ledger (snd (run p m))) !! i = Some e)
  /\ Ledger.count (ledger m) <= Ledger.count (ledger (snd (run p m))).
Proof.
  destruct (run_extends_ledger p m) as (l & Hl & _).
  split; [exists l; exact Hl|]. split.
  - intros i e Hi. rewrite Hl. apply lookup_app_l_Some. exact Hi.
  - unfold Ledger.count. rewrite Hl, length_app. lia.
Qed.

Lemma py_slice_in_range {A} (a b : Z) (l : list A) :
  0 <= a -> 0 <= b ->
  py_slice a b l
  = take (Z.to_nat (Z.min b (Z.of_nat (length l)) - Z.min a (Z.of_nat (length l))))
         (drop (Z.to_nat (Z.min a (Z.of_nat (length l)))) l).
Proof.
  intros Ha Hb. unfold py_slice, slice_index.
  destruct (Z.ltb_spec a 0); [lia|]. destruct (Z.ltb_spec b 0); [lia|].
  destruct (Z.ltb_spec (Z.of_nat (length l)) a), (Z.ltb_spec (Z.of_nat (length l)) b);
    repeat f_equal; lia.
Qed.

Lemma map_ids_take_drop L n k :
  ledger_reachable L ->
  (n + k <= length (Ledger._entries L))%nat ->
  map LedgerEntry.entry_id (take k (drop n (Ledger._entries L)))
  = seqZ (Z.of_nat n) (Z.of_nat k).
Proof.
  intros HL Hlen. apply list_eq. intros i.
  rewrite list_lookup_fmap, lookup_take, lookup_drop.
  destruct (decide (i < k)%nat) as [Hi|Hi].
  - rewrite lookup_seqZ_lt by lia.
    destruct (Ledger._entries L !! (n + i)%nat) as [e|] eqn:He.
    + simpl. rewrite (reachable_entry_ids _ _ _ HL He). f_equal. lia.
    + apply lookup_ge_None in He. lia.
  - rewrite lookup_seqZ_ge by lia. reflexivity.
Qed.

(** X3: for an authenticated caller and [0 <= a <= b], [ledger_read] of
    [a] to [b] returns, without changing the state, the entries whose ids
    are [a .. b - 1] cut at the length of the ledger, in order; with no
    upper end it returns the same when [b] is at or beyond the length. *)
Theorem ledger_read_range (m : Mary) (caller a b : Z) :
  reachable (fun _ => True) m ->
  SpeakerRegistry.authenticate caller (registry m) = true ->
  0 <= a <= b ->
  let n := Ledger.count (ledger m) in
  exists l,
    ledger_read caller a (Some b) m = (Ok l, m)
    /\ map LedgerEntry.entry_id l = seqZ (Z.min a n) (Z.min b n - Z.min a n)
    /\ (forall e, In e l -> In e (Ledger._entries (ledger m)))
    /\ (n <= b -> ledger_read caller a None m = (Ok l, m)).
Proof.
  intros Hm Hauth Hab n. pose proof (reachable_ledger _ _ Hm) as HL.
  unfold ledger_read, bind, authenticate, gets. rewrite Hauth. cbn [negb].
  unfold Ledger.read. rewrite !py_slice_in_range by lia.
  subst n. unfold Ledger.count.
  set (N := Z.of_nat (length (Ledger._entries (ledger m)))).
  assert (0 <= N) as HN by (unfold N; lia).
  eexists. split; [reflexivity|]. split; [|split].
  - rewrite (map_ids_take_drop _ _ _ HL).
    + f_equal; lia.
    + unfold N. lia.
  - intros e He. apply list_elem_of_In in He.
    apply list_elem_of_In. eapply subseteq_drop, subseteq_take. exact He.
  - intros Hb. rewrite Z.min_id, (Z.min_r b N) by lia. reflexivity.
Qed.
End LedgerInvariants.

Section Search.
Context `{Host} `{!FloatOrder}.

Lemma filter_sublist {A} (f : A -> bool) (l : list A) : sublist (List.filter f l) l.
Proof.
  induction l as [|x l IH]; simpl; [constructor|].
  destruct (f x); [apply sublist_skip|apply sublist_cons]; exact IH.
Qed.

(** X4: [ledger_search] changes nothing; an unauthenticated caller gets
    the empty list, and an authenticated one the entries that meet every
    filter that is given, all of them and no others, in ledger order. *)
Theorem ledger_search_filters (m : Mary) (caller : Z) (speaker_id : option Z)
    (operation action : option string) (from_time to_time : option float) :
  exists l,
    ledger_search caller speaker_id operation action from_time to_time m = (Ok l, m)
    /\ (SpeakerRegistry.authenticate caller (registry m) = false -> l = [])
    /\ (SpeakerRegistry.authenticate caller (registry m) = true ->
        sublist l (Ledger._entries (ledger m))
        /\ forall e,
             In e l
             <-> In e (Ledger._entries (ledger m))
                 /\ (forall s, speaker_id = Some s -> LedgerEntry.speaker_id e = s)
                 /\ (forall o, operation = Some o -> LedgerEntry.operation e = o)
                 /\ (forall a, action = Some a -> LedgerEntry.action e = a)
                 /\ (forall t, from_time = Some t ->
                               float_geb (LedgerEntry.timestamp e) t = true)
                 /\ (forall t, to_time = Some t ->
                               float_leb (LedgerEntry.timestamp e) t = true)).
Proof.
  unfold ledger_search, bind, authenticate, gets.
  destruct (SpeakerRegistry.authenticate caller (registry m)); cbn [negb].
  - eexists. split; [reflexivity|]. split; [discriminate|]. intros _.
    unfold Ledger.search. cbv zeta. split.
    + destruct speaker_id, operation, action, from_time, to_time;
        repeat (etransitivity; [apply filter_sublist|]); reflexivity.
    + intros e.
      destruct speaker_id as [s|], operation as [o|], action as [a|], from_time as [ft|],
               to_time as [tt|];
        rewrite ?filter_In, ?Z.eqb_eq, ?String.eqb_eq;
        (split; [intros Hin; repeat split; try tauto; try discriminate;
                 intros ? [= <-]; tauto
                |intros (Hin & H1 & H2 & H3 & H4 & H5);
                 repeat split; auto]).
  - eexists. split; [reflexivity|]. split; [reflexivity|discriminate].
Qed.
End Search.

Section HashFormat.

Lemma blocks_length n h ws : length h = 8%nat -> length (Sha256.blocks n h ws) = 8%nat.
Proof.
  revert h ws. induction n as [|n IH]; intros h ws Hh; simpl; [exact Hh|].
  destruct ws; [exact Hh|]. apply IH. reflexivity.
Qed.

Lemma digest_length msg : length (Sha256.digest msg) = 8%nat.
Proof. unfold Sha256.digest. apply blocks_length. reflexivity. Qed.

Lemma hex_digit_hex d : 0 <= d < 16 -> hex_char (Sha256.hex_digit d) = true.
Proof.
  intros Hd.
  assert (d = 0 \/ d = 1 \/ d = 2 \/ d = 3 \/ d = 4 \/ d = 5 \/ d = 6 \/ d = 7 \/ d = 8
          \/ d = 9 \/ d = 10 \/ d = 11 \/ d = 12 \/ d = 13 \/ d = 14 \/ d = 15) as Hc by lia.
  repeat (destruct Hc as [->|Hc]; [reflexivity|]). subst d. reflexivity.
Qed.

Lemma land_15 x : 0 <= Z.land x 15 < 16.
Proof.
  change 15 with (Z.ones 4). rewrite Z.land_ones by lia.
  apply Z.mod_pos_bound. reflexivity.
Qed.

Lemma hex_of_format n x :
  String.length (Sha256.hex_of n x) = n
  /\ string_forallb hex_char (Sha256.hex_of n x) = true.
Proof.
  induction n as [|n [IH1 IH2]]; simpl; [auto|].
  split; [congruence|]. rewrite IH2, hex_digit_hex by apply land_15. reflexivity.
Qed.

Lemma string_forallb_app f s t :
  string_forallb f (String.append s t) = string_forallb f s && string_forallb f t.
Proof.
  induction s as [|c s IH]; simpl; [reflexivity|]. rewrite IH. apply andb_assoc.
Qed.

Lemma string_length_app s t :
  String.length (String.append s t) = (String.length s + String.length t)%nat.
Proof. induction s as [|c s IH]; simpl; [reflexivity|rewrite IH; reflexivity]. Qed.

Lemma hexdigest_format s :
  String.length (Sha256.hexdigest s) = 64%nat
  /\ string_forallb hex_char (Sha256.hexdigest s) = true.
Proof.
  unfold Sha256.hexdigest. pose proof (digest_length (Sha256.bytes_of_string s)) as Hlen.
  assert (forall ws : list Z,
             String.length (fold_right (fun w acc => String.append (Sha256.hex_of 8 w) acc)
                                       EmptyString ws) = (8 * length ws)%nat
             /\ string_forallb hex_char
                  (fold_right (fun w acc => String.append (Sha256.hex_of 8 w) acc)
                              EmptyString ws) = true) as Hws.
  { induction ws as [|w ws [IH1 IH2]]; [split; reflexivity|].
    cbn [fold_right]. rewrite string_length_app, string_forallb_app, IH1, IH2.
    destruct (hex_of_format 8 w) as [-> ->]. split; [simpl; lia|reflexivity]. }
  destruct (Hws (Sha256.digest (Sha256.bytes_of_string s))) as [H1 H2].
  rewrite H1, H2, Hlen. split; reflexivity.
Qed.

Lemma substring_prefix_format f n s :
  string_forallb f s = true ->
  String.length (substring 0 n s) = Nat.min n (String.length s)
  /\ string_forallb f (substring 0 n s) = true.
Proof.
  revert s. induction n as [|n IH]; intros s Hs.
  - destruct s; simpl; auto.
  - destruct s as [|c s]; simpl; [auto|]. simpl in Hs.
    apply andb_prop in Hs as [Hc Hs]. destruct (IH s Hs) as [-> ->].
    rewrite Hc. auto.
Qed.

(** X5: the hash of a ledger entry is sixteen characters, each a
    lower-case hexadecimal digit. *)
Theorem entry_hash_format `{Host} (e : LedgerEntry.t) :
  String.length (LedgerEntry.compute_hash e) = 16%nat
  /\ string_forallb hex_char (LedgerEntry.compute_hash e) = true.
Proof.
  unfold LedgerEntry.compute_hash, str_prefix.
  destruct (hexdigest_format (LedgerEntry.hash_input e)) as [Hlen Hhex].
  destruct (substring_prefix_format hex_char 16 _ Hhex) as [-> ->].
  rewrite Hlen. split; reflexivity.
Qed.
End HashFormat.

(** ** Speakers, memory and requests *)

Section KernelState.
Context `{Host}.

(** X6: in every state of the kernel, [create_speaker] by an authenticated
    caller returns a speaker whose id is the next id, which no speaker had;
    the speaker is registered, authenticates, owns an empty partition, and
    the other speakers and partitions are untouched. *)
Theorem create_speaker_fresh (m : Mary) (caller : Z) (name : string) :
  reachable (fun _ => True) m ->
  SpeakerRegistry.authenticate caller (registry m) = true ->
  let r := create_speaker caller name m in
  exists sp,
    fst r = Ok (Some sp)
    /\ Speaker.id sp = SpeakerRegistry._next_id (registry m)
    /\ Speaker.name sp = name
    /\ SpeakerRegistry.get (Speaker.id sp) (registry m) = None
    /\ SpeakerRegistry.get (Speaker.id sp) (registry (snd r)) = Some sp
    /\ SpeakerRegistry.authenticate (Speaker.id sp) (registry (snd r)) = true
    /\ Memory._partitions (memory (snd r)) !! Speaker.id sp = Some ∅
    /\ (forall k, k <> Speaker.id sp ->
          SpeakerRegistry.get k (registry (snd r)) = SpeakerRegistry.get k (registry m)
          /\ Memory._partitions (memory (snd r)) !! k = Memory._partitions (memory m) !! k).
Proof.
  intros Hm Hauth r. destruct (reachable_well_formed _ _ Hm) as (Hreg & Hmem & _).
  pose proof (registry_fresh _ Hreg) as Hfresh.
  assert (Memory._partitions (memory m) !! SpeakerRegistry._next_id (registry m) = None)
    as Hnopart.
  { destruct (Memory._partitions (memory m) !! _) as [q|] eqn:Hk; [|reflexivity].
    assert (is_Some (SpeakerRegistry._speakers (registry m)
                       !! SpeakerRegistry._next_id (registry m))) as [sp Hsp]
      by (apply Hmem; eexists; exact Hk).
    congruence. }
  subst r. unfold create_speaker, bind, authenticate, gets, now, modify. rewrite Hauth.
  simpl. eexists. split; [reflexivity|]. simpl.
  unfold SpeakerRegistry.get, SpeakerRegistry.authenticate, Memory.create_partition. simpl.
  rewrite Hnopart. simpl. rewrite !lookup_insert_eq.
  repeat split; try reflexivity; try assumption.
  - rewrite lookup_insert_ne by congruence. reflexivity.
  - rewrite lookup_insert_ne by congruence. reflexivity.
Qed.

(** X7: a speaker registered in a state of the kernel is registered under
    its own id, and after any run of a program is still registered there
    with the same id, name and date of creation. *)
Theorem speaker_identity_is_stable (m : Mary) (p : Prog) (k : Z) (sp : Speaker.t) :
  reachable (fun _ => True) m ->
  SpeakerRegistry.get k (registry m) = Some sp ->
  Speaker.id sp = k
  /\ exists sp',
       SpeakerRegistry.get k (registry (snd (run p m))) = Some sp'
       /\ Speaker.id sp' = k
       /\ Speaker.name sp' = Speaker.name sp
       /\ Speaker.created_at sp' = Speaker.created_at sp.
Proof.
  intros Hm Hk. pose proof (reachable_well_formed _ _ Hm) as Hwf.
  destruct (run_evolves p m Hwf) as (((Hids & _) & _) & (_ & Hs) & _).
  destruct (Hs k sp Hk) as (sp' & Hk' & Hname & Hc & Hst).
  destruct Hwf as ((Hids0 & _) & _).
  split; [apply (Hids0 k sp Hk)|].
  exists sp'. split; [exact Hk'|]. split; [apply (Hids k sp' Hk')|]. auto.
Qed.

(** X8: when root suspends a registered speaker, the call returns [True],
    the speaker no longer authenticates, and no run of a program makes it
    authenticate again. *)
Theorem suspension_is_permanent (m : Mary) (target : Z) (p : Prog) :
  reachable (fun _ => True) m ->
  is_Some (SpeakerRegistry.get target (registry m)) ->
  let r := suspend_speaker 0 target m in
  fst r = Ok true
  /\ SpeakerRegistry.authenticate target (registry (snd r)) = false
  /\ SpeakerRegistry.authenticate target (registry (snd (run p (snd r)))) = false.
Proof.
  intros Hm [sp Hsp] r.
  assert (reachable (fun _ => True) (snd r)) as Hm1.
  { subst r.
    replace (snd (suspend_speaker 0 target m))
      with (snd (run (Bind (Call_suspend_speaker 0 target) (fun _ => Ret VNone)) m)).
    - apply reachable_run; [exact Hm|apply calls_only_any].
    - simpl. unfold bind. destruct (suspend_speaker 0 target m) as [[?|?] ?]; reflexivity. }
  assert (fst r = Ok true
          /\ exists sp1, SpeakerRegistry._speakers (registry (snd r)) !! target = Some sp1
                         /\ Speaker.is_alive sp1 = false) as (Hr & sp1 & Hsp1 & Hdead).
  { subst r. unfold suspend_speaker, bind. simpl.
    unfold SpeakerRegistry.suspend. unfold SpeakerRegistry.get in Hsp. rewrite Hsp. simpl.
    split; [reflexivity|]. eexists. rewrite lookup_insert_eq. split; reflexivity. }
  split; [exact Hr|]. split.
  - unfold SpeakerRegistry.authenticate. rewrite Hsp1. exact Hdead.
  - pose proof (reachable_well_formed _ _ Hm1) as Hwf.
    destruct (run_evolves p (snd r) Hwf) as (_ & (_ & Hs) & _).
    destruct (Hs target sp1 Hsp1) as (sp2 & Hsp2 & _ & _ & Hst).
    unfold SpeakerRegistry.authenticate. rewrite Hsp2. apply Hst. exact Hdead.
Qed.

(** X9: in every state of the kernel, a [write] by an authenticated
    speaker returns [True]; any authenticated speaker then reads the value
    written, and every other variable reads as before. *)
Theorem write_then_read (m : Mary) (c a : Z) (var : string) (v : Value float) :
  reachable (fun _ => True) m ->
  SpeakerRegistry.authenticate c (registry m) = true ->
  SpeakerRegistry.authenticate a (registry m) = true ->
  let r := write c var v m in
  fst r = Ok true
  /\ fst (read a c var (snd r)) = Ok v
  /\ (forall t x, (t, x) <> (c, var) ->
        Memory.read t x (memory (snd r)) = Memory.read t x (memory m)).
Proof.
  intros Hm Hc Ha r. destruct (reachable_well_formed _ _ Hm) as (_ & Hmem & _).
  assert (is_Some (Memory._partitions (memory m) !! c)) as [q Hq].
  { apply Hmem. unfold SpeakerRegistry.authenticate in Hc.
    destruct (SpeakerRegistry._speakers (registry m) !! c); [eauto|discriminate]. }
  subst r. unfold write, bind, authenticate, gets. rewrite Hc. cbn [negb].
  unfold Memory.write. rewrite Hq. simpl.
  split; [reflexivity|]. split.
  - unfold read, bind, authenticate, gets. simpl. rewrite Ha. simpl.
    unfold Memory.read. simpl. rewrite lookup_insert_eq. simpl.
    rewrite lookup_insert_eq. reflexivity.
  - intros t x Hne. unfold Memory.read. simpl.
    destruct (decide (t = c)) as [->|Ht].
    + rewrite lookup_insert_eq, Hq. simpl.
      rewrite lookup_insert_ne by congruence. reflexivity.
    + rewrite lookup_insert_ne by congruence. reflexivity.
Qed.

Lemma find_app rid (p q : list Request.t) :
  RequestBus.find rid (p ++ q)
  = match RequestBus.find rid p with
    | Some r => Some r
    | None => RequestBus.find rid q
    end.
Proof.
  induction p as [|x p IH]; simpl; [reflexivity|].
  destruct (Request.request_id x =? rid); [reflexivity|exact IH].
Qed.

Lemma find_None rid (l : list Request.t) :
  ~ In rid (map Request.request_id l) -> RequestBus.find rid l = None.
Proof.
  induction l as [|x l IH]; simpl; [reflexivity|]. intros Hn.
  destruct (Z.eqb_spec (Request.request_id x) rid); [tauto|]. apply IH. tauto.
Qed.

Lemma find_In (l : list Request.t) r :
  NoDup (map Request.request_id l) -> In r l ->
  RequestBus.find (Request.request_id r) l = Some r.
Proof.
  induction l as [|x l IH]; simpl; [tauto|]. intros Hnd [->|Hin].
  - rewrite Z.eqb_refl. reflexivity.
  - apply NoDup_cons in Hnd as [Hx Hnd].
    destruct (Z.eqb_spec (Request.request_id x) (Request.request_id r)) as [Heq|_].
    + exfalso. apply Hx. rewrite Heq. apply list_elem_of_In, in_map. exact Hin.
    + apply IH; assumption.
Qed.

(** A resolved request of a well-formed bus is the one that its id finds,
    and it is not pending. *)
Lemma resolved_found (b : RequestBus.t) r :
  wf_bus b -> In r (RequestBus._resolved b) ->
  RequestBus.get_request (Request.request_id r) b = Some r
  /\ RequestBus.find (Request.request_id r) (RequestBus._pending b) = None.
Proof.
  intros (_ & _ & Hnd & _) Hin.
  assert (RequestBus.find (Request.request_id r) (RequestBus._pending b) = None) as Hp.
  { apply find_None. rewrite map_app in Hnd. apply NoDup_app in Hnd as (_ & Hd & _).
    intros Hx. apply (Hd (Request.request_id r)); apply list_elem_of_In;
      [exact Hx|apply in_map; exact Hin]. }
  split; [|exact Hp].
  unfold RequestBus.get_request. rewrite find_app, Hp.
  apply find_In; [|exact Hin].
  rewrite map_app in Hnd. apply NoDup_app in Hnd as (_ & _ & Hd). exact Hd.
Qed.

(** X10: in every state of the kernel, a [request] between authenticated
    speakers returns a pending request with a fresh id, carrying the
    sender, target, action and data given; it is then found by its id and
    comes last among the pending requests of its target. *)
Theorem request_is_pending (m : Mary) (c t : Z) (action : string) (data : Value float)
    (timeout : option float) :
  reachable (fun _ => True) m ->
  SpeakerRegistry.authenticate c (registry m) = true ->
  SpeakerRegistry.authenticate t (registry m) = true ->
  let r := request c t action data timeout m in
  exists req,
    fst r = Ok (Some req)
    /\ Request.request_id req = RequestBus._next_id (bus m)
    /\ Request.from_speaker req = c
    /\ Request.to_speaker req = t
    /\ Request.action req = action
    /\ Request.data req = data
    /\ Request.status req = RequestStatus.PENDING
    /\ RequestBus.get_request (Request.request_id req) (bus m) = None
    /\ RequestBus.get_request (Request.request_id req) (bus (snd r)) = Some req
    /\ fst (pending_requests t (snd r))
       = Ok (RequestBus.get_pending_for t (bus m) ++ [req]).
Proof.
  intros Hm Hc Ht r. destruct (reachable_well_formed _ _ Hm) as (_ & _ & Hbus).
  assert (RequestBus.find (RequestBus._next_id (bus m))
            (RequestBus._pending (bus m) ++ RequestBus._resolved (bus m)) = None) as Hfresh.
  { destruct Hbus as (_ & _ & _ & Hb & _). apply find_None. intros Hin.
    apply in_map_iff in Hin as (x & Hid & Hin). rewrite Forall_forall in Hb.
    apply list_elem_of_In in Hin. specialize (Hb x Hin). lia. }
  assert (exists req m',
             r = (Ok (Some req), m')
             /\ req = Request.mk _ (RequestBus._next_id (bus m)) c t action data
                                 RequestStatus.PENDING (Request.created_at req)
                                 (Request.expires_at req) VNone
             /\ registry m' = registry m
             /\ bus m' = RequestBus.mk _ (RequestBus._pending (bus m) ++ [req])
                                       (RequestBus._resolved (bus m))
                                       (RequestBus._next_id (bus m) + 1))
    as (req & m' & -> & Hreq & Hreg & Hb).
  { subst r. unfold request, bind, authenticate, gets. rewrite Hc. cbn [negb].
    cbv beta iota zeta. rewrite Ht. cbn [negb]. cbv beta iota.
    destruct timeout as [tm|]; [destruct (float_bool tm)|];
      simpl; eexists _, _; repeat split; reflexivity. }
  exists req. simpl. rewrite Hreq. simpl. rewrite <- Hreq.
  repeat split; try reflexivity.
  - exact Hfresh.
  - unfold RequestBus.get_request. rewrite Hb. simpl.
    rewrite <- app_assoc, find_app.
    rewrite find_app in Hfresh.
    destruct (RequestBus.find _ (RequestBus._pending (bus m))); [discriminate|].
    rewrite find_app. simpl.
    replace (Request.request_id req) with (RequestBus._next_id (bus m))
      by (rewrite Hreq; reflexivity).
    rewrite Z.eqb_refl. reflexivity.
  - unfold pending_requests, bind, authenticate, gets. rewrite Hreg, Ht. simpl.
    unfold RequestBus.get_pending_for. rewrite Hb. simpl.
    rewrite filter_app. f_equal. rewrite Hreq. rewrite filter_cons_True by reflexivity.
    reflexivity.
Qed.

(** X11: once [respond] has returned [True], the request is found
    resolved, with the answer and the data given; no run of a program
    changes it, and any later [respond] to it returns [False]. *)
Theorem respond_at_most_once (m : Mary) (c rid : Z) (accept : bool) (data : Value float)
    (p : Prog) (c' : Z) (accept' : bool) (data' : Value float) :
  reachable (fun _ => True) m ->
  fst (respond c rid accept data m) = Ok true ->
  let m1 := snd (respond c rid accept data m) in
  (exists req,
      RequestBus.get_request rid (bus m1) = Some req
      /\ Request.to_speaker req = c
      /\ Request.status req
         = (if accept then RequestStatus.ACCEPTED else RequestStatus.REFUSED)
      /\ Request.response_data req = data
      /\ RequestBus.get_request rid (bus (snd (run p m1))) = Some req)
  /\ fst (respond c' rid accept' data' (snd (run p m1))) = Ok false.
Proof.
  intros Hm Hr m1.
  assert (reachable (fun _ => True) m1) as Hm1.
  { subst m1.
    replace (snd (respond c rid accept data m))
      with (snd (run (Bind (Call_respond c rid accept data) (fun _ => Ret VNone)) m)).
    - apply reachable_run; [exact Hm|apply calls_only_any].
    - simpl. unfold bind. destruct (respond c rid accept data m) as [[?|?] ?]; reflexivity. }
  pose proof (reachable_well_formed _ _ Hm1) as Hwf1.
  assert (exists req,
             In req (RequestBus._resolved (bus m1))
             /\ Request.request_id req = rid
             /\ Request.to_speaker req = c
             /\ Request.status req
                = (if accept then RequestStatus.ACCEPTED else RequestStatus.REFUSED)
             /\ Request.response_data req = data) as (req & Hin & Hid & Hto & Hst & Hdata).
  { subst m1. clear Hm1 Hwf1. unfold respond, bind, gets in Hr |- *.
    destruct (RequestBus.get_request rid (bus m)) as [req0|]; [|discriminate Hr].
    destruct (Z.eqb_spec (Request.to_speaker req0) c) as [Hto0|]; [|discriminate Hr].
    cbn [negb] in Hr |- *. cbv beta iota in Hr |- *.
    unfold RequestBus.respond in Hr |- *.
    destruct (RequestBus.find rid (RequestBus._pending (bus m))) as [rq|] eqn:Hf;
      [|discriminate Hr].
    destruct (Z.eqb_spec (Request.to_speaker rq) c) as [Hto|]; [|discriminate Hr].
    cbn [negb] in Hr |- *.
    destruct (RequestStatus.eqb (Request.status rq) RequestStatus.PENDING);
      [|discriminate Hr].
    cbn [negb] in Hr |- *. simpl.
    destruct (find_split _ _ _ Hf) as (_ & _ & _ & _ & Hid & _).
    eexists. split; [apply in_or_app; right; left; reflexivity|].
    simpl. auto. }
  pose proof (run_evolves p m1 Hwf1) as (Hwf2 & _ & Hres).
  specialize (Hres req Hin).
  destruct Hwf1 as (_ & _ & Hb1). destruct Hwf2 as (_ & _ & Hb2).
  destruct (resolved_found _ _ Hb1 Hin) as [Hg1 _].
  destruct (resolved_found _ _ Hb2 Hres) as [Hg2 Hp2].
  rewrite Hid in Hg1, Hg2, Hp2.
  split.
  - exists req. auto.
  - unfold respond, bind, gets. rewrite Hg2.
    destruct (Request.to_speaker req =? c'); [|reflexivity].
    cbn [negb]. cbv beta iota. unfold RequestBus.respond. rewrite Hp2. reflexivity.
Qed.
End KernelState.

(** ** The expression table of a kernel state *)

Section ExpressionTable.
Context `{Host}.

Lemma dict_alter_length {V} (f : V -> V) k (d : list (Z * V)) :
  length (dict_alter f k d) = length d.
Proof.
  induction d as [|[k' v] d IH]; simpl; [reflexivity|].
  destruct (k' =? k); simpl; congruence.
Qed.

Lemma dict_set_fresh {V} k (v : V) (d : list (Z * V)) :
  dict_get k d = None -> dict_set k v d = d ++ [(k, v)].
Proof.
  induction d as [|[k' v'] d IH]; simpl; [reflexivity|].
  destruct (k' =? k); [discriminate|]. intros Hd. rewrite IH by exact Hd. reflexivity.
Qed.

Lemma expressions_evolve_refl x : expressions_evolve x x.
Proof.
  intros Hwf. split; [exact Hwf|]. split; [lia|]. intros k e Hk. exists e. auto 10.
Qed.

Lemma expressions_evolve_trans x y z :
  expressions_evolve x y -> expressions_evolve y z -> expressions_evolve x z.
Proof.
  intros Hxy Hyz Hx. destruct (Hxy Hx) as (Hy & Hn1 & Hp1).
  destruct (Hyz Hy) as (Hz & Hn2 & Hp2).
  split; [exact Hz|]. split; [lia|].
  intros k e Hk. destruct (Hp1 k e Hk) as (e1 & Hk1 & ? & ? & ? & ? & Hv1).
  destruct (Hp2 k e1 Hk1) as (e2 & Hk2 & ? & ? & ? & ? & Hv2).
  exists e2. repeat split; try congruence. auto.
Qed.

(** An update of the mutable fields of one entry. *)
Lemma expressions_evolve_alter (f : Expression.t -> Expression.t) d n eid :
  (forall e, Expression.expression_id (f e) = Expression.expression_id e
             /\ Expression.speaker_id (f e) = Expression.speaker_id e
             /\ Expression.condition_label (f e) = Expression.condition_label e
             /\ Expression.action (f e) = Expression.action e
             /\ Expression.created_at (f e) = Expression.created_at e
             /\ (Expression.version e <> Version.CURRENT ->
                 Expression.version (f e) <> Version.CURRENT)) ->
  expressions_evolve (d, n) (dict_alter f eid d, n).
Proof.
  intros Hf [Hids Hlen]. simpl in *. split; [split|split; [lia|]]; simpl.
  - intros k e. simpl. rewrite dict_get_alter. destruct (eid =? k).
    + destruct (dict_get k d) as [e0|] eqn:Hk; [|discriminate]. intros [= <-].
      destruct (Hf e0) as (-> & _). apply Hids. exact Hk.
    + apply Hids.
  - rewrite dict_alter_length. exact Hlen.
  - intros k e Hk. simpl in *. rewrite dict_get_alter, Hk. destruct (eid =? k); simpl.
    + exists (f e). destruct (Hf e) as (? & ? & ? & ? & ? & ?). auto 10.
    + exists e. auto 10.
Qed.

Lemma expressions_evolve_register d d' n e :
  expressions_evolve (d, n) (d', n) ->
  Expression.expression_id e = n ->
  expressions_evolve (d, n) (dict_set n e d', n + 1).
Proof.
  intros Hd He Hwf. destruct (Hd Hwf) as ([Hids Hlen] & _ & Hp). simpl in *.
  assert (dict_get n d' = None) as Hfresh.
  { destruct (dict_get n d') as [e0|] eqn:Hk; [|reflexivity]. apply Hids in Hk. lia. }
  split; [split|split; [lia|]]; simpl.
  - intros k e1. simpl. rewrite dict_get_set. destruct (Z.eqb_spec n k) as [<-|Hne].
    + intros [= <-]. split; [exact He|]. lia.
    + intros Hk. apply Hids in Hk. lia.
  - rewrite dict_set_fresh by exact Hfresh. rewrite length_app. simpl. lia.
  - intros k e1 Hk. destruct (Hp k e1 Hk) as (e' & Hk' & Hrest).
    exists e'. split; [|exact Hrest]. simpl. rewrite dict_get_set.
    destruct (Z.eqb_spec n k) as [<-|]; [|exact Hk'].
    destruct Hwf as [Hids0 _]. apply Hids0 in Hk. simpl in Hk. lia.
Qed.

Lemma expressions_evolve_superseded sid action label d n :
  expressions_evolve (d, n) (superseded sid action label d, n).
Proof.
  intros [Hids Hlen]. simpl in *. split; [split|split; [lia|]]; simpl.
  - intros k e. simpl. rewrite dict_get_superseded.
    destruct (dict_get k d) as [e0|] eqn:Hk; [|discriminate]. simpl. intros [= <-].
    destruct (supersedes sid action label e0); simpl; apply (Hids k e0 Hk).
  - unfold superseded. rewrite length_map. exact Hlen.
  - intros k e Hk. simpl in *. rewrite dict_get_superseded, Hk. simpl. eexists. split; [reflexivity|].
    destruct (supersedes sid action label e) eqn:Hs; simpl;
      repeat split; try reflexivity; try tauto.
    intros _. discriminate.
Qed.

Lemma run_expressions_evolve (p : Prog) (m : Mary) :
  expressions_evolve (_expressions m, _next_expr_id m)
                     (_expressions (snd (run p m)), _next_expr_id (snd (run p m))).
Proof.
  refine (proj2 (run_preserves (fun _ => True) (fun _ _ => True) expressions_evolve
                               _ _ _ _ _ _ _ _ _ p _ m)); auto.
  - apply expressions_evolve_refl.
  - apply expressions_evolve_trans.
  - intros d n eid s. apply expressions_evolve_alter. intros e. simpl. auto 10.
  - intros d n eid. apply expressions_evolve_alter. intros e. simpl.
    repeat split; try reflexivity. discriminate.
  - intros d n sid cond label action act t scope is_refusal.
    apply expressions_evolve_register; [apply expressions_evolve_superseded|reflexivity].
  - intros d n sid cond label action act t lc lm _.
    apply expressions_evolve_register; [apply expressions_evolve_refl|reflexivity].
  - apply calls_only_any.
Qed.

Lemma reachable_wf_expressions allowed (m : Mary) :
  reachable allowed m -> wf_expressions (_expressions m, _next_expr_id m).
Proof.
  induction 1 as [|m p Hm IH Hp].
  - split; simpl; [discriminate|reflexivity].
  - apply (run_expressions_evolve p m IH).
Qed.

(** X12: an expression found by [get_expression] carries the id it is
    found under, and after any run of a program is still found there with
    the same speaker, condition label, action and date of creation; once it
    is not current it never becomes current again. *)
Theorem expression_identity_is_stable (m : Mary) (p : Prog) (k : Z) (e : Expression.t) :
  reachable (fun _ => True) m ->
  fst (get_expression k m) = Ok (Some e) ->
  exists e',
    fst (get_expression k (snd (run p m))) = Ok (Some e')
    /\ Expression.expression_id e = k
    /\ Expression.expression_id e' = k
    /\ Expression.speaker_id e' = Expression.speaker_id e
    /\ Expression.condition_label e' = Expression.condition_label e
    /\ Expression.action e' = Expression.action e
    /\ Expression.created_at e' = Expression.created_at e
    /\ (Expression.version e <> Version.CURRENT ->
        Expression.version e' <> Version.CURRENT).
Proof.
  intros Hm He. unfold get_expression, gets in *. simpl in *. injection He as He.
  pose proof (reachable_wf_expressions _ _ Hm) as Hwf.
  destruct (run_expressions_evolve p m Hwf) as ([Hids' _] & _ & Hp).
  destruct (Hp k e He) as (e' & Hk' & Hsp & Hl & Ha & Hc & Hv). simpl in *.
  exists e'. rewrite Hk'. destruct Hwf as [Hids _].
  repeat split; try assumption; [apply (Hids k e He)|apply (Hids' k e' Hk')].
Qed.
End ExpressionTable.

(** ** The snapshot of the kernel *)

Section Snapshot.
Context `{Host}.

Lemma reachable_counts allowed (m : Mary) :
  reachable allowed m ->
  1 <= SpeakerRegistry._next_id (registry m) /\ 1 <= Ledger.count (ledger m).
Proof.
  induction 1 as [|m p Hm [IH1 IH2] Hp].
  - split; [simpl; lia|]. unfold Ledger.count. simpl. lia.
  - pose proof (reachable_well_formed _ _ Hm) as Hwf.
    destruct (run_evolves p m Hwf) as (_ & (Hn & _) & _).
    destruct (run_extends_ledger p m) as (l & Hl & _).
    split; [lia|]. unfold Ledger.count in *. rewrite Hl, length_app. lia.
Qed.

(** X13: in every state of the kernel, [state] changes nothing and
    reports the next speaker id as the number of speakers, the next
    expression id as the number of expressions, the ledger count, the
    number of pending requests and an intact ledger; there is at least one
    speaker and one ledger entry. *)
Theorem state_of_reachable (m : Mary) :
  reachable (fun _ => True) m ->
  state m
  = (Ok [ ("speakers", VInt (SpeakerRegistry._next_id (registry m)));
          ("ledger_entries", VInt (Ledger.count (ledger m)));
          ("ledger_integrity", VBool true);
          ("expressions", VInt (_next_expr_id m));
          ("pending_requests",
           VInt (Z.of_nat (length (RequestBus._pending (bus m))))) ], m)
  /\ 1 <= SpeakerRegistry._next_id (registry m)
  /\ 1 <= Ledger.count (ledger m).
Proof.
  intros Hm. split; [|apply (reachable_counts _ _ Hm)].
  destruct (reachable_well_formed _ _ Hm) as ((_ & Hsize) & _).
  destruct (reachable_wf_expressions _ _ Hm) as (_ & Hlen). simpl in Hlen.
  unfold state, gets. rewrite Hsize, Hlen.
  rewrite (reachable_verifies _ (reachable_ledger _ _ Hm)). reflexivity.
Qed.
End Snapshot.

(** ** Evaluation *)

Section Evaluation.
Context `{Host}.

(** X14: when the action of a current, unconditional expression of an
    authenticated speaker, within its scope, returns a value, [evaluate]
    holds the action fulfilled unless the value is [False], and the other
    way round for a refusal; it returns ACTIVE or BROKEN accordingly, sets
    that status on the expression and appends one entry with it, whose
    break reason is [action_not_fulfilled] when broken. *)
Theorem evaluate_action_result (m m1 m2 : Mary) (expr e0 : Expression.t) (q : Prog)
    (v : Value float) :
  SpeakerRegistry.authenticate (Expression.speaker_id expr) (registry m) = true ->
  dict_get (Expression.expression_id expr) (_expressions m) = Some e0 ->
  Expression.version e0 = Version.CURRENT ->
  scope_passed expr m = (Ok false, m1) ->
  Expression.condition expr = None ->
  Expression.action_fn expr = Some q ->
  run q m1 = (Ok v, m2) ->
  let fulfilled := match v with
                   | VBool false => Expression.is_refusal expr
                   | _ => negb (Expression.is_refusal expr)
                   end in
  let st := if fulfilled then Status.ACTIVE else Status.BROKEN in
  let r := evaluate run expr m in
  fst r = Ok (Some st)
  /\ (exists e, dict_get (Expression.expression_id expr) (_expressions (snd r)) = Some e
                /\ Expression.status e = Some st)
  /\ (exists entry,
        Ledger._entries (ledger (snd r)) = Ledger._entries (ledger m2) ++ [entry]
        /\ LedgerEntry.operation entry = "evaluate"
        /\ LedgerEntry.condition_result entry = Some true
        /\ LedgerEntry.status entry = Some st
        /\ LedgerEntry.break_reason entry
           = if fulfilled then None else Some "action_not_fulfilled").
Proof.
  intros Hauth Hget Hver Hscope Hcond Hact Hrun fulfilled st r.
  assert (is_Some (dict_get (Expression.expression_id expr) (_expressions m2))) as [e2 He2].
  { replace m2 with (snd (run q m1)) by (rewrite Hrun; reflexivity).
    apply run_keeps_expressions.
    assert (_expressions m1 = _expressions m) as ->.
    { unfold scope_passed in Hscope.
      destruct (Expression.scope_until expr) as [u|]; [|injection Hscope as <-; reflexivity].
      destruct (float_bool u); [|injection Hscope as <-; reflexivity].
      unfold bind, now, ret in Hscope. simpl in Hscope. injection Hscope as _ <-. reflexivity. }
    rewrite Hget. eexists. reflexivity. }
  assert (r = (Ok (Some st),
               snd ((let! _ := set_status (Expression.expression_id expr) st in
                     ledger_append (Expression.speaker_id expr) "evaluate"
                       (Expression.action expr) (Some (Expression.condition_label expr))
                       (Some true) (Some st) None None
                       (if fulfilled then None else Some "action_not_fulfilled")) m2)))
    as ->.
  { subst r. unfold evaluate. cbv zeta.
    unfold bind at 1, authenticate, gets at 1. rewrite Hauth. cbn [negb].
    unfold bind at 1, is_current, gets at 1. rewrite Hget, Hver. cbn [negb Version.eqb].
    unfold bind at 1. rewrite Hscope. rewrite Hcond, Hact.
    unfold bind at 1, ret at 1. cbn [negb]. cbv beta iota.
    unfold bind at 1 2, try. rewrite Hrun. unfold ret at 1. cbv beta iota.
    subst st fulfilled.
    destruct v as [|[|]| | | | |], (Expression.is_refusal expr);
      cbn [negb is_not_False]; cbv beta iota;
      unfold bind, set_status, modify, ret; cbv beta iota;
      rewrite !ledger_append_eq; reflexivity. }
  split; [reflexivity|]. split.
  - simpl. rewrite dict_get_alter, Z.eqb_refl, He2. eexists. split; reflexivity.
  - eexists. simpl. repeat split; reflexivity.
Qed.

Lemma evaluate_loop_from_status call expr max_iter remaining count m st count' m' :
  evaluate_loop_from call expr max_iter remaining count m = (Ok (st, count'), m') ->
  st <> Status.ACTIVE.
Proof.
  revert count m. induction remaining as [|remaining IH]; intros count m; simpl; intros Hr.
  - apply bind_Ok_inv in Hr as (_ & m1 & _ & [= <- _ _]). discriminate.
  - apply bind_Ok_inv in Hr as (stop & m1 & _ & Hr). destruct stop.
    + apply bind_Ok_inv in Hr as (_ & m2 & _ & [= <- _ _]). discriminate.
    + apply bind_Ok_inv in Hr as (status & m2 & _ & Hr).
      destruct status as [[| |]|]; try (injection Hr as <- _ _; discriminate);
        apply IH in Hr; exact Hr.
Qed.

(** X15: whatever [evaluate_loop] returns, the status is INACTIVE or
    BROKEN, never ACTIVE. *)
Theorem evaluate_loop_never_active (call : Prog -> M (Value float)) (expr : Expression.t)
    (m m' : Mary) (st : Status.t) (count : Z) :
  evaluate_loop call expr m = (Ok (st, count), m') ->
  st = Status.INACTIVE \/ st = Status.BROKEN.
Proof.
  intros Hr. unfold evaluate_loop in Hr.
  apply evaluate_loop_from_status in Hr. destruct st; tauto.
Qed.
End Evaluation.

Section Exceptions.
Context `{Host}.

End Exceptions.

Section Timeouts.
Context `{Host}.

Lemma filter_partition_length {A} (f : A -> bool) (l : list A) :
  (length (List.filter f l) + length (List.filter (fun x => negb (f x)) l) = length l)%nat.
Proof.
  induction l as [|x l IH]; simpl; [reflexivity|].
  destruct (f x); simpl; lia.
Qed.

Lemma timed_out_with_status now s q :
  RequestBus.timed_out now (Request.with_status s q) = RequestBus.timed_out now q.
Proof. reflexivity. Qed.

(** X17: [check_timeouts] splits the pending requests: those it returns
    are expired and are appended to the resolved ones, the others stay
    pending, among them every request without a deadline or within it, and
    a second call at the same time returns nothing. *)
Theorem check_timeouts_partition (now : float) (b : RequestBus.t) :
  let r := RequestBus.check_timeouts now b in
  (length (fst r) + length (RequestBus._pending (snd r))
   = length (RequestBus._pending b))%nat
  /\ RequestBus._resolved (snd r) = RequestBus._resolved b ++ fst r
  /\ Forall (fun q => Request.status q = RequestStatus.EXPIRED) (fst r)
  /\ (forall q, In q (RequestBus._pending (snd r)) -> In q (RequestBus._pending b))
  /\ (forall q, In q (RequestBus._pending b) ->
                Request.expires_at q = None \/ RequestBus.timed_out now q = false ->
                In q (RequestBus._pending (snd r)))
  /\ fst (RequestBus.check_timeouts now (snd r)) = [].
Proof.
  simpl. split; [|split; [|split; [|split; [|split]]]].
  - rewrite length_map. apply filter_partition_length.
  - reflexivity.
  - apply Forall_forall. intros q Hq. apply list_elem_of_In, in_map_iff in Hq.
    destruct Hq as (q0 & <- & _). reflexivity.
  - intros q Hq. apply filter_In in Hq. tauto.
  - intros q Hq Hno. apply filter_In. split; [exact Hq|].
    destruct Hno as [Hno| ->]; [|reflexivity].
    unfold RequestBus.timed_out. rewrite Hno. reflexivity.
  - induction (RequestBus._pending b) as [|q l IH]; simpl; [reflexivity|].
    destruct (RequestBus.timed_out now q) eqn:Hq; simpl; [exact IH|].
    rewrite Hq. simpl. exact IH.
Qed.
End Timeouts.

Section History.
Context `{Host} `{!FloatOrder}.

Lemma inspect_variable_eq (a c : Z) (var : string) (m : Mary) :
  SpeakerRegistry.authenticate a (registry m) = true ->
  inspect_variable a c var m
  = (Ok (Some (VariableReport.mk _ c var (Memory.read c var (memory m))
                 (map (fun e => HistoryItem.mk _ (LedgerEntry.entry_id e)
                                  (LedgerEntry.state_before e) (LedgerEntry.state_after e)
                                  (LedgerEntry.timestamp e))
                      (Ledger.search (Some c) None (Some ("write:" +:+ var)) None None
                                     (ledger m))))), m).
Proof.
  intros Ha. unfold inspect_variable, bind, authenticate, gets. rewrite Ha. reflexivity.
Qed.

Lemma write_eq (c : Z) (var : string) (v : Value float) (m : Mary)
    (q : gmap string (Value float)) :
  SpeakerRegistry.authenticate c (registry m) = true ->
  Memory._partitions (memory m) !! c = Some q ->
  write c var v m
  = (Ok true,
     set_ledger
       (snd (Ledger.append (time_time (clock m)) c "write" ("write:" +:+ var) None None
               (Some Status.ACTIVE)
               (Some [("var", VStr var);
                      ("old_value", VStr (py_repr (default VNone (q !! var))))])
               (Some [("var", VStr var); ("new_value", VStr (py_repr v))])
               None (ledger m)))
       (set_clock (S (clock m))
          (set_memory (Memory.mk _ (<[c := <[var := v]> q]> (Memory._partitions (memory m))))
                      m))).
Proof.
  intros Hc Hq. unfold write, bind, authenticate, gets. rewrite Hc. cbn [negb].
  unfold Memory.write. rewrite Hq. reflexivity.
Qed.

(** X18: in every state of the kernel, after a [write] by an
    authenticated speaker, [inspect_variable] on the variable reports the
    value written, and its history is the history before followed by one
    item for the write, with the id of the new ledger entry, the old value
    and the new one. *)
Theorem inspect_variable_after_write (m : Mary) (c a : Z) (var : string)
    (v : Value float) :
  reachable (fun _ => True) m ->
  SpeakerRegistry.authenticate c (registry m) = true ->
  SpeakerRegistry.authenticate a (registry m) = true ->
  let m1 := snd (write c var v m) in
  exists rep0 rep1 item,
    fst (inspect_variable a c var m) = Ok (Some rep0)
    /\ fst (inspect_variable a c var m1) = Ok (Some rep1)
    /\ VariableReport.current_value rep1 = v
    /\ VariableReport.history rep1 = VariableReport.history rep0 ++ [item]
    /\ HistoryItem.entry_id item = Ledger.count (ledger m)
    /\ HistoryItem.before item
       = Some [("var", VStr var);
               ("old_value", VStr (py_repr (VariableReport.current_value rep0)))]
    /\ HistoryItem.after item
       = Some [("var", VStr var); ("new_value", VStr (py_repr v))].
Proof.
  intros Hm Hc Ha m1. destruct (reachable_well_formed _ _ Hm) as (_ & Hmem & _).
  assert (is_Some (Memory._partitions (memory m) !! c)) as [q Hq].
  { apply Hmem. unfold SpeakerRegistry.authenticate in Hc.
    destruct (SpeakerRegistry._speakers (registry m) !! c); [eauto|discriminate]. }
  subst m1. rewrite (write_eq c var v m q Hc Hq). cbn [snd].
  rewrite (inspect_variable_eq a c var m Ha).
  rewrite inspect_variable_eq by exact Ha.
  eexists _, _, _. split; [reflexivity|]. split; [reflexivity|].
  cbn [VariableReport.current_value VariableReport.history fst snd memory ledger
       set_ledger set_clock set_memory].
  split.
  - unfold Memory.read. simpl. rewrite lookup_insert_eq. simpl.
    rewrite lookup_insert_eq. reflexivity.
  - unfold Ledger.search, Ledger.append. cbn [Ledger._entries fst snd].
    rewrite !List.filter_app, map_app. cbn [List.filter].
    cbn [LedgerEntry.speaker_id LedgerEntry.with_entry_hash LedgerEntry.action].
    rewrite Z.eqb_refl. cbn [List.filter]. cbn [LedgerEntry.action LedgerEntry.with_entry_hash].
    rewrite String.eqb_refl.
    split; [reflexivity|]. cbn. repeat split.
    unfold Memory.read. rewrite Hq. reflexivity.
Qed.
End History.

(** ** The loop of the language, when its condition is false *)

Section RuntimeLoop.
Context `{Host}.

Lemma evaluate_false_condition (expr e0 : Expression.t) (m : Mary) :
  SpeakerRegistry.authenticate (Expression.speaker_id expr) (registry m) = true ->
  dict_get (Expression.expression_id expr) (_expressions m) = Some e0 ->
  Expression.version e0 = Version.CURRENT ->
  Expression.scope_until expr = None ->
  Expression.condition expr = Some (Ret (VBool false)) ->
  exists e,
    Ledger._entries (ledger (snd (evaluate run expr m))) = Ledger._entries (ledger m) ++ [e]
    /\ LedgerEntry.operation e = "evaluate"
    /\ LedgerEntry.status e = Some Status.INACTIVE
    /\ LedgerEntry.condition_result e = Some false
    /\ LedgerEntry.action e = Expression.action expr.
Proof.
  intros Hauth Hget Hver Hscope Hcond.
  unfold evaluate. cbv zeta.
  unfold bind at 1, authenticate, gets at 1. rewrite Hauth. cbn [negb].
  unfold bind at 1, is_current, gets at 1. rewrite Hget, Hver. cbn [negb Version.eqb].
  unfold scope_passed. rewrite Hscope, Hcond.
  eexists. simpl. repeat split; reflexivity.
Qed.

Lemma submit_false_condition_entries sid label action (m : Mary) :
  exists l e,
    Ledger._entries
      (ledger (snd (submit run sid (Some (Ret (VBool false))) label action None false None m)))
    = Ledger._entries (ledger m) ++ l ++ [e]
    /\ Forall is_supersede l
    /\ LedgerEntry.action e = action
    /\ (LedgerEntry.operation e = "evaluate"
        /\ LedgerEntry.status e = Some Status.INACTIVE
        /\ LedgerEntry.condition_result e = Some false
        \/ LedgerEntry.operation e = "submit"
           /\ LedgerEntry.status e = Some Status.BROKEN
           /\ LedgerEntry.break_reason e = Some "speaker_not_authenticated").
Proof.
  unfold submit. unfold bind at 1, authenticate, gets at 1.
  destruct (SpeakerRegistry.authenticate sid (registry m)) eqn:Hauth; cbn [negb].
  - unfold bind at 1 2 3 4 5 6, gets at 1 2, now, modify. cbv beta iota.
    match goal with
    | |- context [supersede ?n ?s ?a ?l ?i ?m1] =>
        destruct (supersede_entries n s a l i m1) as (l1 & c & h & Heq & Hl); rewrite Heq
    end.
    cbv beta iota. exists l1.
    match goal with
    | |- context [bind (evaluate _ ?e) _ ?m1] =>
        destruct (evaluate_false_condition e e m1) as (en & Hen & Hop & Hst & Hcr & Hac);
          [exact Hauth|simpl; rewrite dict_get_set, Z.eqb_refl; reflexivity
          |reflexivity|reflexivity|reflexivity|];
          unfold bind; destruct (evaluate run e m1) as [[r|r] m2]
    end; simpl in Hen, Hac |- *; exists en; rewrite Hen, <- app_assoc; auto 10.
  - exists []. simpl. eexists. split; [reflexivity|].
    split; [constructor|]. split; [reflexivity|]. right. repeat split; reflexivity.
Qed.

Lemma loop_from_false (Ast Stmt : Type)
    (_eval_expr : Ast -> Runtime.RM Stmt (Value float))
    (_execute_statement : Stmt -> Runtime.RM Stmt unit)
    (condition_ast : Ast) (body : list Stmt) (max_iter sid : Z) (k : nat)
    (env1 env2 : Runtime.Environment Stmt) (vc : Value float) :
  _eval_expr condition_ast env1 = (Ok vc, env2) ->
  truthy vc = false ->
  Runtime.loop_from Ast Stmt _eval_expr _execute_statement condition_ast body max_iter sid
                    (S k) 0 env1
  = (Ok tt,
     Runtime.set_mary Stmt
       (snd (submit run sid (Some (Ret (VBool false))) "loop:terminated" "loop:iterations=0"
                    None false None (Runtime.mary Stmt env2)))
       env2).
Proof.
  intros Hcond Hfalse. cbn [Runtime.loop_from].
  unfold Runtime.rbind at 1. rewrite Hcond, Hfalse. cbn [negb].
  unfold Runtime.rbind, Runtime.on_mary.
  change ("loop:iterations=" +:+ int_str 0) with "loop:iterations=0".
  match goal with
  | |- context [submit ?c ?s ?co ?l ?a ?ac ?r ?sc ?m] =>
      destruct (total_submit c s co l a ac r sc m) as (r0 & m1 & Hs)
  end.
  rewrite !Hs. reflexivity.
Qed.

End RuntimeLoop.

(** * Helena *)

(** ** What the operations of Helena do to the kernel and to the worlds *)

Lemma to_int_not_nil (n : Z) :
  Z.to_int n <> Decimal.Pos Decimal.Nil /\ Z.to_int n <> Decimal.Neg Decimal.Nil.
Proof.
  destruct n as [|p|p]; simpl; split; try discriminate;
    intros [= Hp]; apply (DecimalPos.Unsigned.to_uint_nonnil p); exact Hp.
Qed.

Lemma int_str_inj (a b : Z) : int_str a = int_str b -> a = b.
Proof.
  unfold int_str. intros Heq. apply DecimalZ.to_int_inj.
  destruct (to_int_not_nil a) as [Ha1 Ha2], (to_int_not_nil b) as [Hb1 Hb2].
  pose proof (NilZero.isi _ Ha1 Ha2) as Ea. pose proof (NilZero.isi _ Hb1 Hb2) as Eb.
  rewrite Heq in Ea. congruence.
Qed.


Section HelenaStates.
Context `{Host}.

Lemma on_mary_eq {A} (failed : A) (c : M A) (h : Helena.t) :
  Helena.on_mary failed c h
  = (match fst (c (Helena.mary h)) with Ok a => a | Exc _ => failed end,
     Helena.set_mary (snd (c (Helena.mary h))) h).
Proof.
  unfold Helena.on_mary. destruct (c (Helena.mary h)) as [[a|e] m]; reflexivity.
Qed.

Lemma log_eq sid label action (h : Helena.t) :
  Helena.log sid label action h
  = Helena.set_mary
      (snd (submit run sid None label action Helena.always_true false None (Helena.mary h))) h.
Proof. unfold Helena.log. rewrite on_mary_eq. reflexivity. Qed.

Lemma evolves_refl (m : Mary) : evolves m m.
Proof. apply evolves_frame; reflexivity. Qed.

Lemma now_evolves (m : Mary) : evolves m (snd (now m)).
Proof. apply evolves_frame; reflexivity. Qed.

Lemma create_speaker_evolves caller name (m : Mary) :
  evolves m (snd (create_speaker caller name m)).
Proof.
  apply (st_create_speaker evolves evolves_trans evolves_frame evolves_create).
Qed.

Lemma write_evolves caller var v (m : Mary) : evolves m (snd (write caller var v m)).
Proof. apply (st_write evolves evolves_trans evolves_frame evolves_write). Qed.

Lemma read_evolves caller owner var (m : Mary) : evolves m (snd (read caller owner var m)).
Proof. apply (st_read evolves evolves_trans evolves_frame). Qed.

Lemma request_evolves caller target action data timeout (m : Mary) :
  evolves m (snd (request caller target action data timeout m)).
Proof. apply (st_request evolves evolves_trans evolves_frame evolves_request). Qed.

Lemma submit_evolves sid cond label action act is_refusal scope (m : Mary) :
  evolves m (snd (submit run sid cond label action act is_refusal scope m)).
Proof.
  apply (st_submit evolves evolves_trans evolves_frame run);
    intros q _ m'; apply run_evolves.
Qed.
End HelenaStates.

Section HelenaInvariant.
Context `{Host}.

Section KernelCalls.
(** A relation that the kernel calls of Helena preserve. *)
Variable T : Mary -> Mary -> Prop.
Hypothesis T_trans : forall m1 m2 m3, T m1 m2 -> T m2 m3 -> T m1 m3.
Hypothesis T_frame :
  forall m m', registry m' = registry m -> memory m' = memory m -> bus m' = bus m -> T m m'.
Hypothesis T_create :
  forall m t name,
    T m (set_memory (Memory.create_partition (SpeakerRegistry._next_id (registry m)) (memory m))
           (set_registry (snd (SpeakerRegistry.create t name (registry m))) m)).
Hypothesis T_write :
  forall m c var v, T m (set_memory (snd (Memory.write c var v (memory m))) m).
Hypothesis T_request :
  forall m t from to action data expires_at,
    T m (set_bus (snd (RequestBus.create_request t from to action data expires_at (bus m))) m).

Lemma T_log sid label action m :
  T m (snd (submit run sid None label action Helena.always_true false None m)).
Proof.
  apply (st_submit T T_trans T_frame run).
  - discriminate.
  - intros q [= <-]. apply (st_ret T T_frame).
Qed.

Ltac chain :=
  cbn [fst snd Helena.mary Helena.set_mary Helena.set_worlds];
  lazymatch goal with
  | |- T ?m ?m => apply T_frame; reflexivity
  | |- T ?m (snd (?c ?m')) =>
      apply T_trans with m';
        [chain
        |first [ apply (st_now T T_frame)
               | apply (st_create_speaker T T_trans T_frame T_create)
               | apply (st_write T T_trans T_frame T_write)
               | apply (st_read T T_trans T_frame)
               | apply (st_request T T_trans T_frame T_request)
               | apply T_log ]]
  | |- T ?m (set_clock _ ?m') =>
      apply T_trans with m'; [chain|apply T_frame; reflexivity]
  end.

Ltac helena_norm :=
  repeat (cbv beta iota zeta; rewrite ?on_mary_eq, ?log_eq);
  cbn [fst snd Helena.mary Helena._worlds Helena._next_world_id Helena.speaker
       Helena.set_mary Helena.set_worlds].

Ltac same := split; [chain|split; [reflexivity|left; auto]].

Lemma join_world_spec sid wid perms (h : Helena.t) :
  T (Helena.mary h) (Helena.mary (snd (Helena.join_world sid wid perms h)))
  /\ Helena.speaker (snd (Helena.join_world sid wid perms h)) = Helena.speaker h
  /\ worlds_step h (snd (Helena.join_world sid wid perms h)).
Proof.
  unfold Helena.join_world.
  destruct (Helena._worlds h !! wid) as [w|] eqn:Hw; [|same].
  destruct (String.eqb (World.status w) WorldStatus.OPEN); cbn [negb]; [|same].
  destruct (SpeakerRegistry.authenticate sid (registry (Helena.mary h))); cbn [negb];
    [|same].
  helena_norm. split; [chain|]. split; [reflexivity|].
  right. left. eexists wid, w, _. split; [exact Hw|]. split; [reflexivity|].
  cbn [World.world_id World.name World.creator_id World.created_at World.status
       World.with_members World.with_status]. auto 10.
Qed.

Lemma helena_step_spec (h h' : Helena.t) :
  helena_step h h' ->
  T (Helena.mary h) (Helena.mary h')
  /\ Helena.speaker h' = Helena.speaker h
  /\ worlds_step h h'.
Proof.
  intros Hstep. destruct Hstep.
  - (* create_speaker *)
    unfold Helena.create_speaker. helena_norm.
    destruct (fst (create_speaker _ name (Helena.mary h))) as [[sp|]|e];
      helena_norm; same.
  - (* create_world *)
    unfold Helena.create_world.
    destruct (SpeakerRegistry.authenticate creator_id (registry (Helena.mary h)));
      cbn [negb]; [|same].
    helena_norm. split; [chain|]. split; [reflexivity|].
    right. right. eexists. split; [reflexivity|]. split; reflexivity.
  - apply join_world_spec.
  - (* invite_to_world *)
    unfold Helena.invite_to_world.
    destruct (Helena._worlds h !! world_id) as [w|] eqn:Hw; [|same].
    destruct (World.can inviter_id "invite" w); cbn [negb]; [|same].
    destruct (SpeakerRegistry.authenticate target_id (registry (Helena.mary h)));
      cbn [negb]; [|same].
    rewrite log_eq.
    match goal with
    | |- context [Helena.join_world ?s ?w ?p ?h1] =>
        destruct (join_world_spec s w p h1) as (He & Hsp & Hs)
    end.
    split; [|split].
    + eapply T_trans; [|exact He]. chain.
    + rewrite Hsp. reflexivity.
    + exact Hs.
  - (* leave_world *)
    unfold Helena.leave_world.
    destruct (Helena._worlds h !! world_id) as [w|] eqn:Hw; [|same].
    destruct (World.is_member speaker_id w); cbn [negb]; [|same].
    helena_norm. split; [chain|]. split; [reflexivity|].
    right. left. eexists world_id, w, _. split; [exact Hw|]. split; [reflexivity|].
    cbn [World.world_id World.name World.creator_id World.created_at World.status
         World.with_members World.with_status]. auto 10.
  - (* archive_world *)
    unfold Helena.archive_world.
    destruct (Helena._worlds h !! world_id) as [w|] eqn:Hw; [|same].
    destruct (World.creator_id w =? caller_id); cbn [negb]; [|same].
    helena_norm. split; [chain|]. split; [reflexivity|].
    right. left. eexists world_id, w, _. split; [exact Hw|]. split; [reflexivity|].
    cbn [World.world_id World.name World.creator_id World.created_at World.status
         World.with_members World.with_status]. auto 10.
  - (* world_write *)
    unfold Helena.world_write.
    destruct (Helena._worlds h !! world_id) as [w|] eqn:Hw; [|same].
    destruct (World.can speaker_id "write" w); cbn [negb]; [|same].
    destruct (String.eqb (World.status w) WorldStatus.ARCHIVED); cbn [negb]; [same|].
    helena_norm. same.
  - (* world_read *)
    unfold Helena.world_read.
    destruct (Helena._worlds h !! world_id) as [w|] eqn:Hw; [|same].
    destruct (World.can caller_id "read" w); cbn [negb]; [|same].
    helena_norm. same.
  - (* world_request *)
    unfold Helena.world_request.
    destruct (Helena._worlds h !! world_id) as [w|] eqn:Hw; [|same].
    destruct (World.can caller_id "request" w); cbn [negb]; [|same].
    destruct (World.is_member target_id w); cbn [negb]; [|same].
    helena_norm. same.
Qed.

(** [Helena()] *)
Lemma helena_new_spec (h : Helena.t) :
  Helena.new = Some h ->
  exists sp m,
    create_speaker 0 "helena" Mary_new = (Ok (Some sp), m)
    /\ Helena.speaker h = sp
    /\ T m (Helena.mary h)
    /\ Helena._worlds h = ∅
    /\ Helena._next_world_id h = 0.
Proof.
  unfold Helena.new.
  destruct (create_speaker 0 "helena" Mary_new) as [[[sp|]|e] m] eqn:Hc; try discriminate.
  repeat (cbv beta iota zeta; rewrite ?on_mary_eq).
  intros [= <-]. exists sp, m. split; [reflexivity|].
  cbn [Helena.mary Helena._worlds Helena._next_world_id snd Helena.set_mary Helena.speaker].
  split; [reflexivity|]. split; [chain|]. split; reflexivity.
Qed.
End KernelCalls.
End HelenaInvariant.

Section HelenaReachable.
Context `{Host}.

Lemma world_id_inj (a b : Z) : "world_" +:+ int_str a = "world_" +:+ int_str b -> a = b.
Proof. simpl. intros [= Heq]. apply int_str_inj. exact Heq. Qed.

Lemma next_world_fresh (h : Helena.t) :
  wf_worlds h ->
  Helena._worlds h !! ("world_" +:+ int_str (Helena._next_world_id h)) = None.
Proof.
  intros [_ Hwf]. destruct (_ !! _) as [w|] eqn:Hk; [|reflexivity].
  destruct (Hwf _ _ Hk) as (_ & n & Hn & Heq). apply world_id_inj in Heq. lia.
Qed.

Lemma worlds_step_wf (h h' : Helena.t) :
  worlds_step h h' -> wf_worlds h -> wf_worlds h' /\ worlds_persist h h'.
Proof.
  intros Hstep Hwf. pose proof (next_world_fresh h Hwf) as Hfresh.
  destruct Hwf as [Hn Hwf].
  destruct Hstep as [[Hw Hnext]|[(wid & w & w' & Hwid & Hw & Hnext & Hid & Hname & Hcr & Hca & Hst)
                                |(w' & Hw & Hnext & Hid)]].
  - split; [split|split].
    + lia.
    + rewrite Hw, Hnext. exact Hwf.
    + lia.
    + intros k w Hk. exists w. rewrite Hw. auto 10.
  - split; [split|split].
    + lia.
    + intros k w0. rewrite Hw, Hnext, lookup_insert. case_decide as Hk.
      * intros [= <-]. subst k. rewrite Hid. apply Hwf. exact Hwid.
      * apply Hwf.
    + lia.
    + intros k w0 Hk. rewrite Hw, lookup_insert. case_decide as Hkw.
      * subst k. rewrite Hwid in Hk. injection Hk as <-. exists w'. auto 10.
      * exists w0. auto 10.
  - split; [split|split].
    + lia.
    + intros k w0. rewrite Hw, Hnext, lookup_insert. case_decide as Hk.
      * intros [= <-]. split; [congruence|]. exists (Helena._next_world_id h).
        split; [lia|congruence].
      * intros Hk0. destruct (Hwf k w0 Hk0) as (Hid0 & n & Hn0 & Heq).
        split; [exact Hid0|]. exists n. split; [lia|exact Heq].
    + lia.
    + intros k w0 Hk. exists w0. rewrite Hw, lookup_insert_ne by congruence. auto 10.
Qed.

(** The kernel calls of Helena keep the speakers. *)
Lemma speakers_kept_trans m1 m2 m3 :
  speakers_kept m1 m2 -> speakers_kept m2 m3 -> speakers_kept m1 m3.
Proof.
  intros H12 H23 Hwf. destruct (H12 Hwf) as [Hwf2 Hk2]. destruct (H23 Hwf2) as [Hwf3 Hk3].
  split; [exact Hwf3|]. auto.
Qed.

Lemma speakers_kept_of_evolves m m' :
  evolves m m' ->
  (forall k sp, SpeakerRegistry._speakers (registry m) !! k = Some sp ->
                SpeakerRegistry._speakers (registry m') !! k = Some sp) ->
  speakers_kept m m'.
Proof. intros He Hk Hwf. split; [apply (He Hwf)|exact Hk]. Qed.

Lemma speakers_kept_frame m m' :
  registry m' = registry m -> memory m' = memory m -> bus m' = bus m -> speakers_kept m m'.
Proof.
  intros Hr Hm Hb. apply speakers_kept_of_evolves; [apply evolves_frame; assumption|].
  rewrite Hr. auto.
Qed.

Lemma speakers_kept_create m t name :
  speakers_kept m
    (set_memory (Memory.create_partition (SpeakerRegistry._next_id (registry m)) (memory m))
       (set_registry (snd (SpeakerRegistry.create t name (registry m))) m)).
Proof.
  intros Hwf. split; [apply (evolves_create m t name Hwf)|].
  intros k sp Hk. simpl. destruct Hwf as (Hreg & _).
  pose proof (registry_fresh _ Hreg) as Hfresh.
  rewrite lookup_insert_ne by congruence. exact Hk.
Qed.

Lemma speakers_kept_write m c var v :
  speakers_kept m (set_memory (snd (Memory.write c var v (memory m))) m).
Proof. apply speakers_kept_of_evolves; [apply evolves_write|auto]. Qed.

Lemma speakers_kept_request m t from to action data expires_at :
  speakers_kept m
    (set_bus (snd (RequestBus.create_request t from to action data expires_at (bus m))) m).
Proof. apply speakers_kept_of_evolves; [apply evolves_request|auto]. Qed.

Lemma create_speaker_registers (m m' : Mary) caller name sp :
  well_formed m ->
  create_speaker caller name m = (Ok (Some sp), m') ->
  well_formed m'
  /\ SpeakerRegistry._speakers (registry m') !! Speaker.id sp = Some sp
  /\ Speaker.is_alive sp = true.
Proof.
  intros Hwf Hc. split.
  - pose proof (create_speaker_evolves caller name m Hwf) as [Hwf' _].
    rewrite Hc in Hwf'. exact Hwf'.
  - revert Hc. unfold create_speaker, bind, authenticate, gets, now, modify.
    destruct (SpeakerRegistry.authenticate caller (registry m)); simpl.
    + intros [= <- <-]. simpl. rewrite lookup_insert_eq. split; reflexivity.
    + intros Hc. discriminate Hc.
Qed.

(** In the states of Helena: the kernel is well formed, the worlds are, and
    Helena's own speaker is registered and alive. *)
Lemma helena_reachable_wf (h : Helena.t) :
  helena_reachable h ->
  well_formed (Helena.mary h)
  /\ wf_worlds h
  /\ SpeakerRegistry._speakers (registry (Helena.mary h)) !! Speaker.id (Helena.speaker h)
     = Some (Helena.speaker h)
  /\ Speaker.is_alive (Helena.speaker h) = true.
Proof.
  induction 1 as [h Hnew|h h' Hh (IHm & IHw & IHs & IHa) Hstep].
  - destruct (helena_new_spec speakers_kept speakers_kept_trans speakers_kept_frame
                              speakers_kept_write h Hnew)
      as (sp & m & Hc & Hsp & HT & Hw & Hn).
    destruct (create_speaker_registers _ _ _ _ _ well_formed_new Hc) as (Hm & Hk & Ha).
    destruct (HT Hm) as [Hwf Hkept]. rewrite Hsp.
    split; [exact Hwf|]. split; [|split; [apply Hkept; exact Hk|exact Ha]].
    split; [lia|]. intros k w. rewrite Hw, lookup_empty. discriminate.
  - destruct (helena_step_spec speakers_kept speakers_kept_trans speakers_kept_frame
                               speakers_kept_create speakers_kept_write
                               speakers_kept_request _ _ Hstep) as (HT & Hsp & Hs).
    destruct (HT IHm) as [Hwf Hkept]. rewrite Hsp.
    split; [exact Hwf|]. split; [apply (worlds_step_wf _ _ Hs IHw)|].
    split; [apply Hkept; exact IHs|exact IHa].
Qed.

Lemma helena_step_worlds (h h' : Helena.t) : helena_step h h' -> worlds_step h h'.
Proof.
  intros Hstep.
  apply (helena_step_spec speakers_kept speakers_kept_trans speakers_kept_frame
                          speakers_kept_create speakers_kept_write
                          speakers_kept_request _ _ Hstep).
Qed.
End HelenaReachable.

(** ** Worlds and membership *)

Section HelenaWorlds.
Context `{Host}.

Ltac helena_norm :=
  repeat (cbv beta iota zeta; rewrite ?on_mary_eq, ?log_eq);
  cbn [fst snd Helena.mary Helena._worlds Helena._next_world_id Helena.speaker
       Helena.set_mary Helena.set_worlds].

Ltac hproj :=
  cbn [fst snd Helena.mary Helena._worlds Helena._next_world_id Helena.speaker
       Helena.set_mary Helena.set_worlds].



(** X22: when an authenticated speaker joins an open world, the call
    returns [True] and the speaker holds exactly the permissions given, or
    the default ones; the other memberships are untouched.  With the
    default permissions the speaker can neither invite nor configure, and
    its invitations return [False] and change nothing. *)
Theorem join_world_replaces_membership (h : Helena.t) (s : Z) (wid : string) (w : World.t)
    (perms : option WorldPermissions.t) :
  Helena.get_world wid h = Some w ->
  World.status w = WorldStatus.OPEN ->
  SpeakerRegistry.authenticate s (registry (Helena.mary h)) = true ->
  let r := Helena.join_world s wid perms h in
  fst r = true
  /\ exists w',
       Helena.get_world wid (snd r) = Some w'
       /\ World.get_permissions s w' = Some (default WorldPermissions.default perms)
       /\ (forall s', s' <> s -> World.members w' !! s' = World.members w !! s')
       /\ (perms = None ->
           World.can s "invite" w' = false
           /\ World.can s "configure" w' = false
           /\ forall t ps, Helena.invite_to_world s t wid ps (snd r) = (false, snd r)).
Proof.
  intros Hw Hopen Hauth r. unfold Helena.get_world in *.
  subst r. unfold Helena.join_world. rewrite Hw, Hopen, Hauth. cbn [negb String.eqb].
  change (WorldStatus.OPEN =? WorldStatus.OPEN)%string with true. cbn [negb].
  helena_norm. split; [reflexivity|]. eexists. rewrite lookup_insert_eq.
  split; [reflexivity|]. split; [|split].
  - unfold World.get_permissions. cbn [World.members World.with_members].
    rewrite lookup_insert_eq. reflexivity.
  - intros s' Hs'. cbn [World.members World.with_members].
    rewrite lookup_insert_ne by congruence. reflexivity.
  - intros ->. unfold World.can, World.get_permissions.
    cbn [World.members World.with_members]. rewrite lookup_insert_eq.
    split; [reflexivity|]. split; [reflexivity|].
    intros t ps. unfold Helena.invite_to_world. cbn [Helena._worlds Helena.set_mary
      Helena.set_worlds]. rewrite lookup_insert_eq.
    unfold World.can, World.get_permissions. cbn [World.members World.with_members].
    rewrite lookup_insert_eq. reflexivity.
Qed.

(** X23: when a member leaves a world, the call returns [True], the
    speaker is no longer a member, the status of the world and the other
    memberships are untouched, and its writes, reads and requests in the
    world are refused without any change. *)
Theorem leave_world_revokes (h : Helena.t) (s : Z) (wid : string) (w : World.t) :
  Helena.get_world wid h = Some w ->
  World.is_member s w = true ->
  let r := Helena.leave_world s wid h in
  fst r = true
  /\ (exists w',
        Helena.get_world wid (snd r) = Some w'
        /\ World.is_member s w' = false
        /\ World.status w' = World.status w
        /\ forall s', s' <> s -> World.members w' !! s' = World.members w !! s')
  /\ (forall var v, Helena.world_write s wid var v (snd r) = (false, snd r))
  /\ (forall owner var, Helena.world_read s wid owner var (snd r) = (VNone, snd r))
  /\ (forall t action data, Helena.world_request s t wid action data (snd r) = (None, snd r)).
Proof.
  intros Hw Hmem r. unfold Helena.get_world in *.
  subst r. unfold Helena.leave_world. rewrite Hw, Hmem. cbn [negb].
  helena_norm. split; [reflexivity|]. split; [|split; [|split]].
  - eexists. rewrite lookup_insert_eq. split; [reflexivity|].
    unfold World.is_member. cbn [World.members World.with_members World.status].
    rewrite lookup_delete_eq. split; [reflexivity|]. split; [reflexivity|].
    intros s' Hs'. rewrite lookup_delete_ne by congruence. reflexivity.
  - intros var v. unfold Helena.world_write.
    cbn [Helena._worlds Helena.set_mary Helena.set_worlds]. rewrite lookup_insert_eq.
    unfold World.can, World.get_permissions. cbn [World.members World.with_members].
    rewrite lookup_delete_eq. reflexivity.
  - intros owner var. unfold Helena.world_read.
    cbn [Helena._worlds Helena.set_mary Helena.set_worlds]. rewrite lookup_insert_eq.
    unfold World.can, World.get_permissions. cbn [World.members World.with_members].
    rewrite lookup_delete_eq. reflexivity.
  - intros t action data. unfold Helena.world_request.
    cbn [Helena._worlds Helena.set_mary Helena.set_worlds]. rewrite lookup_insert_eq.
    unfold World.can, World.get_permissions. cbn [World.members World.with_members].
    rewrite lookup_delete_eq. reflexivity.
Qed.
End HelenaWorlds.

Section HelenaSpeakers.
Context `{Host}.

Lemma create_speaker_eq (caller : Z) (name : string) (m : Mary) :
  SpeakerRegistry.authenticate caller (registry m) = true ->
  exists m',
    create_speaker caller name m
    = (Ok (Some (Speaker.mk _ (SpeakerRegistry._next_id (registry m)) name
                            (time_time (clock m)) SpeakerStatus.ALIVE)), m')
    /\ registry m'
       = snd (SpeakerRegistry.create (time_time (clock m)) name (registry m))
    /\ memory m'
       = Memory.create_partition (SpeakerRegistry._next_id (registry m)) (memory m).
Proof.
  intros Hauth. unfold create_speaker, bind, authenticate, gets, now, modify.
  rewrite Hauth. cbn [negb]. eexists. split; [reflexivity|]. split; reflexivity.
Qed.

End HelenaSpeakers.

Section HelenaLedger.
Context `{Host}.

Ltac helena_norm :=
  repeat (cbv beta iota zeta; rewrite ?on_mary_eq, ?log_eq);
  cbn [fst snd Helena.mary Helena._worlds Helena._next_world_id Helena.speaker
       Helena.set_mary Helena.set_worlds].

Ltac hproj :=
  cbn [fst snd Helena.mary Helena._worlds Helena._next_world_id Helena.speaker
       Helena.set_mary Helena.set_worlds].

Lemma evaluate_succeeding_action (expr e0 : Expression.t) (m : Mary) :
  SpeakerRegistry.authenticate (Expression.speaker_id expr) (registry m) = true ->
  dict_get (Expression.expression_id expr) (_expressions m) = Some e0 ->
  Expression.version e0 = Version.CURRENT ->
  Expression.scope_until expr = None ->
  Expression.condition expr = None ->
  Expression.action_fn expr = Some (Ret (VBool true)) ->
  Expression.is_refusal expr = false ->
  exists e,
    Ledger._entries (ledger (snd (evaluate run expr m))) = Ledger._entries (ledger m) ++ [e]
    /\ LedgerEntry.operation e = "evaluate"
    /\ LedgerEntry.status e = Some Status.ACTIVE
    /\ LedgerEntry.speaker_id e = Expression.speaker_id expr
    /\ LedgerEntry.action e = Expression.action expr.
Proof.
  intros Hauth Hget Hver Hscope Hcond Hact Href.
  unfold evaluate. cbv zeta.
  unfold bind at 1, authenticate, gets at 1. rewrite Hauth. cbn [negb].
  unfold bind at 1, is_current, gets at 1. rewrite Hget, Hver. cbn [negb Version.eqb].
  unfold scope_passed. rewrite Hscope, Hcond, Hact, Href.
  eexists. simpl. repeat split; reflexivity.
Qed.

(** What Helena's [submit] of an expression whose action is [lambda: True]
    writes to the ledger, for an authenticated speaker. *)
Lemma log_entries sid label action (m : Mary) :
  SpeakerRegistry.authenticate sid (registry m) = true ->
  exists l e,
    Ledger._entries
      (ledger (snd (submit run sid None label action Helena.always_true false None m)))
    = Ledger._entries (ledger m) ++ l ++ [e]
    /\ Forall is_supersede l
    /\ LedgerEntry.operation e = "evaluate"
    /\ LedgerEntry.status e = Some Status.ACTIVE
    /\ LedgerEntry.speaker_id e = sid
    /\ LedgerEntry.action e = action.
Proof.
  intros Hauth. unfold submit. unfold bind at 1, authenticate, gets at 1.
  rewrite Hauth. cbn [negb].
  unfold bind at 1 2 3 4 5 6, gets at 1 2, now, modify. cbv beta iota.
  match goal with
  | |- context [supersede ?n ?s ?a ?l ?i ?m1] =>
      destruct (supersede_entries n s a l i m1) as (l1 & c & h & Heq & Hl); rewrite Heq
  end.
  cbv beta iota. exists l1.
  match goal with
  | |- context [bind (evaluate _ ?e) _ ?m1] =>
      destruct (evaluate_succeeding_action e e m1) as (en & Hen & Hop & Hst & Hsp & Hac);
        [exact Hauth|simpl; rewrite dict_get_set, Z.eqb_refl; reflexivity
        |reflexivity|reflexivity|reflexivity|reflexivity|reflexivity|];
        unfold bind; destruct (evaluate run e m1) as [[r|r] m2]
  end; simpl in Hen, Hsp, Hac |- *; exists en; rewrite Hen, <- app_assoc; auto 10.
Qed.

(** X25: an invitation into a world that is not open, by a member who
    may invite, returns [False] and leaves the worlds as they are, yet the
    ledger gains an active [evaluate] entry of the inviter for
    [invite:<target>:to:<world>]. *)
Theorem invitation_to_closed_world_is_logged (h : Helena.t) (inviter target : Z)
    (wid : string) (w : World.t) (perms : option WorldPermissions.t) :
  Helena.get_world wid h = Some w ->
  World.can inviter "invite" w = true ->
  World.status w <> WorldStatus.OPEN ->
  SpeakerRegistry.authenticate target (registry (Helena.mary h)) = true ->
  SpeakerRegistry.authenticate inviter (registry (Helena.mary h)) = true ->
  let r := Helena.invite_to_world inviter target wid perms h in
  fst r = false
  /\ Helena._worlds (snd r) = Helena._worlds h
  /\ exists l e,
       Ledger._entries (ledger (Helena.mary (snd r)))
       = Ledger._entries (ledger (Helena.mary h)) ++ l ++ [e]
       /\ Forall is_supersede l
       /\ LedgerEntry.operation e = "evaluate"
       /\ LedgerEntry.status e = Some Status.ACTIVE
       /\ LedgerEntry.speaker_id e = inviter
       /\ LedgerEntry.action e = "invite:" +:+ int_str target +:+ ":to:" +:+ wid.
Proof.
  intros Hw Hcan Hclosed Ht Hi r. unfold Helena.get_world in Hw.
  subst r. unfold Helena.invite_to_world. rewrite Hw, Hcan, Ht. cbn [negb].
  rewrite log_eq. unfold Helena.join_world. hproj. rewrite Hw.
  destruct (String.eqb_spec (World.status w) WorldStatus.OPEN) as [|_]; [contradiction|].
  cbn [negb]. hproj. split; [reflexivity|]. split; [reflexivity|].
  apply log_entries. exact Hi.
Qed.

End HelenaLedger.

(** * The kernel at work: closed instances *)

Section Examples.
#[local] Existing Instance WholeSeconds.host.

Example boot_entry :
  map (fun e => (LedgerEntry.hash_input e, LedgerEntry.entry_hash e))
      (Ledger._entries (ledger Mary_new))
  = [("0:0:boot:mary_initialized:1771500001.0:genesis", "47dcefa4ab180f6a")].
Proof. vm_compute. reflexivity. Qed.

Example two_speakers_verifies : Ledger.verify_integrity (ledger two_speakers) = true.
Proof. vm_compute. reflexivity. Qed.

Lemma append_hash_chain_witness :
  ledger_reachable Ledger.init
  /\ LedgerEntry.entry_hash
       (fst (@Ledger.append WholeSeconds.host 1771500001 0 "boot" "mary_initialized"
                            None None (Some Status.ACTIVE) None None None Ledger.init))
     = "47dcefa4ab180f6a".
Proof.
  split; [constructor|].
  rewrite (proj1 (@append_hash_chain WholeSeconds.host Ledger.init 1771500001 0 "boot"
                    "mary_initialized" None None (Some Status.ACTIVE) None None None
                    reachable_init)).
  vm_compute. reflexivity.
Defined.



Lemma write_to_violation_witness :
  1 <> 2
  /\ fst (write_to 1 2 "x" (VInt 1) two_speakers) = Ok false
  /\ fst (read 1 2 "x" (snd (write_to 1 2 "x" (VInt 1) two_speakers))) = Ok VNone.
Proof.
  assert (1 <> 2) as Hne by lia.
  pose proof (write_to_violation two_speakers 1 2 "x" (VInt 1) Hne) as (Hr & _ & _ & _ & Hread).
  split; [exact Hne|]. split; [exact Hr|].
  rewrite (Hread 1); [reflexivity|]. vm_compute. reflexivity.
Defined.



Lemma respond_resolved_witness :
  exists req,
    RequestBus.get_request 0 (bus answered) = Some req
    /\ Request.to_speaker req = 2
    /\ Request.status req <> RequestStatus.PENDING
    /\ fst (respond 2 0 false VNone answered) = Ok false.
Proof.
  eexists.
  split; [vm_compute; reflexivity|].
  match goal with |- Request.to_speaker ?r = _ /\ _ => set (req := r) end.
  assert (RequestBus.get_request 0 (bus answered) = Some req) as Hget
    by (vm_compute; reflexivity).
  assert (Request.to_speaker req = 2) as Hto by reflexivity.
  assert (Request.status req <> RequestStatus.PENDING) as Hst by discriminate.
  split; [exact Hto|]. split; [exact Hst|].
  exact (proj1 (respond_resolved answered 2 0 false VNone req Hget Hto Hst)).
Defined.

(** *** C5 *)

(** C5 fails as stated: A, authenticated, submits an expression whose
    condition raises; the expression ends inactive, not broken. *)
Lemma raising_condition_is_inactive :
  SpeakerRegistry.authenticate 1 (registry two_speakers) = true
  /\ option_map Expression.status
       (dict_get 0 (_expressions
                      (snd (submit run 1 (Some (Raise "boom")) "c" "a" None false None
                                   two_speakers))))
     = Some (Some Status.INACTIVE)
  /\ receipts (snd (submit run 1 (Some (Raise "boom")) "c" "a" None false None two_speakers))
     = receipts two_speakers ++ [("evaluate", Some Status.INACTIVE, None)].
Proof. vm_compute. repeat split; reflexivity. Qed.

Lemma evaluate_condition_raises_witness :
  SpeakerRegistry.authenticate (Expression.speaker_id raising) (registry with_raising) = true
  /\ dict_get (Expression.expression_id raising) (_expressions with_raising) = Some raising
  /\ Expression.version raising = Version.CURRENT
  /\ scope_passed raising with_raising = (Ok false, with_raising)
  /\ Expression.condition raising = Some (Raise "boom")
  /\ run (Raise "boom") with_raising = (Exc "boom", with_raising)
  /\ fst (evaluate run raising with_raising) = Ok (Some Status.INACTIVE).
Proof.
  assert (SpeakerRegistry.authenticate (Expression.speaker_id raising) (registry with_raising)
          = true) as Hauth by (vm_compute; reflexivity).
  split; [exact Hauth|].
  do 5 (split; [reflexivity|]).
  exact (proj1 (evaluate_condition_raises with_raising with_raising with_raising raising
                  raising (Raise "boom") "boom" Hauth eq_refl eq_refl eq_refl eq_refl
                  eq_refl)).
Defined.

(** *** C6 *)



(** In the language, [while ..., max 0] logs the broken evaluation of the
    [loop:bound_exceeded] expression, not a [loop_end] entry. *)
Lemma while_max_zero_logs_no_loop_end :
  receipts (Runtime.mary unit
              (snd (Runtime._op_loop Z unit literal skip int_of 1 [tt] (Some 0) as_A)))
  = receipts two_speakers ++ [("evaluate", Some Status.BROKEN, Some "action_not_fulfilled")].
Proof. vm_compute. reflexivity. Qed.

(** *** C7 *)



(** *** C8 *)

(** C8 fails as stated: a [submit] by an unknown speaker, the suspension of
    an unknown speaker, and an action that raises log broken entries whose
    reasons are outside the closed set. *)
Lemma break_reasons_outside_closed_set :
  receipts (snd (submit run 7 None "c" "a" None false None two_speakers))
  = receipts two_speakers ++ [("submit", Some Status.BROKEN, Some "speaker_not_authenticated")]
  /\ ~ claimed_reason "speaker_not_authenticated"
  /\ receipts (snd (suspend_speaker 0 7 two_speakers))
     = receipts two_speakers
       ++ [("suspend_speaker", Some Status.BROKEN, Some "speaker_not_found")]
  /\ ~ claimed_reason "speaker_not_found"
  /\ receipts (snd (submit run 1 None "c" "a" (Some (Raise "boom")) false None two_speakers))
     = receipts two_speakers ++ [("evaluate", Some Status.BROKEN, Some "boom")]
  /\ ~ claimed_reason "boom".
Proof.
  assert (forall r, (if existsb (String.eqb r) claimed_reasons then true
                     else String.prefix "max_iterations_" r) = false ->
                    ~ claimed_reason r) as Hout.
  { intros r Hr [Hin|[n Hn]].
    - destruct (existsb (String.eqb r) claimed_reasons) eqn:He; [discriminate|].
      apply Bool.not_true_iff_false in He. apply He. apply existsb_exists.
      exists r. split; [exact Hin|apply String.eqb_refl].
    - subst r. destruct (existsb _ _); [discriminate Hr|].
      assert (forall s t, String.prefix s (s +:+ t) = true) as Hp.
      { induction s as [|a s IH]; intros t; simpl; [destruct t; reflexivity|].
        destruct (Ascii.ascii_dec a a); [apply IH|contradiction]. }
      rewrite Hp in Hr. discriminate Hr. }
  split; [vm_compute; reflexivity|]. split; [apply Hout; reflexivity|].
  split; [vm_compute; reflexivity|]. split; [apply Hout; reflexivity|].
  split; [vm_compute; reflexivity|]. apply Hout; reflexivity.
Qed.

Lemma broken_entries_reasons_witness :
  exists e,
    reachable (fun _ => True) (snd (run unknown_submits Mary_new))
    /\ In e (Ledger._entries (ledger (snd (run unknown_submits Mary_new))))
    /\ LedgerEntry.status e = Some Status.BROKEN
    /\ exists r,
         LedgerEntry.break_reason e = Some r
         /\ (kernel_reason r
             \/ (LedgerEntry.operation e = "evaluate"
                 /\ LedgerEntry.condition_result e = Some true)).
Proof.
  assert (reachable (fun _ => True) (snd (run unknown_submits Mary_new))) as Hreach
    by (apply reachable_run; [apply reachable_new|apply calls_only_any]).
  eexists.
  assert (In _ (Ledger._entries (ledger (snd (run unknown_submits Mary_new))))) as Hin
    by (vm_compute; right; left; reflexivity).
  split; [exact Hreach|]. split; [exact Hin|]. split; [reflexivity|].
  exact (broken_entries_reasons _ _ Hreach Hin eq_refl).
Defined.

(** *** C9 *)

(** C9, where the code departs from it: in the archived world, bob leaves
    and alice's request to bob is created; the write and the join are
    rejected. *)
Theorem archived_world_is_mutated :
  (World.status <$> (Helena._worlds archived !! "world_0")) = Some WorldStatus.ARCHIVED
  /\ member_ids "world_0" archived = Some [3; 2]
  /\ fst (Helena.leave_world 3 "world_0" archived) = true
  /\ member_ids "world_0" (snd (Helena.leave_world 3 "world_0" archived)) = Some [2]
  /\ fst (Helena.world_request 2 3 "world_0" "ping" VNone archived) = Some 0
  /\ fst (Helena.world_write 3 "world_0" "x" (VInt 1) archived) = false
  /\ fst (Helena.join_world 1 "world_0" None archived) = false.
Proof. vm_compute. repeat split; reflexivity. Qed.

(** ** The kernel state, the ledger and Helena at work

    Closed instances of the properties of the kernel state, of the ledger
    and of Helena. *)

#[local] Existing Instance WholeSeconds.order.

Lemma at_work_reachable : reachable (fun _ => True) at_work.
Proof. apply reachable_run; [apply reachable_new|apply calls_only_any]. Qed.

Lemma with_request_reachable : reachable (fun _ => True) with_request.
Proof. apply reachable_run; [apply reachable_new|apply calls_only_any]. Qed.

Lemma helena_is_new : Helena.new = Some helena.
Proof. vm_compute. reflexivity. Qed.

Lemma with_alice_and_bob_reachable : helena_reachable with_alice_and_bob.
Proof.
  eapply helena_next; [eapply helena_next; [apply helena_new, helena_is_new|]|];
    apply step_create_speaker.
Qed.

Lemma with_lab_reachable : helena_reachable with_lab.
Proof.
  eapply helena_next; [eapply helena_next; [apply with_alice_and_bob_reachable|]|].
  - apply step_create_world.
  - apply step_join_world.
Qed.

Lemma archived_reachable : helena_reachable archived.
Proof. eapply helena_next; [apply with_lab_reachable|apply step_archive_world]. Qed.

Lemma reachable_ledger_verifies_witness :
  reachable (fun _ => True) at_work /\ ledger_verify at_work = (Ok true, at_work).
Proof.
  split; [exact at_work_reachable|].
  exact (reachable_ledger_verifies at_work at_work_reachable).
Defined.

Lemma ledger_read_range_witness :
  reachable (fun _ => True) at_work
  /\ SpeakerRegistry.authenticate 1 (registry at_work) = true
  /\ 0 <= 1 <= 3
  /\ exists l,
       ledger_read 1 1 (Some 3) at_work = (Ok l, at_work)
       /\ map LedgerEntry.entry_id l = [1; 2].
Proof.
  assert (SpeakerRegistry.authenticate 1 (registry at_work) = true) as Hauth
    by (vm_compute; reflexivity).
  assert (0 <= 1 <= 3) as Hab by lia.
  pose proof (ledger_read_range at_work 1 1 3 at_work_reachable Hauth Hab) as Hw.
  cbv zeta in Hw. destruct Hw as (l & Hread & Hids & _).
  split; [exact at_work_reachable|]. split; [exact Hauth|]. split; [exact Hab|].
  exists l. split; [exact Hread|]. rewrite Hids. vm_compute. reflexivity.
Defined.

Lemma create_speaker_fresh_witness :
  reachable (fun _ => True) at_work
  /\ SpeakerRegistry.authenticate 0 (registry at_work) = true
  /\ exists sp,
       fst (create_speaker 0 "C" at_work) = Ok (Some sp)
       /\ Speaker.id sp = 3
       /\ SpeakerRegistry.get 3 (registry at_work) = None
       /\ SpeakerRegistry.authenticate 3 (registry (snd (create_speaker 0 "C" at_work))) = true.
Proof.
  assert (SpeakerRegistry.authenticate 0 (registry at_work) = true) as Hauth
    by (vm_compute; reflexivity).
  pose proof (create_speaker_fresh at_work 0 "C" at_work_reachable Hauth) as Hw.
  cbv zeta in Hw. destruct Hw as (sp & Hr & Hid & _ & Hfree & _ & Hsp & _).
  assert (Speaker.id sp = 3) as Hid3 by (rewrite Hid; vm_compute; reflexivity).
  rewrite Hid3 in Hfree, Hsp.
  split; [exact at_work_reachable|]. split; [exact Hauth|].
  exists sp. auto.
Defined.

Lemma speaker_identity_is_stable_witness :
  reachable (fun _ => True) at_work
  /\ exists sp,
       SpeakerRegistry.get 1 (registry at_work) = Some sp
       /\ exists sp',
            SpeakerRegistry.get 1 (registry (snd (run unknown_submits at_work))) = Some sp'
            /\ Speaker.name sp' = Speaker.name sp.
Proof.
  split; [exact at_work_reachable|].
  destruct (SpeakerRegistry.get 1 (registry at_work)) as [sp|] eqn:Hget;
    [|vm_compute in Hget; discriminate Hget].
  exists sp. split; [reflexivity|].
  destruct (speaker_identity_is_stable at_work unknown_submits 1 sp at_work_reachable Hget)
    as (_ & sp' & Hget' & _ & Hname & _).
  exists sp'. auto.
Defined.

Lemma suspension_is_permanent_witness :
  reachable (fun _ => True) at_work
  /\ is_Some (SpeakerRegistry.get 1 (registry at_work))
  /\ fst (suspend_speaker 0 1 at_work) = Ok true
  /\ SpeakerRegistry.authenticate 1
       (registry (snd (run submit_twice (snd (suspend_speaker 0 1 at_work))))) = false.
Proof.
  assert (is_Some (SpeakerRegistry.get 1 (registry at_work))) as Hsome
    by (eexists; vm_compute; reflexivity).
  pose proof (suspension_is_permanent at_work 1 submit_twice at_work_reachable Hsome) as Hw.
  cbv zeta in Hw. destruct Hw as (Hr & _ & Hafter).
  split; [exact at_work_reachable|]. auto.
Defined.

Lemma write_then_read_witness :
  reachable (fun _ => True) at_work
  /\ SpeakerRegistry.authenticate 1 (registry at_work) = true
  /\ SpeakerRegistry.authenticate 2 (registry at_work) = true
  /\ fst (write 1 "x" (VInt 5) at_work) = Ok true
  /\ fst (read 2 1 "x" (snd (write 1 "x" (VInt 5) at_work))) = Ok (VInt 5).
Proof.
  assert (SpeakerRegistry.authenticate 1 (registry at_work) = true) as H1
    by (vm_compute; reflexivity).
  assert (SpeakerRegistry.authenticate 2 (registry at_work) = true) as H2
    by (vm_compute; reflexivity).
  pose proof (write_then_read at_work 1 2 "x" (VInt 5) at_work_reachable H1 H2) as Hw.
  cbv zeta in Hw. destruct Hw as (Hr & Hread & _).
  split; [exact at_work_reachable|]. auto.
Defined.

Lemma request_is_pending_witness :
  reachable (fun _ => True) at_work
  /\ SpeakerRegistry.authenticate 1 (registry at_work) = true
  /\ SpeakerRegistry.authenticate 2 (registry at_work) = true
  /\ exists req,
       fst (request 1 2 "review" VNone None at_work) = Ok (Some req)
       /\ Request.to_speaker req = 2
       /\ Request.status req = RequestStatus.PENDING.
Proof.
  assert (SpeakerRegistry.authenticate 1 (registry at_work) = true) as H1
    by (vm_compute; reflexivity).
  assert (SpeakerRegistry.authenticate 2 (registry at_work) = true) as H2
    by (vm_compute; reflexivity).
  pose proof (request_is_pending at_work 1 2 "review" VNone None at_work_reachable H1 H2)
    as Hw.
  cbv zeta in Hw. destruct Hw as (req & Hr & _ & _ & Hto & _ & _ & Hst & _).
  split; [exact at_work_reachable|]. split; [exact H1|]. split; [exact H2|].
  exists req. auto.
Defined.

Lemma respond_at_most_once_witness :
  reachable (fun _ => True) with_request
  /\ fst (respond 2 0 true VNone with_request) = Ok true
  /\ fst (respond 2 0 false VNone
            (snd (run unknown_submits (snd (respond 2 0 true VNone with_request)))))
     = Ok false.
Proof.
  assert (fst (respond 2 0 true VNone with_request) = Ok true) as Hr
    by (vm_compute; reflexivity).
  split; [exact with_request_reachable|]. split; [exact Hr|].
  exact (proj2 (respond_at_most_once with_request 2 0 true VNone unknown_submits 2 false
                  VNone with_request_reachable Hr)).
Defined.

Lemma expression_identity_is_stable_witness :
  reachable (fun _ => True) at_work
  /\ exists e,
       fst (get_expression 0 at_work) = Ok (Some e)
       /\ exists e',
            fst (get_expression 0 (snd (run unknown_submits at_work))) = Ok (Some e')
            /\ Expression.action e' = Expression.action e.
Proof.
  split; [exact at_work_reachable|].
  destruct (fst (get_expression 0 at_work)) as [[e|]|x] eqn:Hget;
    try (vm_compute in Hget; discriminate Hget).
  exists e. split; [reflexivity|].
  destruct (expression_identity_is_stable at_work unknown_submits 0 e at_work_reachable Hget)
    as (e' & Hget' & _ & _ & _ & _ & Hact & _).
  exists e'. auto.
Defined.

Lemma state_of_reachable_witness :
  reachable (fun _ => True) at_work
  /\ fst (state at_work)
     = Ok [ ("speakers", VInt 3); ("ledger_entries", VInt 6);
            ("ledger_integrity", VBool true); ("expressions", VInt 2);
            ("pending_requests", VInt 0) ].
Proof.
  split; [exact at_work_reachable|].
  rewrite (proj1 (state_of_reachable at_work at_work_reachable)).
  vm_compute. reflexivity.
Defined.

Lemma evaluate_action_result_witness :
  SpeakerRegistry.authenticate (Expression.speaker_id failing) (registry with_failing) = true
  /\ dict_get (Expression.expression_id failing) (_expressions with_failing) = Some failing
  /\ Expression.version failing = Version.CURRENT
  /\ scope_passed failing with_failing = (Ok false, with_failing)
  /\ Expression.condition failing = None
  /\ Expression.action_fn failing = Some (Ret (VBool false))
  /\ run (Ret (VBool false)) with_failing = (Ok (VBool false), with_failing)
  /\ fst (evaluate run failing with_failing) = Ok (Some Status.BROKEN).
Proof.
  assert (SpeakerRegistry.authenticate (Expression.speaker_id failing) (registry with_failing)
          = true) as Hauth by (vm_compute; reflexivity).
  split; [exact Hauth|].
  do 6 (split; [reflexivity|]).
  exact (proj1 (evaluate_action_result with_failing with_failing with_failing failing
                  failing (Ret (VBool false)) (VBool false) Hauth eq_refl eq_refl eq_refl
                  eq_refl eq_refl eq_refl)).
Defined.

Lemma evaluate_loop_never_active_witness :
  exists st count m',
    evaluate_loop run failing with_failing = (Ok (st, count), m')
    /\ (st = Status.INACTIVE \/ st = Status.BROKEN).
Proof.
  destruct (evaluate_loop run failing with_failing) as [[[st count]|x] m'] eqn:Hloop;
    [|vm_compute in Hloop; discriminate Hloop].
  exists st, count, m'. split; [reflexivity|].
  exact (evaluate_loop_never_active run failing with_failing m' st count Hloop).
Defined.


Lemma inspect_variable_after_write_witness :
  reachable (fun _ => True) at_work
  /\ SpeakerRegistry.authenticate 1 (registry at_work) = true
  /\ SpeakerRegistry.authenticate 2 (registry at_work) = true
  /\ exists rep,
       fst (inspect_variable 2 1 "x" (snd (write 1 "x" (VInt 5) at_work))) = Ok (Some rep)
       /\ VariableReport.current_value rep = VInt 5.
Proof.
  assert (SpeakerRegistry.authenticate 1 (registry at_work) = true) as H1
    by (vm_compute; reflexivity).
  assert (SpeakerRegistry.authenticate 2 (registry at_work) = true) as H2
    by (vm_compute; reflexivity).
  pose proof (inspect_variable_after_write at_work 1 2 "x" (VInt 5) at_work_reachable H1 H2)
    as Hw.
  cbv zeta in Hw. destruct Hw as (rep0 & rep1 & item & _ & Hrep & Hv & _).
  split; [exact at_work_reachable|]. split; [exact H1|]. split; [exact H2|].
  exists rep1. auto.
Defined.




Lemma join_world_replaces_membership_witness :
  exists w,
    Helena.get_world "world_0" with_world = Some w
    /\ World.status w = WorldStatus.OPEN
    /\ SpeakerRegistry.authenticate 3 (registry (Helena.mary with_world)) = true
    /\ fst (Helena.join_world 3 "world_0" None with_world) = true.
Proof.
  eexists. split; [vm_compute; reflexivity|].
  match goal with |- World.status ?r = _ /\ _ => set (w := r) end.
  assert (Helena.get_world "world_0" with_world = Some w) as Hget
    by (vm_compute; reflexivity).
  assert (World.status w = WorldStatus.OPEN) as Hopen by reflexivity.
  assert (SpeakerRegistry.authenticate 3 (registry (Helena.mary with_world)) = true)
    as Hauth by (vm_compute; reflexivity).
  split; [exact Hopen|]. split; [exact Hauth|].
  exact (proj1 (join_world_replaces_membership with_world 3 "world_0" w None Hget Hopen
                  Hauth)).
Defined.

Lemma leave_world_revokes_witness :
  exists w,
    Helena.get_world "world_0" with_lab = Some w
    /\ World.is_member 3 w = true
    /\ fst (Helena.leave_world 3 "world_0" with_lab) = true
    /\ Helena.world_write 3 "world_0" "x" (VInt 1)
         (snd (Helena.leave_world 3 "world_0" with_lab))
       = (false, snd (Helena.leave_world 3 "world_0" with_lab)).
Proof.
  eexists. split; [vm_compute; reflexivity|].
  match goal with |- World.is_member 3 ?r = _ /\ _ => set (w := r) end.
  assert (Helena.get_world "world_0" with_lab = Some w) as Hget
    by (vm_compute; reflexivity).
  assert (World.is_member 3 w = true) as Hmem by (vm_compute; reflexivity).
  pose proof (leave_world_revokes with_lab 3 "world_0" w Hget Hmem) as Hw.
  cbv zeta in Hw. destruct Hw as (Hr & _ & Hwrite & _).
  split; [exact Hmem|]. split; [exact Hr|]. apply Hwrite.
Defined.


Lemma invitation_to_closed_world_is_logged_witness :
  exists w,
    Helena.get_world "world_0" archived = Some w
    /\ World.can 2 "invite" w = true
    /\ World.status w <> WorldStatus.OPEN
    /\ SpeakerRegistry.authenticate 3 (registry (Helena.mary archived)) = true
    /\ SpeakerRegistry.authenticate 2 (registry (Helena.mary archived)) = true
    /\ fst (Helena.invite_to_world 2 3 "world_0" None archived) = false
    /\ Helena._worlds (snd (Helena.invite_to_world 2 3 "world_0" None archived))
       = Helena._worlds archived.
Proof.
  eexists. split; [vm_compute; reflexivity|].
  match goal with |- World.can 2 "invite" ?r = _ /\ _ => set (w := r) end.
  assert (Helena.get_world "world_0" archived = Some w) as Hget
    by (vm_compute; reflexivity).
  assert (World.can 2 "invite" w = true) as Hcan by (vm_compute; reflexivity).
  assert (World.status w <> WorldStatus.OPEN) as Hst by discriminate.
  assert (SpeakerRegistry.authenticate 3 (registry (Helena.mary archived)) = true) as H3
    by (vm_compute; reflexivity).
  assert (SpeakerRegistry.authenticate 2 (registry (Helena.mary archived)) = true) as H2
    by (vm_compute; reflexivity).
  pose proof (invitation_to_closed_world_is_logged archived 2 3 "world_0" w None Hget Hcan
                Hst H3 H2) as Hw.
  cbv zeta in Hw. destruct Hw as (Hr & Hworlds & _).
  auto 10.
Defined.


End Examples.
